(** * Frank-Wolfe weight matching: a shallow embedding of
    [src/ccmm/matching/frank_wolfe_matching.py]

    Scalars of the tensors are modelled as exact rationals ([Q]); a tensor is
    the nested list of its entries, a Python [dict] an insertion-ordered
    association list, and a raised exception a value of [exn] threaded
    through the error monad [result].  The collaborators that live outside
    the file (the linear-assignment solver, [scipy.optimize.fminbound], the
    random number generators) are Section variables.

    Modelling boundaries, stated once:
    - rounding is not modelled (arithmetic is exact);
    - a tensor with an extent of 0 is outside the model (a nested list does not
      record the width of a matrix without rows);
    - elementwise operations on operands of different shapes raise
      [RuntimeError]; torch would broadcast an extent of 1. *)

From Stdlib Require Import String List ZArith QArith Qabs Lia Lqa Bool Permutation.
Import ListNotations.
Open Scope string_scope.
Open Scope list_scope.
Open Scope Q_scope.

Set Implicit Arguments.

(* ================================================================= *)
(** ** Exceptions and the error monad *)

Inductive exn : Type :=
| ValueError (msg : string)
| AssertionError
| KeyError (key : string)
| IndexError
| UnboundLocalError (name : string)
| RuntimeError.

Inductive result (A : Type) : Type :=
| Ok (a : A)
| Raise (e : exn).

Arguments Ok {A} a.
Arguments Raise {A} e.

Definition bind {A B : Type} (r : result A) (k : A -> result B) : result B :=
  match r with
  | Ok a => k a
  | Raise e => Raise e
  end.

Notation "x <- c ;; k" := (bind c (fun x => k))
  (at level 61, c at next level, right associativity).
Notation "' pat <- c ;; k" := (bind c (fun x => match x with pat => k end))
  (at level 61, pat pattern, c at next level, right associativity).

(** Python's [assert]. *)
Definition py_assert (b : bool) : result unit :=
  if b then Ok tt else Raise AssertionError.

Definition is_ok {A : Type} (r : result A) : bool :=
  match r with Ok _ => true | Raise _ => false end.

(** A [for] loop over a list whose body may raise. *)
Fixpoint for_each {A S : Type} (body : S -> A -> result S) (l : list A) (s : S)
  : result S :=
  match l with
  | [] => Ok s
  | a :: l' => s' <- body s a ;; for_each body l' s'
  end.

(* ================================================================= *)
(** ** Python dictionaries with string keys (insertion ordered) *)

Module Dict.

Definition t (V : Type) : Type := list (string * V).

Definition empty {V : Type} : t V := [].

Fixpoint get {V : Type} (k : string) (d : t V) : option V :=
  match d with
  | [] => None
  | (k', v) :: d' => if String.eqb k k' then Some v else get k d'
  end.

(** [d[k] = v]: an existing key keeps its position, a new one goes last. *)
Fixpoint set {V : Type} (k : string) (v : V) (d : t V) : t V :=
  match d with
  | [] => [(k, v)]
  | (k', v') :: d' =>
      if String.eqb k k' then (k, v) :: d' else (k', v') :: set k v d'
  end.

Definition mem {V : Type} (k : string) (d : t V) : bool :=
  match get k d with Some _ => true | None => false end.

Definition keys {V : Type} (d : t V) : list string := map fst d.

Definition items {V : Type} (d : t V) : list (string * V) := d.

(** [d[k]] as an expression. *)
Definition getitem {V : Type} (k : string) (d : t V) : result V :=
  match get k d with
  | Some v => Ok v
  | None => Raise (KeyError k)
  end.

End Dict.

(* ================================================================= *)
(** ** Scalars, vectors, matrices *)

Abbreviation vec := (list Q) (only parsing).
Abbreviation mat := (list (list Q)) (only parsing).

Definition Qltb (x y : Q) : bool :=
  match x ?= y with Lt => true | _ => false end.

Definition Qgtb (x y : Q) : bool := Qltb y x.

Fixpoint map2 {A B C : Type} (f : A -> B -> C) (l1 : list A) (l2 : list B)
  : list C :=
  match l1, l2 with
  | a :: l1', b :: l2' => f a b :: map2 f l1' l2'
  | _, _ => []
  end.

Definition vsum (v : vec) : Q := fold_right Qplus 0 v.

Definition dot (u v : vec) : Q := vsum (map2 Qmult u v).

Definition nrows {A : Type} (m : list (list A)) : nat := length m.
Definition ncols {A : Type} (m : list (list A)) : nat := length (hd [] m).

(** Column [j] of a nested list, and [x.transpose(1, 0)]. *)
Definition col {A : Type} (j : nat) (m : list (list A)) : list A :=
  flat_map (fun r => match nth_error r j with Some x => [x] | None => [] end) m.

Definition transpose {A : Type} (m : list (list A)) : list (list A) :=
  map (fun j => col j m) (seq 0 (ncols m)).

(** [torch.eye(n)], [torch.zeros((n, m))], [torch.ones(n)], [torch.diag(v)]. *)
Definition eye (n : nat) : mat :=
  map (fun i => map (fun j => if Nat.eqb i j then 1 else 0) (seq 0 n)) (seq 0 n).

Definition zeros (n m : nat) : mat := repeat (repeat 0 m) n.

Definition ones (n : nat) : vec := repeat 1 n.

Definition diag (v : vec) : mat :=
  map (fun i => map (fun j => if Nat.eqb i j then nth i v 0 else 0)
                    (seq 0 (length v)))
      (seq 0 (length v)).

Definition shape_eqb (s1 s2 : list nat) : bool :=
  if list_eq_dec Nat.eq_dec s1 s2 then true else false.

Definition mat_shape (m : mat) : list nat := [nrows m; ncols m].

(** Every row has the width of the first: the nested list is a tensor. *)
Definition rect {A : Type} (m : list (list A)) : Prop :=
  Forall (fun r => length r = ncols m) m.

Definition wf_mat (r c : nat) (m : mat) : Prop :=
  length m = r /\ Forall (fun row => length row = c) m.

(** Products without the shape test, and as torch performs them. *)
Definition mv_raw (m : mat) (v : vec) : vec := map (fun r => dot r v) m.

Definition matmul_raw (a b : mat) : mat :=
  map (fun r => map (fun c => dot r c) (transpose b)) a.

Definition torch_mv (m : mat) (v : vec) : result vec :=
  if Nat.eqb (ncols m) (length v) then Ok (mv_raw m v) else Raise RuntimeError.

Definition torch_matmul (a b : mat) : result mat :=
  if Nat.eqb (ncols a) (nrows b) then Ok (matmul_raw a b) else Raise RuntimeError.

(** Elementwise operations. *)
Definition mscale (c : Q) (m : mat) : mat := map (map (Qmult c)) m.

Definition madd_raw (a b : mat) : mat := map2 (map2 Qplus) a b.

Definition madd (a b : mat) : result mat :=
  if shape_eqb (mat_shape a) (mat_shape b) then Ok (madd_raw a b)
  else Raise RuntimeError.

(** [torch.trace]: the sum of the diagonal of a 2-D tensor. *)
Fixpoint diag_from (i : nat) (m : mat) : vec :=
  match m with
  | [] => []
  | r :: m' =>
      match nth_error r i with
      | Some x => x :: diag_from (S i) m'
      | None => []
      end
  end.

Definition trace (m : mat) : Q := vsum (diag_from 0 m).

(** [matrix.sum()], [matrix.sum(dim=1)], [matrix.sum(dim=0)]. *)
Definition msum (m : mat) : Q := vsum (map vsum m).
Definition row_sums (m : mat) : vec := map vsum m.
Definition col_sums (m : mat) : vec := map vsum (transpose m).

(** [torch.allclose(input, other, rtol, atol)] on matrices of one shape. *)
Definition close (rtol atol x y : Q) : bool :=
  Qle_bool (Qabs (x - y)) (atol + rtol * Qabs y).

Fixpoint forallb2 {A B : Type} (f : A -> B -> bool) (l1 : list A) (l2 : list B)
  : bool :=
  match l1, l2 with
  | [], [] => true
  | a :: l1', b :: l2' => f a b && forallb2 f l1' l2'
  | _, _ => false
  end.

Definition allclose (rtol atol : Q) (a b : mat) : bool :=
  forallb2 (forallb2 (close rtol atol)) a b.

Definition mat_eqb (a b : mat) : bool := forallb2 (forallb2 Qeq_bool) a b.

(** Entrywise equality of rational matrices (two fractions for one number
    are equal here). *)
Definition mat_eq (a b : mat) : Prop := Forall2 (Forall2 Qeq) a b.

(* ================================================================= *)
(** ** Tensors of rank 1 to 4 *)

Inductive tensor : Type :=
| T1 (v : list Q)
| T2 (m : list (list Q))
| T3 (t : list (list (list Q)))
| T4 (t : list (list (list (list Q)))).

(** [x.dim()] and [x.shape]. *)
Definition dim (x : tensor) : nat :=
  match x with T1 _ => 1 | T2 _ => 2 | T3 _ => 3 | T4 _ => 4 end.

Definition shape (x : tensor) : list nat :=
  match x with
  | T1 v => [length v]
  | T2 m => [length m; ncols m]
  | T3 t => [length t; ncols t; ncols (hd [] t)]
  | T4 t => [length t; ncols t; ncols (hd [] t); ncols (hd [] (hd [] t))]
  end.

(** [x.shape[i]]. *)
Definition shape_at (x : tensor) (i : nat) : result nat :=
  match nth_error (shape x) i with
  | Some n => Ok n
  | None => Raise IndexError
  end.

(** [x.unsqueeze(1)]; a rank-4 operand would need rank 5, which every later
    contraction of the file rejects. *)
Definition unsqueeze1 (x : tensor) : result tensor :=
  match x with
  | T1 v => Ok (T2 (map (fun a => [a]) v))
  | T2 m => Ok (T3 (map (fun r => [r]) m))
  | T3 t => Ok (T4 (map (fun r => [r]) t))
  | T4 _ => Raise RuntimeError
  end.

(** [x.transpose(1, 0)]. *)
Definition transpose10 (x : tensor) : result tensor :=
  match x with
  | T1 _ => Raise IndexError
  | T2 m => Ok (T2 (transpose m))
  | T3 t => Ok (T3 (transpose t))
  | T4 t => Ok (T4 (transpose t))
  end.

(** The trailing axes of a rank-3 or rank-4 tensor form a fiber: a vector or
    a matrix.  The contractions of the file are matrix products in which the
    scalar product is replaced by an operation on fibers. *)
Section Fibers.

Variable F : Type.
Variable fadd : F -> F -> F.
Variable fscale : Q -> F -> F.
Variable fzero : F.
Variable fdot : F -> F -> Q.

Definition lincomb (cs : list Q) (fs : list F) : F :=
  match map2 fscale cs fs with
  | [] => fzero
  | f :: rest => fold_left fadd rest f
  end.

(** einsum [ij,jk..->ik..]. *)
Definition perm_rows_fib (perm : mat) (x : list (list F)) : list (list F) :=
  map (fun prow => map (fun xcol => lincomb prow xcol) (transpose x)) perm.

(** einsum [ijk..,jnk..->in]. *)
Definition contract_fib (a b : list (list F)) : mat :=
  map (fun arow => map (fun bcol => vsum (map2 fdot arow bcol)) (transpose b)) a.

End Fibers.

Definition vadd (u v : vec) : vec := map2 Qplus u v.
Definition vscale (c : Q) (v : vec) : vec := map (Qmult c) v.
Definition mdot (a b : mat) : Q := vsum (map2 dot a b).

(** [torch.einsum("ijk,jnk->in", a, b)] and its rank-4 sibling: the shared
    axes must have one extent. *)
Definition einsum3 (a b : tensor) : result mat :=
  match a, b with
  | T3 x, T3 y =>
      if Nat.eqb (ncols x) (length y) && Nat.eqb (ncols (hd [] x)) (ncols (hd [] y))
      then Ok (contract_fib dot x y) else Raise RuntimeError
  | _, _ => Raise RuntimeError
  end.

Definition einsum4 (a b : tensor) : result mat :=
  match a, b with
  | T4 x, T4 y =>
      if Nat.eqb (ncols x) (length y)
         && Nat.eqb (ncols (hd [] x)) (ncols (hd [] y))
         && Nat.eqb (ncols (hd [] (hd [] x))) (ncols (hd [] (hd [] y)))
      then Ok (contract_fib mdot x y) else Raise RuntimeError
  | _, _ => Raise RuntimeError
  end.

(** [a @ b] for the operands the file multiplies: two matrices. *)
Definition matmul_t (a : mat) (b : tensor) : result mat :=
  match b with
  | T2 y => torch_matmul a y
  | _ => Raise RuntimeError
  end.

(* ================================================================= *)
(** ** Tensor permutation algebra: [perm_rows], [perm_cols] *)

Definition perm_rows (x : tensor) (perm : mat) : result tensor :=
  _ <- py_assert (Nat.eqb (hd 0%nat (shape x)) (nrows perm)) ;;
  _ <- py_assert (Nat.eqb (nrows perm) (ncols perm)) ;;
  Ok (match x with
      | T1 v => T1 (mv_raw perm v)
      | T2 m => T2 (matmul_raw perm m)
      | T3 t => T3 (perm_rows_fib vadd vscale [] perm t)
      | T4 t => T4 (perm_rows_fib madd_raw mscale [] perm t)
      end).

Definition perm_cols (x : tensor) (perm : mat) : result tensor :=
  n1 <- shape_at x 1 ;;
  _ <- py_assert (Nat.eqb n1 (nrows perm)) ;;
  _ <- py_assert (Nat.eqb (nrows perm) (ncols perm)) ;;
  x' <- transpose10 x ;;
  let perm' := transpose perm in
  permuted_x <- perm_rows x' perm' ;;
  transpose10 permuted_x.

(* ================================================================= *)
(** ** Similarity objective and its gradients *)

(** The comparison of [torch.allclose] / [==] against a 2-D product. *)
Definition assert_close2 (rtol atol : Q) (x : tensor) (expected : result mat)
  : result unit :=
  e <- expected ;;
  match x with
  | T2 m => py_assert (allclose rtol atol m e)
  | _ => Raise RuntimeError
  end.

Definition compute_layer_similarity (Wa Wb : tensor) (P_curr : mat)
  (P_prev : option mat) (debug : bool) : result Q :=
  Wb_perm <- perm_rows Wb P_curr ;;
  _ <- (if Nat.eqb (dim Wb) 2 && debug
        then assert_close2 1e-5 1e-8 Wb_perm (matmul_t P_curr Wb)
        else Ok tt) ;;
  Wb_perm <- match P_prev with
             | Some P =>
                 Wb_perm' <- perm_cols Wb_perm (transpose P) ;;
                 _ <- (if Nat.eqb (dim Wb) 2 && debug
                       then assert_close2 1e-5 1e-8 Wb_perm'
                              (pw <- matmul_t P_curr Wb ;;
                               torch_matmul pw (transpose P))
                       else Ok tt) ;;
                 Ok Wb_perm'
             | None => Ok Wb_perm
             end ;;
  match Wa with
  | T1 a =>
      (* [Wa.T @ Wb_perm]: a number only against a vector of one length *)
      match Wb_perm with
      | T1 b => if Nat.eqb (length a) (length b) then Ok (dot a b)
                else Raise RuntimeError
      | _ => Raise RuntimeError
      end
  | T2 a => p <- matmul_t (transpose a) Wb_perm ;; Ok (trace p)
  | T3 _ => Wat <- transpose10 Wa ;; p <- einsum3 Wat Wb_perm ;; Ok (trace p)
  | T4 _ => Wat <- transpose10 Wa ;; p <- einsum4 Wat Wb_perm ;; Ok (trace p)
  end.

Definition compute_gradient_P_curr (Wa Wb : tensor) (P_prev : option mat)
  : result mat :=
  P_prev <- match P_prev with
            | Some P => Ok P
            | None => n <- shape_at Wb 1 ;; Ok (eye n)
            end ;;
  _ <- py_assert (shape_eqb (shape Wa) (shape Wb)) ;;
  n1 <- shape_at Wb 1 ;;
  _ <- py_assert (Nat.eqb (nrows P_prev) n1) ;;
  Wbt <- transpose10 Wb ;;
  Wb_perm <- perm_rows Wbt P_prev ;;
  _ <- (if Nat.eqb (dim Wb) 2
        then assert_close2 1e-5 1e-6 Wb_perm (matmul_t P_prev Wbt)
        else Ok tt) ;;
  match Wa with
  | T2 a => matmul_t a Wb_perm
  | T3 _ => einsum3 Wa Wb_perm
  | _ => einsum4 Wa Wb_perm
  end.

Definition assert_equal2 (x : tensor) (expected : result mat) : result unit :=
  e <- expected ;;
  match x with
  | T2 m => py_assert (mat_eqb m e)
  | _ => Raise RuntimeError
  end.

Definition compute_gradient_P_prev (Wa Wb : tensor) (P_curr : mat)
  : result mat :=
  _ <- py_assert (Nat.eqb (nrows P_curr) (hd 0%nat (shape Wb))) ;;
  Wb_perm <- perm_rows Wb P_curr ;;
  _ <- (if Nat.eqb (dim Wb) 2
        then assert_equal2 Wb_perm (matmul_t P_curr Wb)
        else Ok tt) ;;
  match Wa with
  | T2 a => matmul_t (transpose a) Wb_perm
  | T3 _ => Wat <- transpose10 Wa ;; einsum3 Wat Wb_perm
  | _ => Wat <- transpose10 Wa ;; einsum4 Wat Wb_perm
  end.

(* ================================================================= *)
(** ** Parameter sets, permutation matrices, topology *)

Definition ModelParams : Type := Dict.t tensor.
Abbreviation PermutationMatrix := (list (list Q)) (only parsing).
Abbreviation PermutationIndices := (list nat) (only parsing).

Record PermutationSpec : Type := mkPermutationSpec {
  perm_to_layers_and_axes : Dict.t (list (string * nat));
  layer_and_axes_to_perm : Dict.t (list (option string))
}.

(** The two operands of a layer, as both loops of the file prepare them:
    membership asserts, then [unsqueeze(1)] of both when [Wa] is a vector. *)
Definition layer_operands (params_a params_b : ModelParams) (layer : string)
  : result (tensor * tensor) :=
  _ <- py_assert (Dict.mem layer params_a) ;;
  _ <- py_assert (Dict.mem layer params_b) ;;
  Wa <- Dict.getitem layer params_a ;;
  Wb <- Dict.getitem layer params_b ;;
  if Nat.eqb (dim Wa) 1
  then Wa' <- unsqueeze1 Wa ;; Wb' <- unsqueeze1 Wb ;; Ok (Wa', Wb')
  else Ok (Wa, Wb).

(** [axes_and_perms[0]] and [axes_and_perms[1] if len(axes_and_perms) > 1 else None]. *)
Definition row_perm_id_of (axes_and_perms : list (option string))
  : result (option string) :=
  match axes_and_perms with
  | [] => Raise IndexError
  | r :: _ => Ok r
  end.

Definition col_perm_id_of (axes_and_perms : list (option string)) : option string :=
  match axes_and_perms with
  | _ :: c :: _ => c
  | _ => None
  end.

(** [perm_matrices[id] if id is not None else torch.eye(n)], after the assert
    that a named permutation is a key of [perm_matrices]. *)
Definition perm_or_eye (perm_matrices : Dict.t PermutationMatrix)
  (id : option string) (n : result nat) : result mat :=
  match id with
  | None => k <- n ;; Ok (eye k)
  | Some p =>
      _ <- py_assert (Dict.mem p perm_matrices) ;;
      Dict.getitem p perm_matrices
  end.

Definition layer_perms (perm_matrices : Dict.t PermutationMatrix) (Wa : tensor)
  (axes_and_perms : list (option string))
  : result (option string * mat * option string * mat) :=
  row_perm_id <- row_perm_id_of axes_and_perms ;;
  row_perm <- perm_or_eye perm_matrices row_perm_id (shape_at Wa 0) ;;
  let col_perm_id := col_perm_id_of axes_and_perms in
  col_perm <- perm_or_eye perm_matrices col_perm_id (shape_at Wa 1) ;;
  Ok (row_perm_id, row_perm, col_perm_id, col_perm).

Definition get_global_obj_layerwise (params_a params_b : ModelParams)
  (perm_matrices : Dict.t PermutationMatrix)
  (layers_and_axes_to_perms : Dict.t (list (option string))) : result Q :=
  for_each
    (fun tot_obj '(layer, axes_and_perms) =>
       '(Wa, Wb) <- layer_operands params_a params_b layer ;;
       '(_, row_perm, _, col_perm) <- layer_perms perm_matrices Wa axes_and_perms ;;
       layer_similarity <- compute_layer_similarity Wa Wb row_perm (Some col_perm) true ;;
       Ok (tot_obj + layer_similarity))
    (Dict.items layers_and_axes_to_perms) 0.

(** Python truthiness of an [Optional[str]]: [None] and the empty string are
    false. *)
Definition truthy (id : option string) : option string :=
  match id with
  | Some EmptyString => None
  | other => other
  end.

(** [gradients[id] += grad] under [if id:]. *)
Definition accumulate (gradients : Dict.t mat) (id : option string) (grad : mat)
  : result (Dict.t mat) :=
  match truthy id with
  | None => Ok gradients
  | Some p =>
      g <- Dict.getitem p gradients ;;
      g' <- madd g grad ;;
      Ok (Dict.set p g' gradients)
  end.

Definition zero_gradients (perm_matrices : Dict.t PermutationMatrix)
  (perm_sizes : Dict.t nat) : result (Dict.t mat) :=
  for_each
    (fun acc p => n <- Dict.getitem p perm_sizes ;; Ok (acc ++ [(p, zeros n n)]))
    (Dict.keys perm_matrices) [].

Definition weight_matching_gradient_fn_layerwise (params_a params_b : ModelParams)
  (perm_matrices : Dict.t PermutationMatrix)
  (layers_and_axes_to_perms : Dict.t (list (option string)))
  (perm_sizes : Dict.t nat) : result (Dict.t mat) :=
  gradients <- zero_gradients perm_matrices perm_sizes ;;
  for_each
    (fun gradients '(layer, axes_and_perms) =>
       '(Wa, Wb) <- layer_operands params_a params_b layer ;;
       '(row_perm_id, row_perm, col_perm_id, col_perm)
          <- layer_perms perm_matrices Wa axes_and_perms ;;
       grad_P_curr <- compute_gradient_P_curr Wa Wb (Some col_perm) ;;
       grad_P_prev <- compute_gradient_P_prev Wa Wb row_perm ;;
       gradients <- accumulate gradients row_perm_id grad_P_curr ;;
       accumulate gradients col_perm_id grad_P_prev)
    (Dict.items layers_and_axes_to_perms) gradients.

(* ================================================================= *)
(** ** Interpolation and update *)

(** [perm_name in {"P_final", "P_4"}]. *)
Definition is_fixed (perm_name : string) : bool :=
  String.eqb perm_name "P_final" || String.eqb perm_name "P_4".

(** [(1 - t) * perm + t * proj_grad]. *)
Definition interpolate (t : Q) (perm proj_grad : mat) : result mat :=
  madd (mscale (1 - t) perm) (mscale t proj_grad).

Definition update_perm_matrices (perm_matrices proj_grads : Dict.t mat)
  (step_size : Q) : result (Dict.t mat) :=
  for_each
    (fun new_perm_matrices '(perm_name, perm) =>
       if is_fixed perm_name
       then Ok (Dict.set perm_name perm new_perm_matrices)
       else
         proj_grad <- Dict.getitem perm_name proj_grads ;;
         new_P_curr_interp <- interpolate step_size perm proj_grad ;;
         Ok (Dict.set perm_name new_P_curr_interp new_perm_matrices))
    (Dict.items perm_matrices) Dict.empty.

(** The first loop of [line_search_step]: the dictionary [interpolated_perms]. *)
Definition interpolate_perms (t : Q) (proj_grads perm_matrices : Dict.t mat)
  : result (Dict.t mat) :=
  for_each
    (fun interpolated_perms '(perm_name, perm) =>
       proj_grad <- Dict.getitem perm_name proj_grads ;;
       if is_fixed perm_name
       then Ok (Dict.set perm_name perm interpolated_perms)
       else
         p <- interpolate t perm proj_grad ;;
         Ok (Dict.set perm_name p interpolated_perms))
    (Dict.items perm_matrices) Dict.empty.

Definition line_search_step (t : Q) (params_a params_b : ModelParams)
  (proj_grads perm_matrices : Dict.t mat)
  (layers_and_axes_to_perms : Dict.t (list (option string))) : result Q :=
  interpolated_perms <- interpolate_perms t proj_grads perm_matrices ;;
  tot_obj <- get_global_obj_layerwise params_a params_b interpolated_perms
               layers_and_axes_to_perms ;;
  Ok (- tot_obj).

(* ================================================================= *)
(** ** Sinkhorn-Knopp *)

Definition sinkhorn_eps : Q := 1e-16.

Definition recip_eps (v : vec) : vec := map (fun x => 1 / (x + sinkhorn_eps)) v.

(** One pass of the loop body up to the convergence test. *)
Definition sinkhorn_pass (matrix : mat) (col_scale : vec)
  : result (mat * vec * vec) :=
  s <- torch_mv matrix col_scale ;;
  let row_scale := recip_eps s in
  matrix <- torch_matmul (diag row_scale) matrix ;;
  s <- torch_mv (transpose matrix) row_scale ;;
  let col_scale := recip_eps s in
  matrix <- torch_matmul matrix (diag col_scale) ;;
  Ok (matrix, row_scale, col_scale).

Definition near_one (tol : Q) (v : vec) : bool :=
  forallb (fun s => Qltb (Qabs (s - 1)) tol) v.

Definition doubly_stochastic_within (tol : Q) (matrix : mat) : bool :=
  near_one tol (col_sums matrix) && near_one tol (row_sums matrix).

Fixpoint sinkhorn_loop (tol : Q) (iterations : nat) (matrix : mat)
  (col_scale : vec) : result mat :=
  match iterations with
  | O => Ok matrix
  | S iterations' =>
      '(matrix', _, col_scale') <- sinkhorn_pass matrix col_scale ;;
      if doubly_stochastic_within tol matrix' then Ok matrix'
      else sinkhorn_loop tol iterations' matrix' col_scale'
  end.

Definition sinkhorn_knopp (matrix : mat) (tol : Q) (max_iterations : nat)
  : result mat :=
  if negb (forallb (forallb (fun x => Qle_bool 0 x)) matrix)
  then Raise (ValueError "Matrix contains negative values.")
  else
    let R := nrows matrix in
    let C := ncols matrix in
    if negb (Nat.eqb R C)
    then Raise (ValueError "Matrix must be square.")
    else
      let total := msum matrix + sinkhorn_eps in
      let matrix := map (map (fun x => x / total)) matrix in
      sinkhorn_loop tol max_iterations matrix (ones C).

Definition sinkhorn_default_tol : Q := 1e-10.
Definition sinkhorn_default_max_iterations : nat := 1000.

(** The routine the specification describes for the same name: rows, then
    columns, are divided by their current sums, and the test and the cap are
    those of the code.  Kept apart from [sinkhorn_knopp] for comparison. *)
Definition spec_rescale_rows (matrix : mat) : mat :=
  map (fun r => map (fun x => x / vsum r) r) matrix.

Definition spec_rescale_cols (matrix : mat) : mat :=
  map (fun r => map2 (fun x s => x / s) r (col_sums matrix)) matrix.

Fixpoint spec_sinkhorn_loop (tol : Q) (iterations : nat) (matrix : mat) : mat :=
  match iterations with
  | O => matrix
  | S iterations' =>
      let matrix' := spec_rescale_cols (spec_rescale_rows matrix) in
      if doubly_stochastic_within tol matrix' then matrix'
      else spec_sinkhorn_loop tol iterations' matrix'
  end.

(* ================================================================= *)
(** ** Hardening: indices and permutation matrices *)

(** Modelled from the spec: the conversion of the assignment solver's index
    array into a 0/1 matrix ([return_matrix=True]) lives in
    [ccmm.matching.utils]; position [i] of the array holds the column of the
    1 of row [i]. *)
Definition perm_indices_to_perm_matrix (indices : PermutationIndices) : mat :=
  map (fun c => map (fun j => if Nat.eqb j c then 1 else 0)
                    (seq 0 (length indices)))
      indices.

(** The Birkhoff polytope, exactly: entries in [0,1], rows and columns of
    sum 1. *)
Definition entries_in_unit (m : mat) : Prop :=
  Forall (Forall (fun x => 0 <= x /\ x <= 1)) m.

Definition sums_to_one (v : vec) : Prop := Forall (fun s => s == 1) v.

Definition birkhoff (n : nat) (m : mat) : Prop :=
  wf_mat n n m /\ entries_in_unit m
  /\ sums_to_one (row_sums m) /\ sums_to_one (col_sums m).

(** The same with the tolerance of the specification. *)
Definition sums_within (tol : Q) (v : vec) : Prop :=
  Forall (fun s => Qabs (s - 1) <= tol) v.

Definition birkhoff_within (tol : Q) (m : mat) : Prop :=
  entries_in_unit m
  /\ sums_within tol (row_sums m) /\ sums_within tol (col_sums m).

(** A matrix of size [n] within [tol] of the polytope. *)
Definition near_birkhoff (n : nat) (tol : Q) (m : mat) : Prop :=
  wf_mat n n m /\ birkhoff_within tol m.

Definition is_permutation_indices (n : nat) (indices : PermutationIndices) : Prop :=
  Permutation indices (seq 0 n).

(** Every gradient of a dictionary has as many rows as [perm_sizes] says. *)
Definition sized_by (perm_sizes : Dict.t nat) (gradients : Dict.t mat) : Prop :=
  forall p g, Dict.get p gradients = Some g ->
              exists n, Dict.get p perm_sizes = Some n /\ length g = n.

(** Every matrix of a dictionary is, for the size [perm_sizes] gives its
    name, within [tol] of the polytope. *)
Definition all_near_birkhoff (perm_sizes : Dict.t nat) (tol : Q)
  (perm_matrices : Dict.t PermutationMatrix) : Prop :=
  forall p m, Dict.get p perm_matrices = Some m ->
              exists n, Dict.get p perm_sizes = Some n /\ near_birkhoff n tol m.

(* ================================================================= *)
(** ** Initializer, trial loop, multi-trial driver *)

Record trial_state : Type := mkTrialState {
  ts_perm_matrices : Dict.t PermutationMatrix;
  ts_history : list (Dict.t PermutationMatrix);
  ts_old_obj : Q;
  ts_patience_steps : nat;
  ts_new_obj : option Q
}.

(** The convergence test of one iteration: the new patience counter and
    [old_obj]. *)
Definition patience_update (new_obj old_obj : Q) (patience_steps : nat)
  : nat * Q :=
  if Qltb (new_obj - old_obj) 1e-6 then (S patience_steps, old_obj)
  else (O, new_obj).

(** The [for iteration in range(max_iter)] loop around a body that returns
    the updated matrices and their objective. *)
Fixpoint trial_loop (body : Dict.t PermutationMatrix
                            -> result (Dict.t PermutationMatrix * Q))
  (iterations : nat) (st : trial_state) : result trial_state :=
  match iterations with
  | O => Ok st
  | S iterations' =>
      '(perm_matrices, new_obj) <- body (ts_perm_matrices st) ;;
      let '(patience_steps, old_obj) :=
        patience_update new_obj (ts_old_obj st) (ts_patience_steps st) in
      if Nat.leb 15 patience_steps
      then Ok (mkTrialState perm_matrices (ts_history st) old_obj
                 patience_steps (Some new_obj))
      else trial_loop body iterations'
             (mkTrialState perm_matrices (ts_history st ++ [perm_matrices])
                old_obj patience_steps (Some new_obj))
  end.

Definition default_max_iter : nat := 100.
Definition default_num_trials : nat := 3.

(** [perm_sizes] as the driver fills it. *)
Definition compute_perm_sizes (perm_to_layers : Dict.t (list (string * nat)))
  (params_a : ModelParams) : result (Dict.t nat) :=
  for_each
    (fun perm_sizes '(perm_name, params_and_axes) =>
       match params_and_axes with
       | [] => Raise IndexError
       | (relevant_params, relevant_axis) :: _ =>
           W <- Dict.getitem relevant_params params_a ;;
           n <- shape_at W relevant_axis ;;
           Ok (Dict.set perm_name n perm_sizes)
       end)
    (Dict.items perm_to_layers) Dict.empty.

(** The driver's first statement: [ps.perm_to_layers_and_axes["P_final"] = ...]. *)
Definition add_final_perm (ps : PermutationSpec) : PermutationSpec :=
  mkPermutationSpec
    (Dict.set "P_final" [("linear.weight", 0%nat)] (perm_to_layers_and_axes ps))
    (layer_and_axes_to_perm ps).

Definition trial_result : Type :=
  (Dict.t PermutationMatrix * list (Dict.t PermutationMatrix) * Q)%type.

(** The body of the driver's loop after the trial has returned: keep the
    trial under [trial_obj > best_obj]. *)
Definition keep_best (acc : Q * option (Dict.t PermutationMatrix
                                       * list (Dict.t PermutationMatrix)))
  (r : trial_result) :=
  let '(best_obj, best) := acc in
  let '(perm_matrices, perm_matrices_history, trial_obj) := r in
  if Qgtb trial_obj best_obj
  then (trial_obj, Some (perm_matrices, perm_matrices_history))
  else (best_obj, best).

Section Collaborators.

(** State of the global random generators; [torch.rand(n, m)] from a state;
    the state [seed_everything(seed)] leaves; the seeds
    [np.random.randint(low, high, size)] draws. *)
Variable rng : Type.
Variable torch_rand : nat -> nat -> rng -> mat * rng.
Variable seed_everything : Z -> rng.
Variable np_random_randint : Z -> Z -> nat -> list Z.

(** [solve_linear_assignment_problem] of [ccmm.matching.weight_matching]
    (index form) and [scipy.optimize.fminbound]. *)
Variable solve_linear_assignment_problem : mat -> PermutationIndices.
Variable fminbound : (Q -> result Q) -> Q -> Q -> result Q.

(** [{p: post(torch.rand(n, n)) for p, n in perm_sizes.items()}]: the draws
    follow the order of the dictionary. *)
Definition random_perm_matrices (post : mat -> result mat)
  (perm_sizes : Dict.t nat) (g : rng)
  : result (Dict.t PermutationMatrix * rng) :=
  for_each
    (fun '(acc, g) '(p, n) =>
       let '(m, g') := torch_rand n n g in
       m' <- post m ;;
       Ok (acc ++ [(p, m')], g'))
    (Dict.items perm_sizes) ([], g).

Definition initialize_perm_matrices (perm_sizes : Dict.t nat)
  (initialization_method : string) (g : rng)
  : result (Dict.t PermutationMatrix * rng) :=
  if String.eqb initialization_method "identity"
  then Ok (map (fun '(p, n) => (p, eye n)) (Dict.items perm_sizes), g)
  else if String.eqb initialization_method "random"
  then random_perm_matrices (fun m => Ok m) perm_sizes g
  else if String.eqb initialization_method "sinkhorn"
  then random_perm_matrices
         (fun m => sinkhorn_knopp m sinkhorn_default_tol
                     sinkhorn_default_max_iterations)
         perm_sizes g
  else Raise (ValueError ("Unknown initialization method " ++ initialization_method)).

Definition project_gradients (gradients : Dict.t mat) : Dict.t mat :=
  map (fun '(perm_name, grad) =>
         (perm_name,
          perm_indices_to_perm_matrix (solve_linear_assignment_problem grad)))
      (Dict.items gradients).

(** One pass of the body of the trial loop, up to the new objective. *)
Definition trial_iteration (params_a params_b : ModelParams)
  (perm_sizes : Dict.t nat) (perm_spec : PermutationSpec)
  (perm_matrices : Dict.t PermutationMatrix)
  : result (Dict.t PermutationMatrix * Q) :=
  gradients <- weight_matching_gradient_fn_layerwise params_a params_b
                 perm_matrices (layer_and_axes_to_perm perm_spec) perm_sizes ;;
  let proj_grads := project_gradients gradients in
  step_size <- fminbound
                 (fun t => line_search_step t params_a params_b proj_grads
                             perm_matrices (layer_and_axes_to_perm perm_spec))
                 0 1 ;;
  perm_matrices' <- update_perm_matrices perm_matrices proj_grads step_size ;;
  new_obj <- get_global_obj_layerwise params_a params_b perm_matrices'
               (layer_and_axes_to_perm perm_spec) ;;
  Ok (perm_matrices', new_obj).

(** The states the loop passes through, from initialization on. *)
Definition trial_states (params_a params_b : ModelParams)
  (perm_sizes : Dict.t nat) (initialization_method : string)
  (perm_spec : PermutationSpec) (max_iter : nat) (g : rng)
  : result trial_state :=
  '(perm_matrices, _) <- initialize_perm_matrices perm_sizes initialization_method g ;;
  trial_loop (trial_iteration params_a params_b perm_sizes perm_spec) max_iter
    (mkTrialState perm_matrices [perm_matrices] 0 0 None).

Definition frank_wolfe_weight_matching_trial (params_a params_b : ModelParams)
  (perm_sizes : Dict.t nat) (initialization_method : string)
  (perm_spec : PermutationSpec) (max_iter : nat) (g : rng)
  : result trial_result :=
  st <- trial_states params_a params_b perm_sizes initialization_method
          perm_spec max_iter g ;;
  match ts_new_obj st with
  | Some new_obj => Ok (ts_perm_matrices st, ts_history st, new_obj)
  | None => Raise (UnboundLocalError "new_obj")
  end.

Definition frank_wolfe_weight_matching (ps : PermutationSpec)
  (fixed permutee : ModelParams) (initialization_method : string)
  (max_iter : nat) (return_perm_history : bool) (num_trials : nat)
  : PermutationSpec
    * result (Dict.t PermutationIndices * option (list (Dict.t PermutationMatrix))) :=
  let params_a := fixed in
  let params_b := permutee in
  let ps := add_final_perm ps in
  (ps,
   perm_sizes <- compute_perm_sizes (perm_to_layers_and_axes ps) params_a ;;
   let seeds := np_random_randint 0 1000 num_trials in
   acc <- for_each
            (fun acc seed =>
               let g := seed_everything seed in
               r <- frank_wolfe_weight_matching_trial params_a params_b
                      perm_sizes initialization_method ps max_iter g ;;
               Ok (keep_best acc r))
            seeds (0, None) ;;
   match snd acc with
   | None => Raise (UnboundLocalError "best_perm_matrices")
   | Some (best_perm_matrices, best_perm_matrices_history) =>
       let all_perm_indices :=
         map (fun '(p, perm) => (p, solve_linear_assignment_problem perm))
             (Dict.items best_perm_matrices) in
       Ok (all_perm_indices,
           if return_perm_history then Some best_perm_matrices_history else None)
   end).

End Collaborators.

(* ================================================================= *)
(** ** Statements of the specification, as predicates *)

(** The row term as the specification writes it:
    [Wa . (applyAlongRow(Wb^T, q))^T]. *)
Definition spec_grad_row_term (Wa Wb q : mat) : mat :=
  matmul_raw Wa (transpose (matmul_raw q (transpose Wb))).

(** The row term as the code computes it, [Wa @ (q @ Wb.T)], and the
    permuted operand [Wb_perm] of the rank-2 similarity,
    [perm_cols(perm_rows(Wb, P), q.T)]. *)
Definition grad_row_term (Wa Wb q : mat) : mat :=
  matmul_raw Wa (matmul_raw q (transpose Wb)).

Definition permuted_rank2 (Wb P q : mat) : mat :=
  transpose (matmul_raw (transpose (transpose q)) (transpose (matmul_raw P Wb))).

(** The Frobenius inner product [<a, b>]. *)
Definition frobenius (a b : mat) : Q := vsum (map2 dot a b).

(** Entry [(i, j)] of a matrix, and the sum of [f 0 .. f (n - 1)]. *)
Definition entry (m : mat) (i j : nat) : Q := nth j (nth i m []) 0.

Fixpoint bigsum (n : nat) (f : nat -> Q) : Q :=
  match n with
  | O => 0
  | S k => bigsum k f + f k
  end.

(** The patience rule with the objective of the previous iteration as the
    reference, between the states after two consecutive iterations. *)
Definition spec_patience_rule (prev next : trial_state) : Prop :=
  forall o_prev o_new,
    ts_new_obj prev = Some o_prev ->
    ts_new_obj next = Some o_new ->
    if Qltb (o_new - o_prev) 1e-6
    then ts_patience_steps next = S (ts_patience_steps prev)
    else ts_patience_steps next = O /\ ts_old_obj next = o_new.

(** The first result of a list of trials whose objective is maximal. *)
Fixpoint first_argmax (rs : list trial_result) : option trial_result :=
  match rs with
  | [] => None
  | r :: rs' =>
      match first_argmax rs' with
      | Some r' => if Qltb (snd r) (snd r') then Some r' else Some r
      | None => Some r
      end
  end.

(** The contributions of the layers to the gradient of [p], in the order of
    the loop: the row term where [p] is the row permutation, then the column
    term where it is the column permutation. *)
Definition contribution (p : string) (id : option string) (grad : mat)
  : list mat :=
  match id with
  | Some q => if String.eqb p q then [grad] else []
  | None => []
  end.

Definition layer_contributions (params_a params_b : ModelParams)
  (perm_matrices : Dict.t PermutationMatrix) (p : string)
  (entry : string * list (option string)) : result (list mat) :=
  let '(layer, axes_and_perms) := entry in
  '(Wa, Wb) <- layer_operands params_a params_b layer ;;
  '(row_perm_id, row_perm, col_perm_id, col_perm)
     <- layer_perms perm_matrices Wa axes_and_perms ;;
  grad_P_curr <- compute_gradient_P_curr Wa Wb (Some col_perm) ;;
  grad_P_prev <- compute_gradient_P_prev Wa Wb row_perm ;;
  Ok (contribution p row_perm_id grad_P_curr
      ++ contribution p col_perm_id grad_P_prev).


(** A matrix with a negative entry. *)
Definition has_negative (matrix : mat) : Prop :=
  Exists (Exists (fun x => x < 0)) matrix.

(* ================================================================= *)
(** ** Executable collaborators and instances *)

Module Concrete.

(** A generator state is a counter; a draw is a fixed pattern of tenths in
    [0, 1). *)
Definition rng : Type := nat.

Definition rand_entry (g i j : nat) : Q :=
  inject_Z (Z.of_nat ((1 + 3 * g + 6 * i + 7 * j) mod 10)) / 10.

Definition torch_rand (n m : nat) (g : rng) : mat * rng :=
  (map (fun i => map (fun j => rand_entry g i j) (seq 0 m)) (seq 0 n), S g).

Definition seed_everything (seed : Z) : rng := Z.to_nat seed.

Definition np_random_randint (low high : Z) (size : nat) : list Z :=
  map (fun k => (low + Z.of_nat k mod (high - low))%Z) (seq 0 size).

(** Modelled from the spec: the assignment projector returns the permutation
    that maximizes the inner product with the score matrix; here by
    enumeration, the first maximum winning. *)
Fixpoint insert_everywhere {A : Type} (x : A) (l : list A) : list (list A) :=
  match l with
  | [] => [[x]]
  | y :: l' => (x :: l) :: map (cons y) (insert_everywhere x l')
  end.

Fixpoint perms {A : Type} (l : list A) : list (list A) :=
  match l with
  | [] => [[]]
  | x :: l' => flat_map (insert_everywhere x) (perms l')
  end.

Definition assignment_score (G : mat) (indices : list nat) : Q :=
  vsum (map2 (fun r c => nth c r 0) G indices).

Definition solve_linear_assignment_problem (G : mat) : PermutationIndices :=
  let cands := perms (seq 0 (length G)) in
  fold_left
    (fun best c =>
       if Qgtb (assignment_score G c) (assignment_score G best) then c else best)
    (tl cands) (hd [] cands).

(** A bounded line search on a grid of quarters, the first minimum winning. *)
Definition grid (lo hi : Q) : list Q :=
  [lo + (hi - lo) * (1 # 4); lo + (hi - lo) * (1 # 2);
   lo + (hi - lo) * (3 # 4); hi].

Definition fminbound (f : Q -> result Q) (lo hi : Q) : result Q :=
  for_each
    (fun best t =>
       v <- f t ;;
       vb <- f best ;;
       Ok (if Qltb v vb then t else best))
    (grid lo hi) lo.

(** A bounded line search that answers within its tolerance [1e-5] of the
    upper bound (where the linear objective of [creep_*] below is maximal):
    [hi - 1.000005e-6] from a start of objective 0, [hi - 1e-5] afterwards. *)
Definition fminbound_near_upper (f : Q -> result Q) (lo hi : Q) : result Q :=
  v0 <- f lo ;;
  if Qeq_bool v0 0 then Ok (hi - 1.000005e-6) else Ok (hi - 1e-5).

(** *** A single shared vector and one permutation of size 2 *)
Definition creep_params_a : ModelParams := [("w", T1 [1; 0])].
Definition creep_params_b : ModelParams := [("w", T1 [0; 1])].
Definition creep_spec : PermutationSpec :=
  mkPermutationSpec [("P_0", [("w", 0%nat)])] [("w", [Some "P_0"])].
Definition creep_sizes : Dict.t nat := [("P_0", 2%nat)].

Definition creep_states (max_iter : nat) : result trial_state :=
  trial_states torch_rand solve_linear_assignment_problem fminbound_near_upper
    creep_params_a creep_params_b creep_sizes "identity" creep_spec max_iter
    O.

(** *** A one-layer network whose only permutation is the output one *)
Definition out_spec : PermutationSpec :=
  mkPermutationSpec [] [("linear.weight", [Some "P_final"])].
Definition out_params : ModelParams := [("linear.weight", T2 [[1; 0]; [0; 1]])].

(** The same layer with the sign of the permutee flipped: every objective is
    negative. *)
Definition neg_params_a : ModelParams := [("linear.weight", T2 [[1]])].
Definition neg_params_b : ModelParams := [("linear.weight", T2 [[-1]])].

(** *** A hidden layer followed by the output layer *)
Definition mlp_spec : PermutationSpec :=
  mkPermutationSpec
    [("P_0", [("layer0.weight", 0%nat); ("layer0.bias", 0%nat);
              ("linear.weight", 1%nat)])]
    [("layer0.weight", [Some "P_0"; None]);
     ("layer0.bias", [Some "P_0"]);
     ("linear.weight", [Some "P_final"; Some "P_0"])].

Definition mlp_params_a : ModelParams :=
  [("layer0.weight", T2 [[1; 2]; [3; 5]]);
   ("layer0.bias", T1 [1; -1]);
   ("linear.weight", T2 [[2; 1]])].

(** The hidden units of [mlp_params_a], swapped. *)
Definition mlp_params_b : ModelParams :=
  [("layer0.weight", T2 [[3; 5]; [1; 2]]);
   ("layer0.bias", T1 [-1; 1]);
   ("linear.weight", T2 [[1; 2]])].

Definition mlp_sizes : Dict.t nat := [("P_0", 2%nat); ("P_final", 1%nat)].

(** *** A topology whose permutation carries the empty name *)
Definition anon_layers : Dict.t (list (option string)) := [("w", [Some ""])].
Definition anon_params : ModelParams := [("w", T1 [1])].
Definition anon_perms : Dict.t PermutationMatrix := [("", [[1]])].
Definition anon_sizes : Dict.t nat := [("", 1%nat)].

(** *** A topology that already holds the entry the driver writes *)
Definition seen_spec : PermutationSpec :=
  mkPermutationSpec [("P_final", [("linear.weight", 0%nat)])]
    [("linear.weight", [Some "P_final"])].

Definition run_driver (ps : PermutationSpec) (fixed permutee : ModelParams)
  (initialization_method : string) (max_iter : nat)
  (return_perm_history : bool) (num_trials : nat) :=
  frank_wolfe_weight_matching torch_rand seed_everything np_random_randint
    solve_linear_assignment_problem fminbound ps fixed permutee
    initialization_method max_iter return_perm_history num_trials.

End Concrete.

(* ================================================================= *)
(** ** The per-permutation variants of the gradient and the objective *)

(** [[tup[0] if tup[1] == 1 else None for tup in perm_to_axes[other_perm_name]]]. *)
Definition params_perm_by_other_p (params_and_axes : list (string * nat))
  : list (option string) :=
  map (fun tup => if Nat.eqb (snd tup) 1 then Some (fst tup) else None)
      params_and_axes.

(** [params_name in l] for a list of names and [None]s. *)
Definition name_in (params_name : string) (l : list (option string)) : bool :=
  existsb (fun o => match o with
                    | Some s => String.eqb params_name s
                    | None => false
                    end) l.

(** The pair [(P_prev_name, P_prev)]; the loop has no [break], so a later
    match replaces an earlier one. *)
Definition get_prev_permutation (params_name : string)
  (perm_to_axes : Dict.t (list (string * nat)))
  (perm_matrices : Dict.t PermutationMatrix)
  : result (option string * option mat) :=
  for_each
    (fun '(P_prev_name, P_prev) '(other_perm_name, other_perm) =>
       params_and_axes <- Dict.getitem other_perm_name perm_to_axes ;;
       if name_in params_name (params_perm_by_other_p params_and_axes)
       then Ok (Some other_perm_name, Some other_perm)
       else Ok (P_prev_name, P_prev))
    (Dict.items perm_matrices) (None, None).

Definition is_last_layer (params_and_axes : list (string * nat)) : bool :=
  Nat.eqb (length params_and_axes) 1.

(** [gradients[name] += grad]. *)
Definition add_gradient (gradients : Dict.t mat) (name : string) (grad : mat)
  : result (Dict.t mat) :=
  g <- Dict.getitem name gradients ;;
  g' <- madd g grad ;;
  Ok (Dict.set name g' gradients).

(** [weight_matching_gradient_fn] returns nothing and updates [gradients] in
    place: the result is the dictionary the caller holds after the call.  The
    assert [Wa.shape == Wa.shape] compares a shape with itself and is left
    out. *)
Definition weight_matching_gradient_fn (params_a params_b : ModelParams)
  (P_curr : mat) (P_curr_name : string)
  (perm_to_axes : Dict.t (list (string * nat)))
  (perm_matrices : Dict.t PermutationMatrix) (gradients : Dict.t mat)
  : result (Dict.t mat) :=
  params_and_axes <- Dict.getitem P_curr_name perm_to_axes ;;
  for_each
    (fun gradients '(params_name, axis) =>
       if Nat.eqb axis 0
       then
         Wa <- Dict.getitem params_name params_a ;;
         Wb <- Dict.getitem params_name params_b ;;
         '(Wa, Wb) <- (if Nat.eqb (dim Wa) 1
                       then Wa' <- unsqueeze1 Wa ;;
                            Wb' <- unsqueeze1 Wb ;;
                            Ok (Wa', Wb')
                       else Ok (Wa, Wb)) ;;
         '(P_prev_name, P_prev)
            <- get_prev_permutation params_name perm_to_axes perm_matrices ;;
         gradients <- (if negb (is_last_layer params_and_axes)
                       then grad_P_curr <- compute_gradient_P_curr Wa Wb P_prev ;;
                            add_gradient gradients P_curr_name grad_P_curr
                       else Ok gradients) ;;
         match P_prev_name with
         | Some name =>
             grad_P_prev <- compute_gradient_P_prev Wa Wb P_curr ;;
             add_gradient gradients name grad_P_prev
         | None => Ok gradients
         end
       else Ok gradients)
    params_and_axes gradients.

Definition compute_single_perm_obj_function (params_a params_b : ModelParams)
  (P_curr : mat) (P_curr_name : string)
  (perm_to_axes : Dict.t (list (string * nat)))
  (perm_matrices : Dict.t PermutationMatrix) (debug : bool) : result Q :=
  params_and_axes <- Dict.getitem P_curr_name perm_to_axes ;;
  for_each
    (fun obj '(params_name, axis) =>
       if Nat.eqb axis 0
       then
         Wa <- Dict.getitem params_name params_a ;;
         Wb <- Dict.getitem params_name params_b ;;
         '(_, P_prev)
            <- get_prev_permutation params_name perm_to_axes perm_matrices ;;
         layer_similarity <- compute_layer_similarity Wa Wb P_curr P_prev debug ;;
         Ok (obj + layer_similarity)
       else Ok obj)
    params_and_axes 0.

(* ================================================================= *)
(** ** Predicates of the further properties *)

(** A matrix without a negative entry. *)
Definition nonneg_mat (m : mat) : Prop := Forall (Forall (fun x => 0 <= x)) m.

(** A name acts on axis 1 of a parameter, by the topology. *)
Definition permutes_columns (perm_to_axes : Dict.t (list (string * nat)))
  (perm_name params_name : string) : Prop :=
  exists params_and_axes,
    Dict.get perm_name perm_to_axes = Some params_and_axes
    /\ In (params_name, 1%nat) params_and_axes.

(** [x[:, :, k]] of a rank-3 tensor and [x[:, :, k, m]] of a rank-4 tensor. *)
Definition slice3 (k : nat) (t : list (list (list Q))) : mat :=
  map (map (fun fiber => nth k fiber 0)) t.

Definition slice4 (k m : nat) (t : list (list (list (list Q)))) : mat :=
  map (map (fun fiber => nth m (nth k fiber []) 0)) t.

(** Every fiber of a rank-3 tensor has [d] entries; every fiber of a rank-4
    tensor is a [d1 x d2] matrix. *)
Definition fibers3 (d : nat) (t : list (list (list Q))) : Prop :=
  Forall (Forall (fun fiber => length fiber = d)) t.

Definition fibers4 (d1 d2 : nat) (t : list (list (list (list Q)))) : Prop :=
  Forall (Forall (fun fiber => wf_mat d1 d2 fiber)) t.

(** A rank-3 tensor of shape [(d0, d1, d)]. *)
Definition wf_tensor3 (d0 d1 d : nat) (t : list (list (list Q))) : Prop :=
  length t = d0 /\ Forall (fun row => length row = d1) t /\ fibers3 d t.

(* ================================================================= *)
(** * Properties *)

(** ** The error monad and loops *)

Lemma bind_ok_inv (A B : Type) (r : result A) (k : A -> result B) (b : B) :
  bind r k = Ok b -> exists a, r = Ok a /\ k a = Ok b.
Proof.
  destruct r as [a | e]; simpl; intros H; [eauto | discriminate].
Qed.

Ltac inv_bind H :=
  let a := fresh "a" in
  let Ha := fresh "Ha" in
  apply bind_ok_inv in H; destruct H as (a & Ha & H).

Lemma py_assert_ok_inv (b : bool) (u : unit) : py_assert b = Ok u -> b = true.
Proof. destruct b; simpl; [reflexivity | discriminate]. Qed.

(** A property kept by every pass of the body holds after the loop. *)
Lemma for_each_invariant (A S : Type) (P : S -> Prop)
  (body : S -> A -> result S) (l : list A) :
  (forall s a s', In a l -> P s -> body s a = Ok s' -> P s') ->
  forall s s', P s -> for_each body l s = Ok s' -> P s'.
Proof.
  induction l as [| a l IH]; simpl; intros Hstep s s' Hs H.
  - injection H as <-. exact Hs.
  - inv_bind H. apply (IH (fun s0 a0 s1 Hin => Hstep s0 a0 s1 (or_intror Hin)) a0 s').
    + apply (Hstep s a a0); auto.
    + exact H.
Qed.

(** A body that never raises gives a loop that never raises. *)
Lemma for_each_total (A S : Type) (P : S -> Prop)
  (body : S -> A -> result S) (l : list A) :
  (forall s a, In a l -> P s -> exists s', body s a = Ok s' /\ P s') ->
  forall s, P s -> exists s', for_each body l s = Ok s' /\ P s'.
Proof.
  induction l as [| a l IH]; simpl; intros Hstep s Hs.
  - eauto.
  - destruct (Hstep s a (or_introl eq_refl) Hs) as (s1 & -> & Hs1). simpl.
    apply IH; auto.
Qed.

(** ** Shapes *)

Lemma wf_mat_square_ncols (n : nat) (m : mat) : wf_mat n n m -> ncols m = n.
Proof.
  intros [Hlen Hrows]. destruct m as [| r m]; simpl in *.
  - exact Hlen.
  - inversion Hrows; assumption.
Qed.

Lemma wf_mat_ncols (r c : nat) (m : mat) :
  wf_mat r c m -> r <> O -> ncols m = c.
Proof.
  intros [Hlen Hrows] Hr. destruct m as [| row m]; simpl in *.
  - congruence.
  - inversion Hrows; assumption.
Qed.

Lemma rect_wf_mat (m : mat) : rect m -> wf_mat (nrows m) (ncols m) m.
Proof. intros H. split; [reflexivity | exact H]. Qed.

Lemma length_col (A : Type) (j : nat) (m : list (list A)) :
  Forall (fun r => (j < length r)%nat) m -> length (col j m) = length m.
Proof.
  induction 1 as [| r m Hr _ IH]; simpl; [reflexivity |].
  unfold col in *. simpl.
  destruct (nth_error r j) eqn:E.
  - simpl. now rewrite IH.
  - apply nth_error_None in E. lia.
Qed.

Lemma wf_transpose (r c : nat) (m : mat) :
  wf_mat r c m -> ncols m = c -> wf_mat c r (transpose m).
Proof.
  intros [Hlen Hrows] Hc. unfold transpose. split.
  - now rewrite length_map, length_seq.
  - apply Forall_forall. intros col0 Hin.
    apply in_map_iff in Hin. destruct Hin as (j & <- & Hj).
    apply in_seq in Hj. rewrite length_col; [exact Hlen |].
    eapply Forall_impl; [| exact Hrows]. simpl. intros a Ha. lia.
Qed.

Lemma length_mv_raw (m : mat) (v : vec) : length (mv_raw m v) = length m.
Proof. apply length_map. Qed.

Lemma wf_matmul_raw (a b : mat) : wf_mat (length a) (ncols b) (matmul_raw a b).
Proof.
  unfold matmul_raw. split.
  - apply length_map.
  - apply Forall_forall. intros row Hin.
    apply in_map_iff in Hin. destruct Hin as (r & <- & _).
    unfold transpose. now rewrite !length_map, length_seq.
Qed.

Lemma wf_diag (v : vec) : wf_mat (length v) (length v) (diag v).
Proof.
  unfold diag. split.
  - now rewrite length_map, length_seq.
  - apply Forall_forall. intros row Hin.
    apply in_map_iff in Hin. destruct Hin as (i & <- & _).
    now rewrite length_map, length_seq.
Qed.

Lemma length_recip_eps (v : vec) : length (recip_eps v) = length v.
Proof. apply length_map. Qed.

(** ** Sinkhorn-Knopp never raises on a square matrix *)

Lemma torch_mv_ok (m : mat) (v : vec) :
  ncols m = length v -> torch_mv m v = Ok (mv_raw m v).
Proof. intros H. unfold torch_mv. now rewrite H, Nat.eqb_refl. Qed.

Lemma torch_matmul_ok (a b : mat) :
  ncols a = nrows b -> torch_matmul a b = Ok (matmul_raw a b).
Proof. intros H. unfold torch_matmul. now rewrite H, Nat.eqb_refl. Qed.

Lemma wf_matmul_square (n : nat) (a b : mat) :
  wf_mat n n a -> wf_mat n n b -> wf_mat n n (matmul_raw a b).
Proof.
  intros Ha Hb. pose proof (wf_matmul_raw a b) as H.
  rewrite (wf_mat_square_ncols Hb) in H. destruct Ha as [Hl _].
  now rewrite Hl in H.
Qed.

Lemma sinkhorn_pass_ok (n : nat) (matrix : mat) (col_scale : vec) :
  wf_mat n n matrix -> length col_scale = n ->
  exists matrix' row_scale' col_scale',
    sinkhorn_pass matrix col_scale = Ok (matrix', row_scale', col_scale')
    /\ wf_mat n n matrix' /\ length col_scale' = n.
Proof.
  intros Hm Hc. unfold sinkhorn_pass.
  pose proof (wf_mat_square_ncols Hm) as Hnc.
  rewrite torch_mv_ok by congruence. simpl.
  set (rs := recip_eps (mv_raw matrix col_scale)).
  assert (Hrs : length rs = n).
  { unfold rs. rewrite length_recip_eps, length_mv_raw. apply Hm. }
  pose proof (wf_diag rs) as Hd. rewrite Hrs in Hd.
  rewrite torch_matmul_ok
    by (rewrite (wf_mat_square_ncols Hd); symmetry; apply Hm).
  simpl. set (m1 := matmul_raw (diag rs) matrix).
  assert (Hm1 : wf_mat n n m1) by (apply wf_matmul_square; assumption).
  assert (Ht : wf_mat n n (transpose m1)).
  { apply wf_transpose; [assumption | now apply wf_mat_square_ncols]. }
  rewrite torch_mv_ok by (rewrite (wf_mat_square_ncols Ht); congruence).
  simpl. set (cs := recip_eps (mv_raw (transpose m1) rs)).
  assert (Hcs : length cs = n).
  { unfold cs. rewrite length_recip_eps, length_mv_raw. apply Ht. }
  pose proof (wf_diag cs) as Hdc. rewrite Hcs in Hdc.
  rewrite torch_matmul_ok
    by (rewrite (wf_mat_square_ncols Hm1); symmetry; apply Hdc).
  simpl. eexists _, _, _. split; [reflexivity |]. split; [| exact Hcs].
  apply wf_matmul_square; assumption.
Qed.

Lemma sinkhorn_loop_ok (tol : Q) (n iterations : nat) :
  forall (matrix : mat) (col_scale : vec),
    wf_mat n n matrix -> length col_scale = n ->
    exists matrix', sinkhorn_loop tol iterations matrix col_scale = Ok matrix'
                    /\ wf_mat n n matrix'.
Proof.
  induction iterations as [| k IH]; simpl; intros matrix col_scale Hm Hc.
  - eauto.
  - destruct (sinkhorn_pass_ok col_scale Hm Hc) as (m' & rs & cs & -> & Hm' & Hcs).
    simpl. destruct (doubly_stochastic_within tol m'); eauto.
Qed.

(** ** The negative-entry test *)

Lemma nonneg_row_test (r : vec) :
  forallb (fun x => Qle_bool 0 x) r = false <-> Exists (fun x => x < 0) r.
Proof.
  induction r as [| x r IH]; simpl.
  - split; [discriminate | intros H; inversion H].
  - destruct (Qle_bool 0 x) eqn:E; simpl.
    + rewrite IH. split; [auto |].
      intros H. inversion H; subst; [| assumption].
      apply Qle_bool_iff in E. lra.
    + split; [| reflexivity]. intros _. left.
      apply Qnot_le_lt. intros Hle. apply Qle_bool_iff in Hle. congruence.
Qed.

Lemma nonneg_test (matrix : mat) :
  forallb (forallb (fun x => Qle_bool 0 x)) matrix = false <-> has_negative matrix.
Proof.
  unfold has_negative. induction matrix as [| r m IH]; simpl.
  - split; [discriminate | intros H; inversion H].
  - destruct (forallb (fun x => Qle_bool 0 x) r) eqn:E; simpl.
    + rewrite IH. split; [auto |].
      intros H. inversion H; subst; [| assumption].
      apply nonneg_row_test in H1. congruence.
    + split; [| reflexivity]. intros _. left. now apply nonneg_row_test.
Qed.

Lemma wf_map_map (A B : Type) (f : A -> B) (r c : nat) (m : list (list A)) :
  length m = r /\ Forall (fun row => length row = c) m ->
  length (map (map f) m) = r
  /\ Forall (fun row => length row = c) (map (map f) m).
Proof.
  intros [Hl Hr]. split; [now rewrite length_map |].
  apply Forall_forall. intros row Hin. apply in_map_iff in Hin.
  destruct Hin as (row0 & <- & Hin0). rewrite length_map.
  rewrite Forall_forall in Hr. auto.
Qed.

(** C8. [sinkhorn_knopp] raises exactly on a matrix with a negative entry or
    with different numbers of rows and columns, and then it raises a
    [ValueError]: "Matrix contains negative values." when an entry is
    negative, "Matrix must be square." when no entry is negative and the
    matrix is not square; a square matrix without negative entry is returned
    rescaled, whatever the tolerance and the iteration cap. *)
Theorem sinkhorn_knopp_raises_iff (matrix : mat) (tol : Q) (max_iterations : nat) :
  rect matrix ->
  (has_negative matrix ->
   sinkhorn_knopp matrix tol max_iterations
   = Raise (ValueError "Matrix contains negative values."))
  /\ (nrows matrix <> ncols matrix ->
      exists msg, sinkhorn_knopp matrix tol max_iterations = Raise (ValueError msg))
  /\ (~ has_negative matrix -> nrows matrix <> ncols matrix ->
      sinkhorn_knopp matrix tol max_iterations
      = Raise (ValueError "Matrix must be square."))
  /\ (~ has_negative matrix -> nrows matrix = ncols matrix ->
      exists m, sinkhorn_knopp matrix tol max_iterations = Ok m)
  /\ ((exists e, sinkhorn_knopp matrix tol max_iterations = Raise e)
      <-> has_negative matrix \/ nrows matrix <> ncols matrix).
Proof.
  intros Hrect.
  assert (Hneg : has_negative matrix ->
                 sinkhorn_knopp matrix tol max_iterations
                 = Raise (ValueError "Matrix contains negative values.")).
  { intros H. apply nonneg_test in H. unfold sinkhorn_knopp. now rewrite H. }
  assert (Hsq : ~ has_negative matrix -> nrows matrix <> ncols matrix ->
                sinkhorn_knopp matrix tol max_iterations
                = Raise (ValueError "Matrix must be square.")).
  { intros Hn Hne. unfold sinkhorn_knopp.
    destruct (forallb (forallb (fun x => Qle_bool 0 x)) matrix) eqn:E.
    - simpl. apply Nat.eqb_neq in Hne. now rewrite Hne.
    - exfalso. apply Hn. now apply nonneg_test. }
  assert (Hok : ~ has_negative matrix -> nrows matrix = ncols matrix ->
                exists m, sinkhorn_knopp matrix tol max_iterations = Ok m).
  { intros Hn He. unfold sinkhorn_knopp.
    destruct (forallb (forallb (fun x => Qle_bool 0 x)) matrix) eqn:E.
    - simpl. apply Nat.eqb_eq in He. rewrite He. simpl.
      apply Nat.eqb_eq in He.
      set (m0 := map (map (fun x => x / (msum matrix + sinkhorn_eps))) matrix).
      assert (Hm0 : wf_mat (ncols matrix) (ncols matrix) m0).
      { apply wf_map_map. rewrite <- He at 1. now apply rect_wf_mat. }
      destruct (@sinkhorn_loop_ok tol (ncols matrix) max_iterations m0
                  (ones (ncols matrix)) Hm0) as (m' & Hm' & _).
      + apply repeat_length.
      + eauto.
    - exfalso. apply Hn. now apply nonneg_test. }
  assert (Hdec : has_negative matrix \/ ~ has_negative matrix).
  { destruct (forallb (forallb (fun x => Qle_bool 0 x)) matrix) eqn:E.
    - right. intros H. apply nonneg_test in H. congruence.
    - left. now apply nonneg_test. }
  split; [exact Hneg |]. split.
  { intros Hne. destruct Hdec as [H | H]; [rewrite Hneg | rewrite Hsq]; eauto. }
  split; [exact Hsq |]. split; [exact Hok |]. split.
  - intros [e He]. destruct Hdec as [H | H]; [now left |].
    destruct (Nat.eq_dec (nrows matrix) (ncols matrix)) as [Heq | Hne];
      [| now right].
    destruct (Hok H Heq) as [m Hm]. congruence.
  - intros [H | H].
    + rewrite (Hneg H). eauto.
    + destruct Hdec as [H' | H']; [rewrite Hneg | rewrite Hsq]; eauto.
Qed.

(** With the default tolerance and cap, a positive 2 x 2 matrix comes back. *)
Lemma sinkhorn_knopp_raises_iff_witness :
  rect [[1; 2]; [3; 4]]
  /\ exists m, sinkhorn_knopp [[1; 2]; [3; 4]] sinkhorn_default_tol
                 sinkhorn_default_max_iterations = Ok m.
Proof.
  assert (Hrect : rect [[1; 2]; [3; 4]]) by (repeat constructor).
  split; [exact Hrect |].
  destruct (@sinkhorn_knopp_raises_iff [[1; 2]; [3; 4]] sinkhorn_default_tol
              sinkhorn_default_max_iterations Hrect) as (_ & _ & _ & Hok & _).
  apply Hok; [| reflexivity].
  intros H. apply nonneg_test in H. vm_compute in H. discriminate.
Defined.


(** C3. On the 2 x 2 matrix of ones, one pass of [sinkhorn_knopp] returns a
    matrix whose columns each sum to less than 0.51 (about 1/2) and which
    fails the routine's own test of double stochasticity: the column step
    divides by [matrix.t() @ row_scale + 1e-16], not by the current column
    sums.  Dividing the rows, then the columns, by their current sums gives
    rows and columns of sum 1 on the same input. *)
Theorem sinkhorn_knopp_ones_columns_not_normalized :
  exists m,
    sinkhorn_knopp [[1; 1]; [1; 1]] sinkhorn_default_tol 1 = Ok m
    /\ Forall (fun s => s < 51 # 100) (col_sums m)
    /\ doubly_stochastic_within sinkhorn_default_tol m = false
    /\ sums_to_one (row_sums (spec_sinkhorn_loop sinkhorn_default_tol 1 [[1; 1]; [1; 1]]))
    /\ sums_to_one (col_sums (spec_sinkhorn_loop sinkhorn_default_tol 1 [[1; 1]; [1; 1]])).
Proof.
  eexists. split; [vm_compute; reflexivity |].
  split; [repeat constructor |].
  split; [vm_compute; reflexivity |].
  split; repeat constructor.
Qed.

(** ** Dictionaries *)

Lemma dict_get_set_same (V : Type) (k : string) (v : V) (d : Dict.t V) :
  Dict.get k (Dict.set k v d) = Some v.
Proof.
  induction d as [| [k' v'] d IH]; simpl.
  - now rewrite String.eqb_refl.
  - destruct (String.eqb k k') eqn:E; simpl; rewrite ?String.eqb_refl, ?E; auto.
Qed.

Lemma dict_get_set_other (V : Type) (k k' : string) (v : V) (d : Dict.t V) :
  k <> k' -> Dict.get k' (Dict.set k v d) = Dict.get k' d.
Proof.
  intros Hne. induction d as [| [k0 v0] d IH]; simpl.
  - destruct (String.eqb k' k) eqn:E; [| reflexivity].
    apply String.eqb_eq in E. congruence.
  - destruct (String.eqb k k0) eqn:E; simpl.
    + apply String.eqb_eq in E. subst k0.
      destruct (String.eqb k' k) eqn:E'; [| reflexivity].
      apply String.eqb_eq in E'. congruence.
    + now rewrite IH.
Qed.

Lemma dict_get_none (V : Type) (k : string) (d : Dict.t V) :
  ~ In k (Dict.keys d) -> Dict.get k d = None.
Proof.
  induction d as [| [k' v'] d IH]; simpl; intros H; [reflexivity |].
  destruct (String.eqb k k') eqn:E.
  - apply String.eqb_eq in E. subst. tauto.
  - apply IH. tauto.
Qed.

Lemma dict_get_in_keys (V : Type) (k : string) (v : V) (d : Dict.t V) :
  Dict.get k d = Some v -> In k (Dict.keys d).
Proof.
  induction d as [| [k' v'] d IH]; simpl; [discriminate |].
  destruct (String.eqb k k') eqn:E.
  - apply String.eqb_eq in E. auto.
  - auto.
Qed.

Lemma dict_keys_set_new (V : Type) (k : string) (v : V) (d : Dict.t V) :
  ~ In k (Dict.keys d) -> Dict.set k v d = d ++ [(k, v)].
Proof.
  induction d as [| [k' v'] d IH]; simpl; intros H; [reflexivity |].
  destruct (String.eqb k k') eqn:E.
  - apply String.eqb_eq in E. subst. tauto.
  - rewrite IH; tauto.
Qed.

(** ** The fixed output permutation is carried over unchanged *)

(** What a loop that stores one value per key of [l] leaves under a key. *)
Lemma store_loop_get (V : Type) (f : string -> V -> result V)
  (l : Dict.t V) (p : string) :
  NoDup (Dict.keys l) ->
  forall acc acc',
    for_each (fun acc '(k, v) => v' <- f k v ;; Ok (Dict.set k v' acc)) l acc
    = Ok acc' ->
    Dict.get p acc'
    = match Dict.get p l with
      | Some v => match f p v with Ok v' => Some v' | Raise _ => None end
      | None => Dict.get p acc
      end.
Proof.
  induction l as [| [k v] l IH]; simpl; intros Hnd acc acc' H.
  - now injection H as <-.
  - inversion Hnd as [| ? ? Hnotin Hnd']; subst.
    inv_bind H. inv_bind Ha. injection Ha as <-.
    rewrite (IH Hnd' _ _ H).
    destruct (String.eqb p k) eqn:E.
    + apply String.eqb_eq in E. subst p.
      rewrite (@dict_get_none _ _ _ Hnotin), dict_get_set_same, Ha0. reflexivity.
    + apply String.eqb_neq in E.
      rewrite dict_get_set_other by congruence. reflexivity.
Qed.

Lemma update_perm_matrices_as_store (perm_matrices proj_grads : Dict.t mat)
  (step_size : Q) :
  update_perm_matrices perm_matrices proj_grads step_size
  = for_each
      (fun acc '(k, v) =>
         v' <- (if is_fixed k then Ok v
                else proj_grad <- Dict.getitem k proj_grads ;;
                     interpolate step_size v proj_grad) ;;
         Ok (Dict.set k v' acc))
      perm_matrices Dict.empty.
Proof.
  unfold update_perm_matrices, Dict.items.
  generalize (@Dict.empty mat).
  induction perm_matrices as [| [k v] l IH]; simpl; intros acc; [reflexivity |].
  destruct (is_fixed k); simpl.
  - apply IH.
  - destruct (Dict.getitem k proj_grads); simpl; [| reflexivity].
    destruct (interpolate step_size v a); simpl; [apply IH | reflexivity].
Qed.

(** The update step leaves the matrix of a fixed name as it found it. *)
Lemma update_perm_matrices_fixed (perm_matrices proj_grads new : Dict.t mat)
  (step_size : Q) (p : string) :
  NoDup (Dict.keys perm_matrices) ->
  is_fixed p = true ->
  update_perm_matrices perm_matrices proj_grads step_size = Ok new ->
  Dict.get p new = Dict.get p perm_matrices.
Proof.
  intros Hnd Hfix H. rewrite update_perm_matrices_as_store in H.
  rewrite (@store_loop_get _ _ _ p Hnd _ _ H), Hfix.
  destruct (Dict.get p perm_matrices); reflexivity.
Qed.

(** The update step keeps the keys and their order. *)
Lemma store_loop_keys (V : Type) (f : string -> V -> result V) (l : Dict.t V) :
  forall acc acc',
    NoDup (Dict.keys acc ++ Dict.keys l) ->
    for_each (fun acc '(k, v) => v' <- f k v ;; Ok (Dict.set k v' acc)) l acc
    = Ok acc' ->
    Dict.keys acc' = Dict.keys acc ++ Dict.keys l.
Proof.
  induction l as [| [k v] l IH]; simpl; intros acc acc' Hnd H.
  - injection H as <-. now rewrite app_nil_r.
  - inv_bind H. inv_bind Ha. injection Ha as <-.
    assert (Hk : ~ In k (Dict.keys acc)).
    { apply NoDup_remove_2 in Hnd. intros Hin. apply Hnd.
      apply in_or_app. now left. }
    rewrite dict_keys_set_new in H by exact Hk.
    apply IH in H.
    + rewrite H. unfold Dict.keys. rewrite map_app. simpl.
      now rewrite <- app_assoc.
    + unfold Dict.keys in *. rewrite map_app. simpl.
      rewrite <- app_assoc. simpl. exact Hnd.
Qed.

Lemma update_perm_matrices_keys (perm_matrices proj_grads new : Dict.t mat)
  (step_size : Q) :
  NoDup (Dict.keys perm_matrices) ->
  update_perm_matrices perm_matrices proj_grads step_size = Ok new ->
  Dict.keys new = Dict.keys perm_matrices.
Proof.
  intros Hnd H. rewrite update_perm_matrices_as_store in H.
  apply store_loop_keys in H; [exact H | exact Hnd].
Qed.


Lemma interpolate_perms_as_store (t : Q) (proj_grads perm_matrices : Dict.t mat) :
  interpolate_perms t proj_grads perm_matrices
  = for_each
      (fun acc '(k, v) =>
         v' <- (proj_grad <- Dict.getitem k proj_grads ;;
                if is_fixed k then Ok v else interpolate t v proj_grad) ;;
         Ok (Dict.set k v' acc))
      perm_matrices Dict.empty.
Proof.
  unfold interpolate_perms, Dict.items.
  generalize (@Dict.empty mat).
  induction perm_matrices as [| [k v] l IH]; simpl; intros acc; [reflexivity |].
  destruct (Dict.getitem k proj_grads); simpl; [| reflexivity].
  destruct (is_fixed k); simpl; [apply IH |].
  destruct (interpolate t v a); simpl; [apply IH | reflexivity].
Qed.

(** The interpolation of the line search leaves the matrix of a fixed name
    as it found it, whatever the step [t]. *)
Lemma interpolate_perms_fixed (t : Q) (proj_grads perm_matrices new : Dict.t mat)
  (p : string) :
  NoDup (Dict.keys perm_matrices) ->
  is_fixed p = true ->
  interpolate_perms t proj_grads perm_matrices = Ok new ->
  Dict.get p new = Dict.get p perm_matrices.
Proof.
  intros Hnd Hfix H. rewrite interpolate_perms_as_store in H.
  pose proof H as H'.
  rewrite (@store_loop_get _ _ _ p Hnd _ _ H).
  destruct (Dict.get p perm_matrices) as [v |] eqn:E; [| reflexivity].
  destruct (Dict.getitem p proj_grads) as [pg | e] eqn:Eg; simpl.
  - now rewrite Hfix.
  - exfalso. clear H. revert H'. generalize (@Dict.empty mat).
    induction perm_matrices as [| [k v0] l IH]; simpl in *; [discriminate |].
    inversion Hnd; subst. intros acc H.
    destruct (String.eqb p k) eqn:Ek.
    + apply String.eqb_eq in Ek. subst k. rewrite Eg in H. discriminate.
    + inv_bind H. eapply IH; eauto.
Qed.

(** ** Invariants of the trial loop *)

Lemma trial_loop_S
  (body : Dict.t PermutationMatrix -> result (Dict.t PermutationMatrix * Q))
  (iterations : nat) (st : trial_state) :
  trial_loop body (S iterations) st
  = ('(perm_matrices, new_obj) <- body (ts_perm_matrices st) ;;
     let '(patience_steps, old_obj) :=
       patience_update new_obj (ts_old_obj st) (ts_patience_steps st) in
     if Nat.leb 15 patience_steps
     then Ok (mkTrialState perm_matrices (ts_history st) old_obj
                patience_steps (Some new_obj))
     else trial_loop body iterations
            (mkTrialState perm_matrices (ts_history st ++ [perm_matrices])
               old_obj patience_steps (Some new_obj))).
Proof. reflexivity. Qed.

Lemma trial_loop_invariant (P : Dict.t PermutationMatrix -> Prop)
  (body : Dict.t PermutationMatrix -> result (Dict.t PermutationMatrix * Q)) :
  (forall pm pm' o, P pm -> body pm = Ok (pm', o) -> P pm') ->
  forall iterations st st',
    P (ts_perm_matrices st) -> Forall P (ts_history st) ->
    trial_loop body iterations st = Ok st' ->
    P (ts_perm_matrices st') /\ Forall P (ts_history st').
Proof.
  intros Hbody. induction iterations as [| n IH]; intros st st' Hp Hh H.
  - injection H as <-. auto.
  - rewrite trial_loop_S in H. inv_bind H. destruct a as [pm o].
    pose proof (Hbody _ _ _ Hp Ha) as Hpm.
    cbv beta iota in H.
    destruct (patience_update o (ts_old_obj st) (ts_patience_steps st))
      as [patience old].
    destruct (Nat.leb 15 patience).
    + injection H as <-. simpl. auto.
    + apply IH in H; simpl; auto.
      apply Forall_app. auto.
Qed.

Section FixedPermutation.

Variable rng : Type.
Variable torch_rand : nat -> nat -> rng -> mat * rng.
Variable solve_linear_assignment_problem : mat -> PermutationIndices.
Variable fminbound : (Q -> result Q) -> Q -> Q -> result Q.

Lemma random_perm_matrices_keys (post : mat -> result mat) (l : Dict.t nat) :
  forall acc g acc' g',
    for_each
      (fun '(acc, g) '(p, n) =>
         let '(m, g') := torch_rand n n g in
         m' <- post m ;;
         Ok (acc ++ [(p, m')], g'))
      l (acc, g)
    = Ok (acc', g') ->
    Dict.keys acc' = Dict.keys acc ++ Dict.keys l.
Proof.
  induction l as [| [p n] l IH]; simpl; intros acc g acc' g' H.
  - injection H as <- <-. now rewrite app_nil_r.
  - inv_bind H. destruct (torch_rand n n g) as [m g1].
    inv_bind Ha. injection Ha as <-.
    apply IH in H. rewrite H. unfold Dict.keys. rewrite map_app. simpl.
    now rewrite <- app_assoc.
Qed.

(** The initializer gives every name of [perm_sizes] one matrix, in order. *)
Lemma initialize_perm_matrices_keys (perm_sizes : Dict.t nat)
  (initialization_method : string) (g g' : rng) (pm : Dict.t PermutationMatrix) :
  initialize_perm_matrices torch_rand perm_sizes initialization_method g
  = Ok (pm, g') ->
  Dict.keys pm = Dict.keys perm_sizes.
Proof.
  unfold initialize_perm_matrices, random_perm_matrices, Dict.items.
  destruct (String.eqb initialization_method "identity").
  - intros H. injection H as <- _. unfold Dict.keys. rewrite map_map.
    apply map_ext. now intros [p n].
  - destruct (String.eqb initialization_method "random");
      [| destruct (String.eqb initialization_method "sinkhorn")];
      try discriminate;
      intros H; apply random_perm_matrices_keys in H; exact H.
Qed.

Lemma trial_iteration_keys (params_a params_b : ModelParams)
  (perm_sizes : Dict.t nat) (perm_spec : PermutationSpec)
  (pm pm' : Dict.t PermutationMatrix) (o : Q) :
  NoDup (Dict.keys pm) ->
  trial_iteration solve_linear_assignment_problem fminbound params_a params_b
    perm_sizes perm_spec pm = Ok (pm', o) ->
  Dict.keys pm' = Dict.keys pm.
Proof.
  intros Hnd H. unfold trial_iteration in H.
  inv_bind H. inv_bind H. inv_bind H. inv_bind H. injection H as <- _.
  eapply update_perm_matrices_keys; eauto.
Qed.

Lemma trial_iteration_fixed (params_a params_b : ModelParams)
  (perm_sizes : Dict.t nat) (perm_spec : PermutationSpec)
  (pm pm' : Dict.t PermutationMatrix) (o : Q) (p : string) :
  NoDup (Dict.keys pm) ->
  is_fixed p = true ->
  trial_iteration solve_linear_assignment_problem fminbound params_a params_b
    perm_sizes perm_spec pm = Ok (pm', o) ->
  Dict.get p pm' = Dict.get p pm.
Proof.
  intros Hnd Hfix H. unfold trial_iteration in H.
  inv_bind H. inv_bind H. inv_bind H. inv_bind H. injection H as <- _.
  eapply update_perm_matrices_fixed; eauto.
Qed.

(** In every state a trial passes through, and in its history, the matrix of
    a fixed name is the one the initializer gave it. *)
Lemma fixed_perm_keeps_initial_matrix (params_a params_b : ModelParams)
  (perm_sizes : Dict.t nat) (initialization_method : string)
  (perm_spec : PermutationSpec) (max_iter : nat) (g g' : rng)
  (pm0 : Dict.t PermutationMatrix) (st : trial_state) (p : string) :
  NoDup (Dict.keys perm_sizes) ->
  is_fixed p = true ->
  initialize_perm_matrices torch_rand perm_sizes initialization_method g
  = Ok (pm0, g') ->
  trial_states torch_rand solve_linear_assignment_problem fminbound params_a
    params_b perm_sizes initialization_method perm_spec max_iter g = Ok st ->
  Dict.get p (ts_perm_matrices st) = Dict.get p pm0
  /\ Forall (fun h => Dict.get p h = Dict.get p pm0) (ts_history st).
Proof.
  intros Hnd Hfix Hinit H. unfold trial_states in H. rewrite Hinit in H.
  simpl in H.
  pose proof (initialize_perm_matrices_keys _ _ _ Hinit) as Hkeys.
  set (P := fun pm : Dict.t PermutationMatrix =>
              Dict.keys pm = Dict.keys pm0 /\ Dict.get p pm = Dict.get p pm0).
  assert (Hinv : P (ts_perm_matrices st) /\ Forall P (ts_history st)).
  { eapply trial_loop_invariant; [| | | exact H].
    - intros pm pm' o [Hk Hg] Hbody. split.
      + rewrite <- Hk. eapply trial_iteration_keys; eauto.
        rewrite Hk, Hkeys. exact Hnd.
      + rewrite <- Hg. eapply trial_iteration_fixed; eauto.
        rewrite Hk, Hkeys. exact Hnd.
    - simpl. split; reflexivity.
    - simpl. repeat constructor. }
  destruct Hinv as [[_ Hg] Hh]. split; [exact Hg |].
  eapply Forall_impl; [| exact Hh]. intros h [_ Hh']. exact Hh'.
Qed.

(** With the method "identity" that matrix is the identity. *)
Lemma initialize_identity_get (perm_sizes : Dict.t nat) (g g' : rng)
  (pm : Dict.t PermutationMatrix) (p : string) :
  initialize_perm_matrices torch_rand perm_sizes "identity" g = Ok (pm, g') ->
  Dict.get p pm = option_map eye (Dict.get p perm_sizes).
Proof.
  unfold initialize_perm_matrices, Dict.items. simpl. intros H.
  injection H as <- _.
  induction perm_sizes as [| [k n] l IH]; simpl; [reflexivity |].
  destruct (String.eqb p k); [reflexivity | exact IH].
Qed.

End FixedPermutation.

(** ** Deciding the equality of rational matrices *)

Lemma forallb2_Forall2 (A B : Type) (f : A -> B -> bool) (R : A -> B -> Prop) :
  (forall a b, f a b = true <-> R a b) ->
  forall l1 l2, forallb2 f l1 l2 = true <-> Forall2 R l1 l2.
Proof.
  intros Hf. induction l1 as [| a l1 IH]; destruct l2 as [| b l2]; simpl.
  - split; auto.
  - split; [discriminate | intros H; inversion H].
  - split; [discriminate | intros H; inversion H].
  - rewrite andb_true_iff, Hf, IH. split.
    + intros [H1 H2]. now constructor.
    + intros H. inversion H; subst. auto.
Qed.

Lemma mat_eqb_iff (a b : mat) : mat_eqb a b = true <-> mat_eq a b.
Proof.
  unfold mat_eqb, mat_eq. apply forallb2_Forall2. intros r1 r2.
  apply forallb2_Forall2. intros x y. apply Qeq_bool_iff.
Qed.

(** C1. With the method "random" the matrix of [P_final] is the random draw:
    on the one-layer network [out_spec] the driver keeps
    [[0.1, 0.8], [0.7, 0.4]] for [P_final] in every snapshot, which is not
    the identity, and returns the swap [1, 0] as the hardened output
    permutation, also with the default cap of 100 iterations. *)
Theorem fixed_perm_random_init_not_identity :
  snd (Concrete.run_driver Concrete.out_spec Concrete.out_params
         Concrete.out_params "random" 1 true 1)
  = Ok ([("P_final", [1; 0]%nat)],
        Some [[("P_final", [[0.1; 0.8]; [0.7; 0.4]])];
              [("P_final", [[0.1; 0.8]; [0.7; 0.4]])]])
  /\ ~ mat_eq [[0.1; 0.8]; [0.7; 0.4]] (eye 2)
  /\ snd (Concrete.run_driver Concrete.out_spec Concrete.out_params
            Concrete.out_params "random" default_max_iter false 1)
     = Ok ([("P_final", [1; 0]%nat)], None).
Proof.
  split; [vm_compute; reflexivity |]. split; [| vm_compute; reflexivity].
  intros H. apply mat_eqb_iff in H. vm_compute in H. discriminate.
Qed.


(** ** Comparisons *)

Lemma Qltb_lt (x y : Q) : Qltb x y = true <-> x < y.
Proof.
  unfold Qltb. rewrite Qlt_alt. destruct (x ?= y); split; congruence.
Qed.

Lemma Qltb_ge (x y : Q) : Qltb x y = false <-> y <= x.
Proof.
  split; intros H.
  - apply Qnot_lt_le. intros Hlt. apply Qltb_lt in Hlt. congruence.
  - destruct (Qltb x y) eqn:E; [| reflexivity].
    apply Qltb_lt in E. lra.
Qed.

Lemma Qgtb_gt (x y : Q) : Qgtb x y = true <-> y < x.
Proof. apply Qltb_lt. Qed.

Lemma Qgtb_le (x y : Q) : Qgtb x y = false <-> x <= y.
Proof. apply Qltb_ge. Qed.

(** ** The driver's write into the topology *)

Lemma dict_set_id_iff (V : Type) (k : string) (v : V) (d : Dict.t V) :
  Dict.set k v d = d <-> Dict.get k d = Some v.
Proof.
  split.
  - intros H. rewrite <- H. apply dict_get_set_same.
  - induction d as [| [k' v'] d IH]; simpl; [discriminate |].
    destruct (String.eqb k k') eqn:E.
    + apply String.eqb_eq in E. subst k'. intros H. now injection H as ->.
    + intros H. now rewrite IH.
Qed.

Lemma dict_set_in (V : Type) (k : string) (v : V) (d : Dict.t V) :
  In (k, v) (Dict.items (Dict.set k v d)).
Proof.
  unfold Dict.items. induction d as [| [k' v'] d IH]; simpl; [auto |].
  destruct (String.eqb k k'); simpl; auto.
Qed.

Lemma add_final_perm_id_iff (ps : PermutationSpec) :
  add_final_perm ps = ps
  <-> Dict.get "P_final" (perm_to_layers_and_axes ps)
      = Some [("linear.weight", 0%nat)].
Proof.
  destruct ps as [p2l l2p]. unfold add_final_perm. simpl.
  rewrite <- dict_set_id_iff. split.
  - intros H. now injection H.
  - intros H. now rewrite H.
Qed.

(** A loop over a list with an item on which the body always raises. *)
Lemma for_each_raises (A S : Type) (body : S -> A -> result S) (l : list A)
  (a : A) :
  In a l -> (forall s, exists e, body s a = Raise e) ->
  forall s, exists e, for_each body l s = Raise e.
Proof.
  intros Hin Hbody. induction l as [| a0 l IH]; simpl; [contradiction |].
  intros s. destruct (body s a0) as [s' | e] eqn:E; simpl; [| eauto].
  destruct Hin as [-> | Hin]; [| auto].
  destruct (Hbody s) as [e He]. congruence.
Qed.

Lemma compute_perm_sizes_needs_param (perm_to_layers : Dict.t (list (string * nat)))
  (params_a : ModelParams) (perm_name relevant_params : string) (axis : nat)
  (rest : list (string * nat)) :
  In (perm_name, (relevant_params, axis) :: rest) (Dict.items perm_to_layers) ->
  Dict.get relevant_params params_a = None ->
  exists e, compute_perm_sizes perm_to_layers params_a = Raise e.
Proof.
  intros Hin Hnone. unfold compute_perm_sizes.
  eapply for_each_raises; [exact Hin |].
  intros s. simpl. unfold Dict.getitem. rewrite Hnone. simpl. eauto.
Qed.

(** What [compute_perm_sizes] stores under a name. *)
Lemma compute_perm_sizes_get (params_a : ModelParams) (p : string)
  (l : Dict.t (list (string * nat))) :
  NoDup (Dict.keys l) ->
  forall acc sizes,
    for_each
      (fun perm_sizes '(perm_name, params_and_axes) =>
         match params_and_axes with
         | [] => Raise IndexError
         | (relevant_params, relevant_axis) :: _ =>
             W <- Dict.getitem relevant_params params_a ;;
             n <- shape_at W relevant_axis ;;
             Ok (Dict.set perm_name n perm_sizes)
         end) l acc = Ok sizes ->
    forall relevant_params relevant_axis rest,
      Dict.get p l = Some ((relevant_params, relevant_axis) :: rest) ->
      exists W n, Dict.get relevant_params params_a = Some W
                  /\ shape_at W relevant_axis = Ok n
                  /\ Dict.get p sizes = Some n.
Proof.
  induction l as [| [k v] l IH]; simpl; intros Hnd acc sizes H rp ra rest Hget;
    [discriminate |].
  inversion Hnd as [| ? ? Hnotin Hnd']; subst.
  inv_bind H. destruct v as [| [rp0 ra0] v]; [discriminate |].
  inv_bind Ha. inv_bind Ha. injection Ha as <-.
  destruct (String.eqb p k) eqn:E.
  - apply String.eqb_eq in E. subst k. injection Hget as -> -> ->.
    exists a0, a1. unfold Dict.getitem in Ha0.
    destruct (Dict.get rp params_a); [| discriminate]. injection Ha0 as ->.
    split; [reflexivity |]. split; [assumption |].
    assert (Hkeep : forall l0 acc0 sizes0,
               ~ In p (Dict.keys l0) ->
               for_each
                 (fun perm_sizes '(perm_name, params_and_axes) =>
                    match params_and_axes with
                    | [] => Raise IndexError
                    | (relevant_params, relevant_axis) :: _ =>
                        W <- Dict.getitem relevant_params params_a ;;
                        n <- shape_at W relevant_axis ;;
                        Ok (Dict.set perm_name n perm_sizes)
                    end) l0 acc0 = Ok sizes0 ->
               Dict.get p sizes0 = Dict.get p acc0).
    { clear. induction l0 as [| [k v] l0 IH0]; simpl; intros acc0 sizes0 Hn H0.
      - now injection H0 as <-.
      - inv_bind H0. destruct v as [| [rp0 ra0] v]; [discriminate |].
        inv_bind Ha. inv_bind Ha. injection Ha as <-.
        rewrite (IH0 _ _ (fun Hin => Hn (or_intror Hin)) H0).
        apply dict_get_set_other. intros ->. apply Hn. now left. }
    rewrite (Hkeep _ _ _ Hnotin H). apply dict_get_set_same.
  - eapply IH; eauto.
Qed.

Lemma dict_set_keys_nodup (V : Type) (k : string) (v : V) (d : Dict.t V) :
  NoDup (Dict.keys d) -> NoDup (Dict.keys (Dict.set k v d)).
Proof.
  intros Hnd. destruct (in_dec string_dec k (Dict.keys d)) as [Hin | Hnotin].
  - assert (Hk : Dict.keys (Dict.set k v d) = Dict.keys d); [| now rewrite Hk].
    clear Hnd. induction d as [| [k' v'] d IH]; simpl in *; [contradiction |].
    destruct (String.eqb k k') eqn:E; simpl.
    + apply String.eqb_eq in E. now subst.
    + apply String.eqb_neq in E. f_equal. apply IH.
      destruct Hin as [-> | Hin]; [congruence | assumption].
  - rewrite dict_keys_set_new by assumption.
    unfold Dict.keys in *. rewrite map_app. simpl.
    apply NoDup_app; [assumption | repeat constructor; intros [] |].
    intros a Ha [<- | []]. contradiction.
Qed.

Section Driver.

Variable rng : Type.
Variable torch_rand : nat -> nat -> rng -> mat * rng.
Variable seed_everything : Z -> rng.
Variable np_random_randint : Z -> Z -> nat -> list Z.
Variable solve_linear_assignment_problem : mat -> PermutationIndices.
Variable fminbound : (Q -> result Q) -> Q -> Q -> result Q.

Let driver := frank_wolfe_weight_matching torch_rand seed_everything
                np_random_randint solve_linear_assignment_problem fminbound.
Let trial := frank_wolfe_weight_matching_trial torch_rand
               solve_linear_assignment_problem fminbound.

(** C9 (amended). [frank_wolfe_weight_matching] stores the entry
    "P_final" -> [("linear.weight", 0)] in the perm-to-layers mapping of its
    topology argument, whatever the outcome of the call; the call fails when
    the fixed parameter set has no key "linear.weight"; when the sizes are
    computed, the size of [P_final] is the axis-0 extent of that parameter;
    and the caller's topology differs after the call exactly when it did not
    already hold that entry. *)
Theorem frank_wolfe_weight_matching_writes_final_perm (ps : PermutationSpec)
  (fixed permutee : ModelParams) (initialization_method : string)
  (max_iter : nat) (return_perm_history : bool) (num_trials : nat) :
  NoDup (Dict.keys (perm_to_layers_and_axes ps)) ->
  let out := driver ps fixed permutee initialization_method max_iter
               return_perm_history num_trials in
  fst out = add_final_perm ps
  /\ Dict.get "P_final" (perm_to_layers_and_axes (fst out))
     = Some [("linear.weight", 0%nat)]
  /\ (Dict.get "linear.weight" fixed = None -> exists e, snd out = Raise e)
  /\ (forall sizes,
        compute_perm_sizes (perm_to_layers_and_axes (fst out)) fixed = Ok sizes ->
        exists W n, Dict.get "linear.weight" fixed = Some W
                    /\ shape_at W 0 = Ok n
                    /\ Dict.get "P_final" sizes = Some n)
  /\ (fst out <> ps
      <-> Dict.get "P_final" (perm_to_layers_and_axes ps)
          <> Some [("linear.weight", 0%nat)]).
Proof.
  intros Hnd out. subst out driver. unfold frank_wolfe_weight_matching.
  cbn [fst snd].
  split; [reflexivity |].
  split; [apply dict_get_set_same |].
  split.
  { intros Hnone.
    destruct (@compute_perm_sizes_needs_param
                (perm_to_layers_and_axes (add_final_perm ps)) fixed
                "P_final" "linear.weight" 0%nat []) as [e He].
    - apply dict_set_in.
    - exact Hnone.
    - rewrite He. simpl. eauto. }
  split.
  { intros sizes H. unfold compute_perm_sizes, Dict.items in H.
    eapply compute_perm_sizes_get; [| exact H | apply dict_get_set_same].
    simpl. now apply dict_set_keys_nodup. }
  rewrite <- add_final_perm_id_iff. tauto.
Qed.

(** A loop of trials none of which has a positive objective keeps the
    initial accumulator. *)
Lemma trials_without_positive_objective (params_a params_b : ModelParams)
  (perm_sizes : Dict.t nat) (initialization_method : string)
  (ps : PermutationSpec) (max_iter : nat) (seeds : list Z) :
  (forall seed, In seed seeds ->
     exists pm h obj,
       trial params_a params_b perm_sizes initialization_method ps max_iter
         (seed_everything seed) = Ok (pm, h, obj)
       /\ obj <= 0) ->
  for_each
    (fun acc seed =>
       let g := seed_everything seed in
       r <- trial params_a params_b perm_sizes initialization_method ps
              max_iter g ;;
       Ok (keep_best acc r))
    seeds (0, None)
  = Ok (0, None).
Proof.
  induction seeds as [| seed seeds IH]; simpl; intros H; [reflexivity |].
  destruct (H seed (or_introl eq_refl)) as (pm & h & obj & -> & Hle).
  simpl. apply Qgtb_le in Hle. rewrite Hle. apply IH. auto.
Qed.

(** C10. When the sizes are computed and every trial returns an objective
    that is at most 0, the driver raises [UnboundLocalError] for
    [best_perm_matrices]: the accumulator starts at 0.0 and a trial is kept
    only under [trial_obj > best_obj]. *)
Theorem frank_wolfe_weight_matching_unbound_best (ps : PermutationSpec)
  (fixed permutee : ModelParams) (initialization_method : string)
  (max_iter : nat) (return_perm_history : bool) (num_trials : nat)
  (perm_sizes : Dict.t nat) :
  compute_perm_sizes (perm_to_layers_and_axes (add_final_perm ps)) fixed
  = Ok perm_sizes ->
  (forall seed, In seed (np_random_randint 0 1000 num_trials) ->
     exists pm h obj,
       trial fixed permutee perm_sizes initialization_method
         (add_final_perm ps) max_iter (seed_everything seed) = Ok (pm, h, obj)
       /\ obj <= 0) ->
  snd (driver ps fixed permutee initialization_method max_iter
         return_perm_history num_trials)
  = Raise (UnboundLocalError "best_perm_matrices").
Proof.
  intros Hsizes Htrials. subst driver. unfold frank_wolfe_weight_matching.
  cbn [snd]. rewrite Hsizes. cbn [bind].
  fold trial. rewrite trials_without_positive_objective by exact Htrials.
  reflexivity.
Qed.

(** The loop of the driver over trials that all return is a fold of
    [keep_best] over their results. *)
Lemma trials_fold (params_a params_b : ModelParams)
  (perm_sizes : Dict.t nat) (initialization_method : string)
  (ps : PermutationSpec) (max_iter : nat) (seeds : list Z)
  (rs : list trial_result) :
  Forall2 (fun seed r =>
             trial params_a params_b perm_sizes initialization_method ps
               max_iter (seed_everything seed) = Ok r) seeds rs ->
  forall acc,
    for_each
      (fun acc seed =>
         let g := seed_everything seed in
         r <- trial params_a params_b perm_sizes initialization_method ps
                max_iter g ;;
         Ok (keep_best acc r))
      seeds acc
    = Ok (fold_left keep_best rs acc).
Proof.
  induction 1 as [| seed r seeds rs Hr _ IH]; simpl; intros acc; [reflexivity |].
  rewrite Hr. simpl. apply IH.
Qed.

End Driver.

(** The fold of [keep_best] ends on the first result of maximal objective,
    when that objective exceeds the one the fold started from. *)
Lemma keep_best_first_argmax (rs : list trial_result) :
  forall best_obj best,
    fold_left keep_best rs (best_obj, best)
    = match first_argmax rs with
      | Some (pm, h, obj) =>
          if Qgtb obj best_obj then (obj, Some (pm, h)) else (best_obj, best)
      | None => (best_obj, best)
      end.
Proof.
  induction rs as [| [[pm h] obj] rs IH]; intros best_obj best; [reflexivity |].
  cbn [fold_left first_argmax].
  change (keep_best (best_obj, best) (pm, h, obj))
    with (if Qgtb obj best_obj then (obj, Some (pm, h)) else (best_obj, best)).
  destruct (Qgtb obj best_obj) eqn:E1; rewrite IH;
    destruct (first_argmax rs) as [[[pm' h'] obj'] |]; cbn [snd];
    try (rewrite ?E1; reflexivity);
    destruct (Qltb obj obj') eqn:E2; unfold Qgtb in *;
    rewrite ?E1, ?E2; try reflexivity.
  - destruct (Qltb best_obj obj') eqn:E3; [reflexivity |].
    apply Qltb_lt in E1, E2. apply Qltb_ge in E3. lra.
  - destruct (Qltb best_obj obj') eqn:E3; [| reflexivity].
    apply Qltb_ge in E1, E2. apply Qltb_lt in E3. lra.
Qed.

(** When the sizes are computed, every trial returns and the first trial of
    maximal objective has a positive objective, the driver hardens and
    returns that trial. *)
Lemma frank_wolfe_weight_matching_keeps_first_best (rng : Type)
  (torch_rand : nat -> nat -> rng -> mat * rng) (seed_everything : Z -> rng)
  (np_random_randint : Z -> Z -> nat -> list Z)
  (solve_linear_assignment_problem : mat -> PermutationIndices)
  (fminbound : (Q -> result Q) -> Q -> Q -> result Q)
  (ps : PermutationSpec) (fixed permutee : ModelParams)
  (initialization_method : string) (max_iter : nat)
  (return_perm_history : bool) (num_trials : nat) (perm_sizes : Dict.t nat)
  (rs : list trial_result) (pm : Dict.t PermutationMatrix)
  (h : list (Dict.t PermutationMatrix)) (obj : Q) :
  compute_perm_sizes (perm_to_layers_and_axes (add_final_perm ps)) fixed
  = Ok perm_sizes ->
  Forall2 (fun seed r =>
             frank_wolfe_weight_matching_trial torch_rand
               solve_linear_assignment_problem fminbound fixed permutee
               perm_sizes initialization_method (add_final_perm ps) max_iter
               (seed_everything seed) = Ok r)
    (np_random_randint 0%Z 1000%Z num_trials) rs ->
  first_argmax rs = Some (pm, h, obj) ->
  0 < obj ->
  snd (frank_wolfe_weight_matching torch_rand seed_everything
         np_random_randint solve_linear_assignment_problem fminbound ps fixed
         permutee initialization_method max_iter return_perm_history
         num_trials)
  = Ok (map (fun '(p, perm) => (p, solve_linear_assignment_problem perm)) pm,
        if return_perm_history then Some h else None).
Proof.
  intros Hsizes Htrials Hbest Hpos. unfold frank_wolfe_weight_matching.
  cbn [snd]. rewrite Hsizes. cbn [bind].
  rewrite (@trials_fold _ _ _ _ _ _ _ _ _ _ _ _ _ Htrials). cbn [bind].
  rewrite keep_best_first_argmax, Hbest.
  apply Qgtb_gt in Hpos. rewrite Hpos. reflexivity.
Qed.

Lemma frank_wolfe_weight_matching_writes_final_perm_witness :
  NoDup (Dict.keys (perm_to_layers_and_axes Concrete.mlp_spec))
  /\ fst (Concrete.run_driver Concrete.mlp_spec Concrete.mlp_params_a
            Concrete.mlp_params_b "identity" 3 false 1)
     <> Concrete.mlp_spec.
Proof.
  assert (Hnd : NoDup (Dict.keys (perm_to_layers_and_axes Concrete.mlp_spec))).
  { simpl. constructor; [intros [] | constructor]. }
  split; [exact Hnd |].
  destruct (@frank_wolfe_weight_matching_writes_final_perm
              Concrete.rng Concrete.torch_rand Concrete.seed_everything
              Concrete.np_random_randint Concrete.solve_linear_assignment_problem
              Concrete.fminbound Concrete.mlp_spec Concrete.mlp_params_a
              Concrete.mlp_params_b "identity" 3%nat false 1%nat Hnd)
    as (_ & _ & _ & _ & Hiff).
  apply Hiff. cbn. discriminate.
Defined.

(** C9, as stated, fails on a second call: the topology the first call left
    behind already holds the entry, and the second call returns it as it
    received it. *)
Lemma topology_unchanged_by_second_call :
  let ps1 := fst (Concrete.run_driver Concrete.out_spec Concrete.out_params
                    Concrete.out_params "identity" 1 false 1) in
  let out := Concrete.run_driver ps1 Concrete.out_params Concrete.out_params
               "identity" 1 false 1 in
  fst out = ps1 /\ snd out = Ok ([("P_final", [0; 1]%nat)], None).
Proof. split; vm_compute; reflexivity. Qed.

Lemma negated_trials_return (seed : Z) :
  In seed (Concrete.np_random_randint 0 1000 default_num_trials) ->
  exists pm h obj,
    frank_wolfe_weight_matching_trial Concrete.torch_rand
      Concrete.solve_linear_assignment_problem Concrete.fminbound
      Concrete.neg_params_a Concrete.neg_params_b [("P_final", 1%nat)]
      "identity" (add_final_perm Concrete.out_spec) default_max_iter
      (Concrete.seed_everything seed) = Ok (pm, h, obj)
    /\ obj <= 0.
Proof.
  intros Hin.
  change (Concrete.np_random_randint 0 1000 default_num_trials)
    with [0%Z; 1%Z; 2%Z] in Hin.
  destruct Hin as [<- | [<- | [<- | []]]];
    (eexists _, _, _; split; [vm_compute; reflexivity | vm_compute; discriminate]).
Qed.

Lemma frank_wolfe_weight_matching_unbound_best_witness :
  compute_perm_sizes
    (perm_to_layers_and_axes (add_final_perm Concrete.out_spec))
    Concrete.neg_params_a = Ok [("P_final", 1%nat)]
  /\ snd (Concrete.run_driver Concrete.out_spec Concrete.neg_params_a
            Concrete.neg_params_b "identity" default_max_iter false
            default_num_trials)
     = Raise (UnboundLocalError "best_perm_matrices").
Proof.
  assert (Hsizes : compute_perm_sizes
                     (perm_to_layers_and_axes (add_final_perm Concrete.out_spec))
                     Concrete.neg_params_a = Ok [("P_final", 1%nat)])
    by reflexivity.
  split; [exact Hsizes |]. unfold Concrete.run_driver.
  exact (@frank_wolfe_weight_matching_unbound_best
           Concrete.rng Concrete.torch_rand Concrete.seed_everything
           Concrete.np_random_randint Concrete.solve_linear_assignment_problem
           Concrete.fminbound Concrete.out_spec Concrete.neg_params_a
           Concrete.neg_params_b "identity" default_max_iter false
           default_num_trials [("P_final", 1%nat)] Hsizes
           negated_trials_return).
Defined.

(** C6. On the one-layer network whose permutee is the negated reference,
    the three trials of a default run return with the objective -1, the
    first one being the first of maximal objective, and the driver raises
    [UnboundLocalError] instead of hardening and returning it. *)
Theorem frank_wolfe_weight_matching_drops_best_nonpositive_trial :
  exists r1 r2 r3,
    Forall2
      (fun seed r =>
         frank_wolfe_weight_matching_trial Concrete.torch_rand
           Concrete.solve_linear_assignment_problem Concrete.fminbound
           Concrete.neg_params_a Concrete.neg_params_b [("P_final", 1%nat)]
           "identity" (add_final_perm Concrete.out_spec) default_max_iter
           (Concrete.seed_everything seed) = Ok r)
      (Concrete.np_random_randint 0 1000 default_num_trials) [r1; r2; r3]
    /\ first_argmax [r1; r2; r3] = Some r1
    /\ snd r1 == -1
    /\ snd (Concrete.run_driver Concrete.out_spec Concrete.neg_params_a
              Concrete.neg_params_b "identity" default_max_iter false
              default_num_trials)
       = Raise (UnboundLocalError "best_perm_matrices").
Proof.
  eexists _, _, _. split.
  { change (Concrete.np_random_randint 0 1000 default_num_trials)
      with [0%Z; 1%Z; 2%Z].
    repeat (apply Forall2_cons; [vm_compute; reflexivity |]).
    apply Forall2_nil. }
  split; [vm_compute; reflexivity |].
  split; vm_compute; reflexivity.
Qed.


(** ** The convergence test and the stopping rule *)

Lemma patience_update_spec (new_obj old_obj : Q) (patience_steps : nat) :
  (new_obj - old_obj < 1e-6 ->
   patience_update new_obj old_obj patience_steps = (S patience_steps, old_obj))
  /\ (~ new_obj - old_obj < 1e-6 ->
      patience_update new_obj old_obj patience_steps = (O, new_obj)).
Proof.
  unfold patience_update. split; intros H.
  - apply Qltb_lt in H. now rewrite H.
  - destruct (Qltb (new_obj - old_obj) 1e-6) eqn:E; [| reflexivity].
    apply Qltb_lt in E. contradiction.
Qed.

Lemma patience_update_bound (new_obj old_obj : Q) (patience_steps : nat) :
  (fst (patience_update new_obj old_obj patience_steps) <= S patience_steps)%nat.
Proof.
  unfold patience_update.
  destruct (Qltb (new_obj - old_obj) 1e-6); simpl; lia.
Qed.

(** What the loop leaves after [iterations] passes from a state below the
    patience limit. *)
Lemma trial_loop_stops
  (body : Dict.t PermutationMatrix -> result (Dict.t PermutationMatrix * Q))
  (iterations : nat) :
  forall st st',
    (ts_patience_steps st < 15)%nat ->
    trial_loop body iterations st = Ok st' ->
    (ts_patience_steps st' <= 15)%nat
    /\ ((ts_patience_steps st' < 15)%nat ->
        length (ts_history st') = (length (ts_history st) + iterations)%nat)
    /\ (ts_patience_steps st' = 15%nat ->
        exists k, (k < iterations)%nat
                  /\ length (ts_history st') = (length (ts_history st) + k)%nat)
    /\ ((0 < iterations)%nat -> ts_new_obj st' <> None).
Proof.
  induction iterations as [| n IH]; intros st st' H15 H.
  - injection H as <-. repeat split; lia.
  - rewrite trial_loop_S in H. inv_bind H. destruct a as [pm o].
    cbv beta iota in H.
    pose proof (patience_update_bound o (ts_old_obj st) (ts_patience_steps st))
      as Hb.
    destruct (patience_update o (ts_old_obj st) (ts_patience_steps st))
      as [patience old]. simpl in Hb.
    destruct (Nat.leb 15 patience) eqn:E.
    + apply Nat.leb_le in E. injection H as <-. simpl.
      repeat split; try lia; try discriminate.
      intros _. exists O. lia.
    + apply Nat.leb_gt in E. pose proof H as H0.
      apply IH in H; [| simpl; lia].
      simpl in H. rewrite length_app in H. simpl in H.
      destruct H as (H1 & H2 & H3 & H4). repeat split.
      * exact H1.
      * intros Hlt. rewrite (H2 Hlt). lia.
      * intros Heq. destruct (H3 Heq) as (k & Hk & Hlen).
        exists (S k). split; [lia |]. rewrite Hlen. lia.
      * intros _. destruct n as [| n'].
        -- injection H0 as <-. simpl. discriminate.
        -- apply H4. lia.
Qed.

Lemma trial_loop_total
  (body : Dict.t PermutationMatrix -> result (Dict.t PermutationMatrix * Q))
  (iterations : nat) :
  (forall pm, exists r, body pm = Ok r) ->
  forall st, exists st', trial_loop body iterations st = Ok st'.
Proof.
  intros Hbody. induction iterations as [| n IH]; intros st.
  - simpl. eauto.
  - rewrite trial_loop_S. destruct (Hbody (ts_perm_matrices st)) as [[pm o] ->].
    cbn [bind].
    destruct (patience_update o (ts_old_obj st) (ts_patience_steps st))
      as [patience old].
    destruct (Nat.leb 15 patience); eauto.
Qed.

(** A loop that ended below the patience limit continues, with one more
    iteration allowed, from the state it returned. *)
Lemma trial_loop_extend
  (body : Dict.t PermutationMatrix -> result (Dict.t PermutationMatrix * Q))
  (iterations : nat) :
  forall st st',
    trial_loop body iterations st = Ok st' ->
    (ts_patience_steps st' < 15)%nat ->
    trial_loop body (S iterations) st = trial_loop body 1 st'.
Proof.
  induction iterations as [| n IH]; intros st st' H Hlt.
  - injection H as <-. reflexivity.
  - rewrite trial_loop_S in H. rewrite (trial_loop_S body (S n)).
    destruct (body (ts_perm_matrices st)) as [[pm o] | e]; [| discriminate].
    cbn [bind] in *.
    destruct (patience_update o (ts_old_obj st) (ts_patience_steps st))
      as [patience old].
    destruct (Nat.leb 15 patience) eqn:E.
    + apply Nat.leb_le in E. injection H as <-. simpl in Hlt. lia.
    + apply IH; assumption.
Qed.

(** C5 (amended). One iteration compares the new objective with [old_obj],
    the objective recorded by the last iteration that improved on it by at
    least 1e-6 (0.0 at the start): below 1e-6 the patience counter is
    incremented and [old_obj] kept, otherwise the counter is reset to 0 and
    the new objective recorded.  From a state below the limit, the loop
    returns with a counter of at most 15; a counter below 15 means that all
    [iterations] passes ran, a counter of 15 that the loop stopped in an
    earlier or the last pass; after at least one pass the objective is bound;
    and a body that never raises gives a loop that never raises. *)
Theorem trial_loop_patience
  (body : Dict.t PermutationMatrix -> result (Dict.t PermutationMatrix * Q))
  (iterations : nat) (st : trial_state) :
  (ts_patience_steps st < 15)%nat ->
  (forall pm new_obj,
      body (ts_perm_matrices st) = Ok (pm, new_obj) ->
      exists st1,
        trial_loop body 1 st = Ok st1
        /\ ts_perm_matrices st1 = pm
        /\ ts_new_obj st1 = Some new_obj
        /\ (new_obj - ts_old_obj st < 1e-6 ->
            ts_patience_steps st1 = S (ts_patience_steps st)
            /\ ts_old_obj st1 = ts_old_obj st)
        /\ (~ new_obj - ts_old_obj st < 1e-6 ->
            ts_patience_steps st1 = O /\ ts_old_obj st1 = new_obj))
  /\ (forall st',
        trial_loop body iterations st = Ok st' ->
        (ts_patience_steps st' <= 15)%nat
        /\ ((ts_patience_steps st' < 15)%nat ->
            length (ts_history st')
            = (length (ts_history st) + iterations)%nat)
        /\ (ts_patience_steps st' = 15%nat ->
            exists k, (k < iterations)%nat
                      /\ length (ts_history st')
                         = (length (ts_history st) + k)%nat)
        /\ ((0 < iterations)%nat -> ts_new_obj st' <> None))
  /\ ((forall pm, exists r, body pm = Ok r) ->
      exists st', trial_loop body iterations st = Ok st').
Proof.
  intros H15. split; [| split].
  - intros pm new_obj Hbody. rewrite trial_loop_S, Hbody. cbn [bind].
    destruct (patience_update_spec new_obj (ts_old_obj st) (ts_patience_steps st))
      as [Hlt Hge].
    destruct (Qlt_le_dec (new_obj - ts_old_obj st) 1e-6) as [Hc | Hc].
    + rewrite (Hlt Hc).
      destruct (Nat.leb 15 (S (ts_patience_steps st))); eexists;
        (split; [reflexivity |]); simpl;
        (split; [reflexivity |]); (split; [reflexivity |]);
        (split; [intros _; split; reflexivity | intros Hn; contradiction]).
    + assert (Hn : ~ new_obj - ts_old_obj st < 1e-6) by lra.
      rewrite (Hge Hn). simpl. eexists. split; [reflexivity |]. simpl.
      split; [reflexivity |]. split; [reflexivity |].
      split; [intros Hc'; contradiction | intros _; split; reflexivity].
  - intros st' H. exact (@trial_loop_stops body iterations st st' H15 H).
  - intros Hbody. apply trial_loop_total. exact Hbody.
Qed.

(** Three iterations of the trial on [creep_*]: the loop returns below the
    limit with its objective bound. *)
Lemma trial_loop_patience_witness :
  let st0 := mkTrialState [("P_0", eye 2)] [[("P_0", eye 2)]] 0 0 None in
  (ts_patience_steps st0 < 15)%nat
  /\ exists st', Concrete.creep_states 3 = Ok st'
                 /\ ts_new_obj st' <> None
                 /\ length (ts_history st') = 4%nat.
Proof.
  intros st0.
  assert (H0 : (ts_patience_steps st0 < 15)%nat) by (simpl; lia).
  split; [exact H0 |].
  assert (Hrun : exists st', Concrete.creep_states 3 = Ok st'
                             /\ ts_patience_steps st' = O).
  { eexists. split; vm_compute; reflexivity. }
  destruct Hrun as (st' & Hrun & Hp). exists st'.
  split; [exact Hrun |].
  unfold Concrete.creep_states, trial_states in Hrun.
  change (initialize_perm_matrices Concrete.torch_rand Concrete.creep_sizes
            "identity" O)
    with (Ok ([("P_0", eye 2)], O) : result (Dict.t PermutationMatrix * nat))
    in Hrun.
  cbn [bind] in Hrun.
  destruct (@trial_loop_patience
              (trial_iteration Concrete.solve_linear_assignment_problem
                 Concrete.fminbound_near_upper Concrete.creep_params_a
                 Concrete.creep_params_b Concrete.creep_sizes
                 Concrete.creep_spec)
              3 st0 H0) as (_ & Hloop & _).
  destruct (Hloop _ Hrun) as (_ & Hlen & _ & Hobj).
  split; [apply Hobj; lia |]. rewrite Hlen by lia. reflexivity.
Defined.

(** C5, as stated, fails on [creep_*]: the third iteration raises the
    objective of the second by less than 1e-6, and the patience counter,
    1 after the second iteration, is 0 after the third, because the
    objective exceeds the recorded [old_obj] by more than 1e-6. *)
Lemma patience_reset_on_slow_improvement :
  exists st2 st3 o2 o3,
    Concrete.creep_states 2 = Ok st2
    /\ Concrete.creep_states 3 = Ok st3
    /\ trial_loop
         (trial_iteration Concrete.solve_linear_assignment_problem
            Concrete.fminbound_near_upper Concrete.creep_params_a
            Concrete.creep_params_b Concrete.creep_sizes Concrete.creep_spec)
         1 st2 = Ok st3
    /\ ts_new_obj st2 = Some o2 /\ ts_new_obj st3 = Some o3
    /\ o3 - o2 < 1e-6
    /\ ts_patience_steps st2 = 1%nat
    /\ ts_patience_steps st3 = 0%nat
    /\ ~ spec_patience_rule st2 st3.
Proof.
  eexists _, _, _, _.
  split; [vm_compute; reflexivity |].
  split; [vm_compute; reflexivity |].
  split; [vm_compute; reflexivity |].
  split; [vm_compute; reflexivity |].
  split; [vm_compute; reflexivity |].
  split; [vm_compute; reflexivity |].
  split; [vm_compute; reflexivity |].
  split; [vm_compute; reflexivity |].
  intros Hrule. specialize (Hrule _ _ eq_refl eq_refl).
  vm_compute in Hrule. discriminate.
Qed.

Section TrialReturns.

Variable rng : Type.
Variable torch_rand : nat -> nat -> rng -> mat * rng.
Variable solve_linear_assignment_problem : mat -> PermutationIndices.
Variable fminbound : (Q -> result Q) -> Q -> Q -> result Q.

(** With at least one iteration allowed, a trial whose initializer and
    iterations do not raise returns its matrices, history and objective. *)
Lemma frank_wolfe_weight_matching_trial_returns (params_a params_b : ModelParams)
  (perm_sizes : Dict.t nat) (initialization_method : string)
  (perm_spec : PermutationSpec) (max_iter : nat) (g g' : rng)
  (pm0 : Dict.t PermutationMatrix) :
  (0 < max_iter)%nat ->
  initialize_perm_matrices torch_rand perm_sizes initialization_method g
  = Ok (pm0, g') ->
  (forall pm, exists r,
      trial_iteration solve_linear_assignment_problem fminbound params_a
        params_b perm_sizes perm_spec pm = Ok r) ->
  exists pm h obj,
    frank_wolfe_weight_matching_trial torch_rand
      solve_linear_assignment_problem fminbound params_a params_b perm_sizes
      initialization_method perm_spec max_iter g = Ok (pm, h, obj).
Proof.
  intros Hpos Hinit Hbody.
  unfold frank_wolfe_weight_matching_trial, trial_states.
  rewrite Hinit. cbn [bind].
  set (st0 := mkTrialState pm0 [pm0] 0 0 None).
  assert (H0 : (ts_patience_steps st0 < 15)%nat) by (simpl; lia).
  destruct (@trial_loop_total _ max_iter Hbody st0) as [st' Hst'].
  rewrite Hst'. cbn [bind].
  destruct (@trial_loop_stops _ max_iter st0 st' H0 Hst') as (_ & _ & _ & Hobj).
  destruct (ts_new_obj st') as [o |]; [eauto |].
  exfalso. now apply Hobj.
Qed.

(** With no iteration allowed, [new_obj] is read before it is bound. *)
Lemma frank_wolfe_weight_matching_trial_zero_iterations
  (params_a params_b : ModelParams) (perm_sizes : Dict.t nat)
  (initialization_method : string) (perm_spec : PermutationSpec) (g g' : rng)
  (pm0 : Dict.t PermutationMatrix) :
  initialize_perm_matrices torch_rand perm_sizes initialization_method g
  = Ok (pm0, g') ->
  frank_wolfe_weight_matching_trial torch_rand
    solve_linear_assignment_problem fminbound params_a params_b perm_sizes
    initialization_method perm_spec 0 g
  = Raise (UnboundLocalError "new_obj").
Proof.
  intros Hinit. unfold frank_wolfe_weight_matching_trial, trial_states.
  rewrite Hinit. reflexivity.
Qed.

End TrialReturns.


(** ** The gradient of a permutation is the sum of its layers' terms *)

Ltac inv_bind_as H x Hx :=
  apply bind_ok_inv in H; destruct H as (x & Hx & H).


Lemma dict_get_app_last (V : Type) (p k : string) (v : V) (d : Dict.t V) :
  Dict.get p (d ++ [(k, v)])
  = match Dict.get p d with
    | Some x => Some x
    | None => if String.eqb p k then Some v else None
    end.
Proof.
  induction d as [| [k' v'] d IH]; simpl; [reflexivity |].
  destruct (String.eqb p k'); [reflexivity | exact IH].
Qed.







(** The hypothesis on the name is used: the guards test the name itself, so
    on [anon_*], where the permutation is named by the empty string, the
    accumulation is skipped and the gradient stays at zero. *)
Example empty_name_is_read_as_absent :
  weight_matching_gradient_fn_layerwise Concrete.anon_params
    Concrete.anon_params Concrete.anon_perms Concrete.anon_layers
    Concrete.anon_sizes = Ok [("", [[0]])]
  /\ layer_contributions Concrete.anon_params Concrete.anon_params
       Concrete.anon_perms "" ("w", [Some ""]) = Ok [[[1]]].
Proof. repeat split; vm_compute; reflexivity. Qed.


(** ** Convex combinations stay within tolerance of the Birkhoff polytope *)

Lemma Qabs_le_iff (x y : Q) : Qabs x <= y <-> - y <= x /\ x <= y.
Proof. apply Qabs_Qle_condition. Qed.

Lemma interp_row_unit (t : Q) (r1 r2 : vec) :
  0 <= t -> t <= 1 ->
  Forall (fun x => 0 <= x /\ x <= 1) r1 ->
  Forall (fun x => 0 <= x /\ x <= 1) r2 ->
  Forall (fun x => 0 <= x /\ x <= 1)
    (map2 Qplus (map (Qmult (1 - t)) r1) (map (Qmult t) r2)).
Proof.
  intros Ht0 Ht1 H1. revert r2.
  induction H1 as [| x r1 [Hx0 Hx1] _ IH]; intros r2 H2; simpl; [constructor |].
  destruct H2 as [| y r2 [Hy0 Hy1] H2]; simpl; constructor; [| apply IH; exact H2].
  split; nra.
Qed.

Lemma interp_row_sum (a b : Q) (r1 r2 : vec) :
  length r1 = length r2 ->
  vsum (map2 Qplus (map (Qmult a) r1) (map (Qmult b) r2))
  == a * vsum r1 + b * vsum r2.
Proof.
  revert r2. induction r1 as [| x r1 IH]; intros [| y r2] Hlen; simpl in *;
    try discriminate; [ring |].
  rewrite IH by congruence. ring.
Qed.

Lemma length_map2 (A B C : Type) (f : A -> B -> C) (l1 : list A) (l2 : list B) :
  length l1 = length l2 -> length (map2 f l1 l2) = length l1.
Proof.
  revert l2. induction l1 as [| a l1 IH]; intros [| b l2] H; simpl in *;
    try discriminate; [reflexivity |].
  f_equal. apply IH. congruence.
Qed.

Lemma nth_error_map2 (A B C : Type) (f : A -> B -> C) (l1 : list A)
  (l2 : list B) (j : nat) (x : A) (y : B) :
  nth_error l1 j = Some x -> nth_error l2 j = Some y ->
  nth_error (map2 f l1 l2) j = Some (f x y).
Proof.
  revert l2 j. induction l1 as [| a l1 IH]; intros [| b l2] [| j] H1 H2;
    simpl in *; try discriminate.
  - now injection H1 as ->; injection H2 as ->.
  - now apply IH.
Qed.

Lemma nth_error_Some_lt (A : Type) (l : list A) (j : nat) :
  (j < length l)%nat -> exists x, nth_error l j = Some x.
Proof.
  intros H. destruct (nth_error l j) eqn:E; [eauto |].
  apply nth_error_None in E. lia.
Qed.

Lemma vsum_cons (x : Q) (v : vec) : vsum (x :: v) = x + vsum v.
Proof. reflexivity. Qed.

Lemma col_cons_some (A : Type) (j : nat) (r : list A) (m : list (list A)) (x : A) :
  nth_error r j = Some x -> col j (r :: m) = x :: col j m.
Proof. intros H. unfold col. simpl. now rewrite H. Qed.

Lemma madd_raw_cons (r1 r2 : vec) (m1 m2 : mat) :
  madd_raw (r1 :: m1) (r2 :: m2) = map2 Qplus r1 r2 :: madd_raw m1 m2.
Proof. reflexivity. Qed.

Lemma mscale_cons (c : Q) (r : vec) (m : mat) :
  mscale c (r :: m) = map (Qmult c) r :: mscale c m.
Proof. reflexivity. Qed.

(** Column [j] of an interpolation sums to the interpolation of the sums. *)
Lemma interp_col_sum (a b : Q) (n j : nat) (m1 m2 : mat) :
  (j < n)%nat ->
  Forall (fun r => length r = n) m1 ->
  Forall (fun r => length r = n) m2 ->
  length m1 = length m2 ->
  vsum (col j (madd_raw (mscale a m1) (mscale b m2)))
  == a * vsum (col j m1) + b * vsum (col j m2).
Proof.
  intros Hj H1. revert m2.
  induction H1 as [| r1 m1 Hr1 _ IH]; intros m2 H2 Hlen;
    destruct H2 as [| r2 m2 Hr2 H2]; try discriminate.
  - unfold col. simpl. ring.
  - destruct (@nth_error_Some_lt _ r1 j) as [x Hx]; [lia |].
    destruct (@nth_error_Some_lt _ r2 j) as [y Hy]; [lia |].
    rewrite !mscale_cons, madd_raw_cons.
    rewrite (@col_cons_some _ j _ _ (a * x + b * y)).
    + rewrite (@col_cons_some _ j r1 m1 x Hx), (@col_cons_some _ j r2 m2 y Hy),
        !vsum_cons.
      rewrite (IH m2 H2) by (simpl in Hlen; congruence). ring.
    + apply nth_error_map2; rewrite nth_error_map; [now rewrite Hx | now rewrite Hy].
Qed.

Lemma ncols_map_map (A B : Type) (f : A -> B) (m : list (list A)) :
  ncols (map (map f) m) = ncols m.
Proof. destruct m; simpl; [reflexivity | apply length_map]. Qed.

Lemma mat_shape_mscale (c : Q) (m : mat) : mat_shape (mscale c m) = mat_shape m.
Proof.
  unfold mat_shape, mscale, nrows. now rewrite length_map, ncols_map_map.
Qed.

Lemma mat_shape_square (n : nat) (m : mat) :
  wf_mat n n m -> mat_shape m = [n; n].
Proof.
  intros H. unfold mat_shape, nrows. f_equal; [apply H |].
  f_equal. now apply wf_mat_square_ncols.
Qed.

Lemma interpolate_ok (t : Q) (n : nat) (P X : mat) :
  wf_mat n n P -> wf_mat n n X ->
  interpolate t P X = Ok (madd_raw (mscale (1 - t) P) (mscale t X)).
Proof.
  intros HP HX. unfold interpolate, madd.
  rewrite !mat_shape_mscale, (mat_shape_square HP), (mat_shape_square HX).
  unfold shape_eqb.
  destruct (list_eq_dec Nat.eq_dec [n; n] [n; n]); [reflexivity | congruence].
Qed.

Lemma wf_interp (a b : Q) (n : nat) (P X : mat) :
  wf_mat n n P -> wf_mat n n X ->
  wf_mat n n (madd_raw (mscale a P) (mscale b X)).
Proof.
  intros [HPl HPr] [HXl HXr]. split.
  - unfold madd_raw, mscale. rewrite length_map2; rewrite !length_map; lia.
  - clear HPl HXl. revert X HXr.
    induction HPr as [| r1 P Hr1 _ IH]; intros X HXr; [constructor |].
    destruct HXr as [| r2 X Hr2 HXr]; [constructor |].
    rewrite !mscale_cons, madd_raw_cons. constructor; [| apply IH; exact HXr].
    rewrite length_map2; rewrite !length_map; lia.
Qed.

Lemma col_sums_within_iff (n : nat) (tol : Q) (m : mat) :
  wf_mat n n m ->
  sums_within tol (col_sums m)
  <-> forall j, (j < n)%nat -> Qabs (vsum (col j m) - 1) <= tol.
Proof.
  intros Hm. unfold sums_within, col_sums, transpose.
  rewrite (wf_mat_square_ncols Hm), map_map, Forall_map, Forall_forall.
  split.
  - intros H j Hj. apply H. apply in_seq. lia.
  - intros H j Hj. apply H. apply in_seq in Hj. lia.
Qed.

Lemma interp_sum_within (t tol s1 s2 s : Q) :
  0 <= t -> t <= 1 -> 0 <= tol ->
  Qabs (s1 - 1) <= tol -> Qabs (s2 - 1) <= 0 ->
  s == (1 - t) * s1 + t * s2 ->
  Qabs (s - 1) <= tol.
Proof.
  intros Ht0 Ht1 Htol H1 H2 Hs. rewrite Hs.
  apply Qabs_le_iff in H1, H2. apply Qabs_le_iff.
  destruct H1 as [H1a H1b], H2 as [H2a H2b]. split; nra.
Qed.

(** A step of size [t] in [0, 1] from a matrix within [tol] of the polytope
    towards a matrix of the polytope stays within [tol]. *)
Lemma near_birkhoff_interpolate (t tol : Q) (n : nat) (P X : mat) :
  0 <= t -> t <= 1 -> 0 <= tol ->
  near_birkhoff n tol P -> near_birkhoff n 0 X ->
  exists M, interpolate t P X = Ok M /\ near_birkhoff n tol M.
Proof.
  intros Ht0 Ht1 Htol (HPwf & HPu & HPr & HPc) (HXwf & HXu & HXr & HXc).
  exists (madd_raw (mscale (1 - t) P) (mscale t X)).
  split; [now apply (@interpolate_ok t n) |].
  pose proof (wf_interp (1 - t) t HPwf HXwf) as Hwf.
  split; [exact Hwf |]. split; [| split].
  - destruct HPwf as [HPl HPw], HXwf as [HXl HXw].
    assert (Hlen : length P = length X) by congruence.
    clear - Ht0 Ht1 HPu HXu Hlen. unfold entries_in_unit in *.
    revert X HXu Hlen.
    induction HPu as [| r1 P Hr1 _ IH]; intros X HXu Hlen; [constructor |].
    destruct HXu as [| r2 X Hr2 HXu]; [discriminate |].
    rewrite !mscale_cons, madd_raw_cons.
    constructor; [now apply interp_row_unit |].
    apply IH; [exact HXu | simpl in Hlen; congruence].
  - destruct HPwf as [HPl HPw], HXwf as [HXl HXw].
    assert (Hlen : length P = length X) by congruence.
    clear - Ht0 Ht1 Htol HPr HXr HPw HXw Hlen.
    unfold sums_within, row_sums in *. rewrite Forall_map in *.
    revert X HXr HXw Hlen.
    induction HPw as [| r1 P Hr1 _ IH]; intros X HXr HXw Hlen; [constructor |].
    destruct HXw as [| r2 X Hr2 HXw]; [discriminate |].
    inversion HPr as [| ? ? Hs1 HPr']; subst.
    inversion HXr as [| ? ? Hs2 HXr']; subst.
    rewrite !mscale_cons, madd_raw_cons.
    constructor.
    + apply (@interp_sum_within t tol (vsum r1) (vsum r2)); auto.
      apply interp_row_sum. congruence.
    + apply IH; auto.
  - apply (col_sums_within_iff tol Hwf). intros j Hj.
    pose proof (proj1 (col_sums_within_iff tol HPwf) HPc j Hj) as H1.
    pose proof (proj1 (col_sums_within_iff 0 HXwf) HXc j Hj) as H2.
    apply (@interp_sum_within t tol (vsum (col j P)) (vsum (col j X))); auto.
    destruct HPwf as [HPl HPw], HXwf as [HXl HXw].
    apply (@interp_col_sum (1 - t) t n j); auto. congruence.
Qed.

(** ** Permutation matrices lie in the polytope *)

Lemma vsum_map_permutation (f : nat -> Q) (l l' : list nat) :
  Permutation l l' -> vsum (map f l) == vsum (map f l').
Proof.
  induction 1 as [| x l l' _ IH | x y l | l l' l'' _ IH1 _ IH2]; simpl.
  - reflexivity.
  - now rewrite IH.
  - ring.
  - now rewrite IH1.
Qed.

Lemma onehot_sum_below (c s n : nat) :
  (c < s)%nat ->
  vsum (map (fun j => if Nat.eqb j c then 1 else 0) (seq s n)) == 0.
Proof.
  revert s. induction n as [| n IH]; intros s Hc; simpl; [reflexivity |].
  rewrite IH by lia.
  destruct (Nat.eqb s c) eqn:E; [apply Nat.eqb_eq in E; lia | ring].
Qed.

Lemma onehot_sum_within (c s n : nat) :
  (s <= c)%nat -> (c < s + n)%nat ->
  vsum (map (fun j => if Nat.eqb j c then 1 else 0) (seq s n)) == 1.
Proof.
  revert s. induction n as [| n IH]; intros s Hs Hc; simpl; [lia |].
  destruct (Nat.eqb s c) eqn:E.
  - apply Nat.eqb_eq in E. rewrite onehot_sum_below by lia. ring.
  - apply Nat.eqb_neq in E. rewrite IH by lia. ring.
Qed.

Lemma onehot_sum_in (c n : nat) :
  (c < n)%nat ->
  vsum (map (fun j => if Nat.eqb j c then 1 else 0) (seq 0 n)) == 1.
Proof. intros H. apply onehot_sum_within; lia. Qed.

Lemma Qabs_zero_le (x : Q) : x == 1 -> Qabs (x - 1) <= 0.
Proof.
  intros H. apply Qabs_le_iff. split; lra.
Qed.

Lemma col_map_rows (A : Type) (f : A -> list Q) (j : nat) (l : list A)
  (g : A -> Q) :
  (forall a, In a l -> nth_error (f a) j = Some (g a)) ->
  col j (map f l) = map g l.
Proof.
  induction l as [| a l IH]; intros H; [reflexivity |].
  cbn [map]. rewrite (@col_cons_some _ j (f a) (map f l) (g a)).
  - f_equal. apply IH. intros a' Ha'. apply H. now right.
  - apply H. now left.
Qed.

Lemma near_birkhoff_perm_matrix (n : nat) (indices : list nat) :
  is_permutation_indices n indices ->
  near_birkhoff n 0 (perm_indices_to_perm_matrix indices).
Proof.
  unfold is_permutation_indices. intros Hperm.
  assert (Hlen : length indices = n).
  { rewrite (Permutation_length Hperm). apply length_seq. }
  assert (Hin : forall c, In c indices -> (c < n)%nat).
  { intros c Hc. apply (Permutation_in _ Hperm) in Hc.
    apply in_seq in Hc. lia. }
  unfold perm_indices_to_perm_matrix. rewrite Hlen.
  assert (Hwf : wf_mat n n
                  (map (fun c => map (fun j => if Nat.eqb j c then 1 else 0)
                                     (seq 0 n)) indices)).
  { split; [now rewrite length_map |].
    apply Forall_map, Forall_forall. intros c _.
    now rewrite length_map, length_seq. }
  split; [exact Hwf |]. split; [| split].
  - unfold entries_in_unit. apply Forall_map, Forall_forall. intros c _.
    apply Forall_map, Forall_forall. intros j _.
    destruct (Nat.eqb j c); split; lra.
  - unfold sums_within, row_sums. rewrite map_map.
    apply Forall_map, Forall_forall. intros c Hc.
    apply Qabs_zero_le, onehot_sum_in, Hin, Hc.
  - apply (col_sums_within_iff 0 Hwf). intros j Hj.
    apply Qabs_zero_le.
    rewrite (@col_map_rows _ _ j indices
               (fun c => if Nat.eqb j c then 1 else 0)).
    + rewrite (vsum_map_permutation _ Hperm).
      rewrite (map_ext _ (fun c => if Nat.eqb c j then 1 else 0))
        by (intros c; now rewrite Nat.eqb_sym).
      now apply onehot_sum_in.
    + intros c _. rewrite nth_error_map.
      rewrite nth_error_nth' with (d := O) by (rewrite length_seq; lia).
      rewrite seq_nth by lia. reflexivity.
Qed.

Lemma eye_as_perm_matrix (n : nat) :
  eye n = perm_indices_to_perm_matrix (seq 0 n).
Proof.
  unfold eye, perm_indices_to_perm_matrix. rewrite length_seq.
  apply map_ext. intros i. apply map_ext. intros j.
  now rewrite Nat.eqb_sym.
Qed.

Lemma near_birkhoff_eye (n : nat) : near_birkhoff n 0 (eye n).
Proof.
  rewrite eye_as_perm_matrix. apply near_birkhoff_perm_matrix.
  unfold is_permutation_indices. apply Permutation_refl.
Qed.

Lemma near_birkhoff_weaken (n : nat) (tol : Q) (m : mat) :
  0 <= tol -> near_birkhoff n 0 m -> near_birkhoff n tol m.
Proof.
  intros Htol (Hwf & Hu & Hr & Hc). split; [exact Hwf |].
  split; [exact Hu |].
  split; (eapply Forall_impl; [| eassumption]); simpl; intros s Hs; lra.
Qed.

(** With tolerance 0 the polytope is met exactly. *)
Lemma near_birkhoff_zero (n : nat) (m : mat) :
  near_birkhoff n 0 m <-> birkhoff n m.
Proof.
  unfold near_birkhoff, birkhoff, birkhoff_within, sums_within, sums_to_one.
  assert (Hiff : forall s, Qabs (s - 1) <= 0 <-> s == 1).
  { intros s. rewrite Qabs_le_iff. split; [intros [H1 H2]; lra | intros H; split; lra]. }
  split; intros (Hwf & Hu & Hr & Hc);
    (split; [exact Hwf | split; [exact Hu | split]]);
    (eapply Forall_impl; [| eassumption]); intros s Hs; now apply Hiff.
Qed.

(** ** Shapes of the gradients *)

Lemma madd_length (g grad g' : mat) :
  madd g grad = Ok g' -> length g' = length g.
Proof.
  unfold madd, shape_eqb, mat_shape, nrows.
  destruct (list_eq_dec Nat.eq_dec _ _) as [E |]; [| discriminate].
  intros H. injection H as <-. injection E as El _.
  unfold madd_raw. now apply length_map2.
Qed.

Lemma zero_gradients_sized (perm_matrices : Dict.t PermutationMatrix)
  (perm_sizes : Dict.t nat) (gradients : Dict.t mat) :
  zero_gradients perm_matrices perm_sizes = Ok gradients ->
  sized_by perm_sizes gradients.
Proof.
  unfold zero_gradients. apply for_each_invariant.
  - intros acc p0 acc' _ Hacc H. inv_bind H. injection H as <-.
    intros p g Hg. rewrite dict_get_app_last in Hg.
    destruct (Dict.get p acc) as [g1 |] eqn:E.
    + injection Hg as <-. now apply Hacc.
    + destruct (String.eqb p p0) eqn:Ep; [| discriminate].
      apply String.eqb_eq in Ep. subst p0. injection Hg as <-.
      unfold Dict.getitem in Ha. destruct (Dict.get p perm_sizes); [| discriminate].
      injection Ha as ->. exists a. split; [reflexivity |].
      unfold zeros. apply repeat_length.
  - intros p g Hg. discriminate.
Qed.

Lemma accumulate_sized (perm_sizes : Dict.t nat) (gradients gradients' : Dict.t mat)
  (id : option string) (grad : mat) :
  sized_by perm_sizes gradients ->
  accumulate gradients id grad = Ok gradients' ->
  sized_by perm_sizes gradients'.
Proof.
  intros Hs H. unfold accumulate in H.
  destruct (truthy id) as [q |]; [| now injection H as <-].
  inv_bind H. inv_bind H. injection H as <-.
  intros p g Hg. destruct (string_dec q p) as [-> | Hne].
  - rewrite dict_get_set_same in Hg. injection Hg as <-.
    unfold Dict.getitem in Ha. destruct (Dict.get p gradients) as [g0 |] eqn:E;
      [| discriminate].
    injection Ha as ->. destruct (Hs _ _ E) as (n & Hn & Hl).
    exists n. split; [exact Hn |]. rewrite (madd_length _ _ Ha0). exact Hl.
  - rewrite dict_get_set_other in Hg by exact Hne. now apply Hs.
Qed.

Lemma gradients_sized (params_a params_b : ModelParams)
  (perm_matrices : Dict.t PermutationMatrix)
  (layers_and_axes_to_perms : Dict.t (list (option string)))
  (perm_sizes : Dict.t nat) (gradients : Dict.t mat) :
  weight_matching_gradient_fn_layerwise params_a params_b perm_matrices
    layers_and_axes_to_perms perm_sizes = Ok gradients ->
  sized_by perm_sizes gradients.
Proof.
  unfold weight_matching_gradient_fn_layerwise. intros H.
  inv_bind_as H gr0 Hz. apply zero_gradients_sized in Hz.
  revert H. apply for_each_invariant; [| exact Hz].
  intros gr [layer axes] gr' _ Hgr Hbody.
  inv_bind_as Hbody ops Hops. destruct ops as [Wa Wb].
  inv_bind_as Hbody pr Hpr.
  destruct pr as [[[row_perm_id row_perm] col_perm_id] col_perm].
  inv_bind_as Hbody gc Hgc. inv_bind_as Hbody gp Hgp.
  inv_bind_as Hbody gr1 Hacc.
  eapply accumulate_sized; [| exact Hbody].
  eapply accumulate_sized; [exact Hgr | exact Hacc].
Qed.

Lemma dict_get_map (V W : Type) (f : V -> W) (p : string) (d : Dict.t V) :
  Dict.get p (map (fun '(k, v) => (k, f v)) d) = option_map f (Dict.get p d).
Proof.
  induction d as [| [k v] d IH]; simpl; [reflexivity |].
  destruct (String.eqb p k); [reflexivity | exact IH].
Qed.

(** ** The matrices of a trial stay within tolerance of the polytope *)

Section Polytope.

Variable rng : Type.
Variable torch_rand : nat -> nat -> rng -> mat * rng.
Variable solve_linear_assignment_problem : mat -> PermutationIndices.
Variable fminbound : (Q -> result Q) -> Q -> Q -> result Q.

(** The contracts of the two collaborators: the projector answers a
    permutation of the rows of its argument, the line search a point of
    [0, 1]. *)
Hypothesis projector_permutes :
  forall G, is_permutation_indices (length G) (solve_linear_assignment_problem G).
Hypothesis line_search_bounded :
  forall f t, fminbound f 0 1 = Ok t -> 0 <= t /\ t <= 1.

Lemma trial_iteration_near_birkhoff (params_a params_b : ModelParams)
  (perm_sizes : Dict.t nat) (perm_spec : PermutationSpec) (tol : Q)
  (pm pm' : Dict.t PermutationMatrix) (o : Q) :
  0 <= tol ->
  NoDup (Dict.keys pm) ->
  all_near_birkhoff perm_sizes tol pm ->
  trial_iteration solve_linear_assignment_problem fminbound params_a params_b
    perm_sizes perm_spec pm = Ok (pm', o) ->
  all_near_birkhoff perm_sizes tol pm'.
Proof.
  intros Htol Hnd Hpm H. unfold trial_iteration in H.
  inv_bind_as H gradients Hgrad. inv_bind_as H t Ht.
  inv_bind_as H pm1 Hupd. inv_bind_as H new_obj Hobj. injection H as <- _.
  apply line_search_bounded in Ht. destruct Ht as [Ht0 Ht1].
  apply gradients_sized in Hgrad.
  rewrite update_perm_matrices_as_store in Hupd.
  intros p m' Hget.
  rewrite (@store_loop_get _ _ _ p Hnd _ _ Hupd) in Hget.
  destruct (Dict.get p pm) as [v |] eqn:Ev; [| discriminate].
  destruct (Hpm _ _ Ev) as (n & Hn & Hv).
  exists n. split; [exact Hn |].
  destruct (is_fixed p).
  - injection Hget as <-. exact Hv.
  - unfold Dict.getitem in Hget. unfold project_gradients, Dict.items in Hget.
    rewrite dict_get_map in Hget.
    destruct (Dict.get p gradients) as [g |] eqn:Eg; [| discriminate].
    simpl in Hget.
    destruct (Hgrad _ _ Eg) as (n' & Hn' & Hlen).
    assert (En : n' = n) by congruence.
    pose proof (projector_permutes g) as Hperm. rewrite Hlen, En in Hperm.
    apply near_birkhoff_perm_matrix in Hperm.
    destruct (@near_birkhoff_interpolate t tol n v _ Ht0 Ht1 Htol Hv Hperm)
      as (M & HM & HMn).
    rewrite HM in Hget. injection Hget as <-. exact HMn.
Qed.

(** C4 (amended). Let the projector answer permutations and the line search
    a step of [0, 1].  In a trial started with the method "identity", or
    from matrices that are within [tol] of the Birkhoff polytope, every
    permutation variable's matrix is, in the final state and in every
    snapshot of the history, a square matrix of its size with entries in
    [0, 1] and row and column sums within [tol] of 1. *)
Theorem trial_matrices_near_birkhoff (params_a params_b : ModelParams)
  (perm_sizes : Dict.t nat) (initialization_method : string)
  (perm_spec : PermutationSpec) (max_iter : nat) (g g' : rng)
  (pm0 : Dict.t PermutationMatrix) (st : trial_state) (tol : Q) :
  0 <= tol ->
  NoDup (Dict.keys perm_sizes) ->
  initialize_perm_matrices torch_rand perm_sizes initialization_method g
  = Ok (pm0, g') ->
  initialization_method = "identity" \/ all_near_birkhoff perm_sizes tol pm0 ->
  trial_states torch_rand solve_linear_assignment_problem fminbound params_a
    params_b perm_sizes initialization_method perm_spec max_iter g = Ok st ->
  all_near_birkhoff perm_sizes tol (ts_perm_matrices st)
  /\ Forall (all_near_birkhoff perm_sizes tol) (ts_history st).
Proof.
  intros Htol Hnd Hinit Hstart H.
  assert (H0 : all_near_birkhoff perm_sizes tol pm0).
  { destruct Hstart as [-> | H0]; [| exact H0].
    intros p m Hget.
    rewrite (@initialize_identity_get _ _ _ _ _ _ p Hinit) in Hget.
    destruct (Dict.get p perm_sizes) as [n |]; [| discriminate].
    injection Hget as <-. exists n. split; [reflexivity |].
    apply near_birkhoff_weaken; [exact Htol | apply near_birkhoff_eye]. }
  unfold trial_states in H. rewrite Hinit in H. cbn [bind] in H.
  pose proof (@initialize_perm_matrices_keys _ _ _ _ _ _ _ Hinit) as Hkeys.
  set (P := fun pm : Dict.t PermutationMatrix =>
              Dict.keys pm = Dict.keys pm0
              /\ all_near_birkhoff perm_sizes tol pm).
  assert (Hinv : P (ts_perm_matrices st) /\ Forall P (ts_history st)).
  { eapply trial_loop_invariant; [| | | exact H].
    - intros pm pm' o [Hk Hb] Hbody.
      assert (Hndpm : NoDup (Dict.keys pm)) by (rewrite Hk, Hkeys; exact Hnd).
      split.
      + rewrite <- Hk. eapply trial_iteration_keys; eauto.
      + eapply trial_iteration_near_birkhoff; eauto.
    - simpl. split; [reflexivity | exact H0].
    - simpl. repeat constructor. exact H0. }
  destruct Hinv as [[_ Hfin] Hhist]. split; [exact Hfin |].
  eapply Forall_impl; [| exact Hhist]. intros h [_ Hh]. exact Hh.
Qed.

End Polytope.

(** ** The executable collaborators meet their contracts *)

Lemma insert_everywhere_permutation (A : Type) (x : A) (l y : list A) :
  In y (Concrete.insert_everywhere x l) -> Permutation y (x :: l).
Proof.
  revert y. induction l as [| a l IH]; simpl; intros y Hy.
  - destruct Hy as [<- | []]. apply Permutation_refl.
  - destruct Hy as [<- | Hy]; [apply Permutation_refl |].
    apply in_map_iff in Hy. destruct Hy as (z & <- & Hz).
    apply IH in Hz. rewrite Hz. apply perm_swap.
Qed.

Lemma perms_permutation (A : Type) (l p : list A) :
  In p (Concrete.perms l) -> Permutation p l.
Proof.
  revert p. induction l as [| x l IH]; simpl; intros p Hp.
  - destruct Hp as [<- | []]. apply Permutation_refl.
  - apply in_flat_map in Hp. destruct Hp as (q & Hq & Hp).
    apply insert_everywhere_permutation in Hp. rewrite Hp.
    apply perm_skip. now apply IH.
Qed.

Lemma perms_nonempty (A : Type) (l : list A) : Concrete.perms l <> [].
Proof.
  induction l as [| x l IH]; simpl; [discriminate |].
  destruct (Concrete.perms l) as [| q qs]; [congruence |]. simpl.
  destruct q; simpl; discriminate.
Qed.

Lemma fold_left_choice (A : Type) (better : A -> A -> bool) (l : list A) :
  forall best,
    In (fold_left (fun best c => if better c best then c else best) l best)
       (best :: l).
Proof.
  induction l as [| c l IH]; intros best; simpl; [auto |].
  destruct (IH (if better c best then c else best)) as [H | H].
  - destruct (better c best); rewrite <- H; auto.
  - auto.
Qed.

Lemma concrete_projector_permutes (G : mat) :
  is_permutation_indices (length G) (Concrete.solve_linear_assignment_problem G).
Proof.
  unfold is_permutation_indices, Concrete.solve_linear_assignment_problem.
  apply perms_permutation.
  pose proof (perms_nonempty (seq 0 (length G))) as Hne.
  destruct (Concrete.perms (seq 0 (length G))) as [| c cs]; [congruence |].
  simpl hd. simpl tl.
  apply (fold_left_choice
           (fun c best =>
              Qgtb (Concrete.assignment_score G c)
                   (Concrete.assignment_score G best))).
Qed.

Lemma concrete_line_search_bounded (f : Q -> result Q) (t : Q) :
  Concrete.fminbound f 0 1 = Ok t -> 0 <= t /\ t <= 1.
Proof.
  unfold Concrete.fminbound.
  apply (for_each_invariant (fun t => 0 <= t /\ t <= 1)); [| split; lra].
  intros best c best' Hin Hbest H.
  inv_bind_as H v Hv. inv_bind_as H vb Hvb. injection H as <-.
  destruct (Qltb v vb); [| exact Hbest].
  unfold Concrete.grid in Hin. simpl in Hin.
  destruct Hin as [<- | [<- | [<- | [<- | []]]]]; split; lra.
Qed.

Lemma trial_matrices_near_birkhoff_witness :
  0 <= 0
  /\ NoDup (Dict.keys Concrete.mlp_sizes)
  /\ exists st,
       trial_states Concrete.torch_rand Concrete.solve_linear_assignment_problem
         Concrete.fminbound Concrete.mlp_params_a Concrete.mlp_params_b
         Concrete.mlp_sizes "identity" Concrete.mlp_spec 3 O = Ok st
       /\ all_near_birkhoff Concrete.mlp_sizes 0 (ts_perm_matrices st)
       /\ Forall (all_near_birkhoff Concrete.mlp_sizes 0) (ts_history st).
Proof.
  assert (Htol : 0 <= 0) by lra.
  assert (Hnd : NoDup (Dict.keys Concrete.mlp_sizes)).
  { simpl. constructor; [simpl; intros [H | []]; discriminate |].
    constructor; [intros [] | constructor]. }
  split; [exact Htol |]. split; [exact Hnd |].
  assert (Hrun : exists st,
             trial_states Concrete.torch_rand
               Concrete.solve_linear_assignment_problem Concrete.fminbound
               Concrete.mlp_params_a Concrete.mlp_params_b Concrete.mlp_sizes
               "identity" Concrete.mlp_spec 3 O = Ok st).
  { eexists. vm_compute. reflexivity. }
  destruct Hrun as [st Hrun]. exists st. split; [exact Hrun |].
  exact (@trial_matrices_near_birkhoff Concrete.rng Concrete.torch_rand
           Concrete.solve_linear_assignment_problem Concrete.fminbound
           concrete_projector_permutes concrete_line_search_bounded
           Concrete.mlp_params_a Concrete.mlp_params_b Concrete.mlp_sizes
           "identity" Concrete.mlp_spec 3 O O
           [("P_0", eye 2); ("P_final", eye 1)] st 0 Htol Hnd eq_refl
           (or_introl eq_refl) Hrun).
Defined.

(** C4, as stated, fails at the initial state of the method "random": the
    draw for [P_0] has rows of sums 0.9 and 1.1. *)
Lemma random_init_outside_birkhoff :
  exists pm g' m,
    initialize_perm_matrices Concrete.torch_rand Concrete.mlp_sizes "random" O
    = Ok (pm, g')
    /\ Dict.get "P_0" pm = Some m
    /\ is_fixed "P_0" = false
    /\ ~ birkhoff_within 1e-5 m.
Proof.
  eexists _, _, _. split; [vm_compute; reflexivity |].
  split; [reflexivity |]. split; [reflexivity |].
  intros (_ & Hrows & _). unfold sums_within, row_sums in Hrows.
  cbn [map] in Hrows. inversion Hrows as [| ? ? H _]; subst.
  apply Qabs_le_iff in H. destruct H as [H _].
  vm_compute in H. apply H. reflexivity.
Qed.


(* ================================================================= *)
(** ** The row term of the gradient ([compute_gradient_P_curr]) *)

(** *** Finite sums *)

Lemma bigsum_ext (n : nat) (f g : nat -> Q) :
  (forall i, (i < n)%nat -> f i == g i) -> bigsum n f == bigsum n g.
Proof.
  induction n as [| n IH]; intros H; simpl; [reflexivity |].
  rewrite IH by (intros i Hi; apply H; lia). rewrite (H n) by lia. reflexivity.
Qed.

Lemma bigsum_plus (n : nat) (f g : nat -> Q) :
  bigsum n (fun i => f i + g i) == bigsum n f + bigsum n g.
Proof. induction n as [| n IH]; simpl; [ring | rewrite IH; ring]. Qed.

Lemma bigsum_scale_l (n : nat) (c : Q) (f : nat -> Q) :
  bigsum n (fun i => c * f i) == c * bigsum n f.
Proof. induction n as [| n IH]; simpl; [ring | rewrite IH; ring]. Qed.

Lemma bigsum_scale_r (n : nat) (c : Q) (f : nat -> Q) :
  bigsum n (fun i => f i * c) == bigsum n f * c.
Proof. induction n as [| n IH]; simpl; [ring | rewrite IH; ring]. Qed.

Lemma bigsum_exchange (n m : nat) (f : nat -> nat -> Q) :
  bigsum n (fun i => bigsum m (fun j => f i j))
  == bigsum m (fun j => bigsum n (fun i => f i j)).
Proof.
  induction n as [| n IH]; simpl.
  - induction m as [| m IHm]; simpl; [reflexivity | rewrite <- IHm; ring].
  - rewrite IH, bigsum_plus. reflexivity.
Qed.

Lemma bigsum_shift (n : nat) (f : nat -> Q) :
  bigsum (S n) f == f O + bigsum n (fun k => f (S k)).
Proof.
  induction n as [| n IH]; [simpl; ring |].
  change (bigsum (S (S n)) f) with (bigsum (S n) f + f (S n)).
  rewrite IH. simpl. ring.
Qed.

Lemma vsum_bigsum (v : vec) :
  vsum v == bigsum (length v) (fun k => nth k v 0).
Proof.
  induction v as [| x v IH]; [reflexivity |].
  cbn [length]. rewrite bigsum_shift. simpl. rewrite IH. reflexivity.
Qed.

Lemma dot_bigsum (u v : vec) :
  length u = length v ->
  dot u v == bigsum (length u) (fun k => nth k u 0 * nth k v 0).
Proof.
  revert v. induction u as [| x u IH]; intros [| y v] H; try discriminate;
    [reflexivity |].
  cbn [length]. rewrite bigsum_shift. simpl nth.
  rewrite <- IH by (simpl in H; congruence). reflexivity.
Qed.

(** ** Entries of transposes and products *)

Lemma nth_map_in (A B : Type) (f : A -> B) (l : list A) (i : nat) (da : A)
  (db : B) :
  (i < length l)%nat -> nth i (map f l) db = f (nth i l da).
Proof.
  intros H. rewrite (nth_indep _ db (f da)) by now rewrite length_map.
  apply map_nth.
Qed.

Lemma col_as_map (j : nat) (m : mat) :
  Forall (fun r => (j < length r)%nat) m ->
  col j m = map (fun r => nth j r 0) m.
Proof.
  induction 1 as [| r m Hr _ IH]; [reflexivity |].
  destruct (@nth_error_Some_lt _ r j Hr) as [x Hx].
  rewrite (@col_cons_some _ j r m x Hx), IH. simpl.
  now rewrite (nth_error_nth _ _ 0 Hx).
Qed.

Lemma nth_transpose (m : mat) (j : nat) :
  (j < ncols m)%nat -> nth j (transpose m) [] = col j m.
Proof.
  intros H. unfold transpose.
  rewrite (@nth_map_in _ _ (fun j => col j m) _ j O) by now rewrite length_seq.
  now rewrite seq_nth.
Qed.

Lemma wf_rows_lt (r c j : nat) (m : mat) :
  wf_mat r c m -> (j < c)%nat -> Forall (fun row => (j < length row)%nat) m.
Proof.
  intros [_ H] Hj. eapply Forall_impl; [| exact H]. simpl. intros a Ha. lia.
Qed.

Lemma entry_transpose (r c i j : nat) (m : mat) :
  wf_mat r c m -> (0 < r)%nat -> (i < r)%nat -> (j < c)%nat ->
  entry (transpose m) j i = entry m i j.
Proof.
  intros Hm Hr Hi Hj. unfold entry.
  rewrite nth_transpose by (rewrite (wf_mat_ncols Hm); lia).
  rewrite (col_as_map (wf_rows_lt Hm Hj)).
  apply (@nth_map_in _ _ (fun r0 => nth j r0 0) m i [] 0).
  destruct Hm as [-> _]. exact Hi.
Qed.

Lemma wf_transpose_pos (r c : nat) (m : mat) :
  wf_mat r c m -> (0 < r)%nat -> wf_mat c r (transpose m).
Proof.
  intros Hm Hr. apply wf_transpose; [exact Hm |].
  apply (wf_mat_ncols Hm). lia.
Qed.

Lemma wf_row_length (r c i : nat) (m : mat) :
  wf_mat r c m -> (i < r)%nat -> length (nth i m []) = c.
Proof.
  intros [Hl Hrows] Hi. rewrite Forall_forall in Hrows.
  apply Hrows. apply nth_In. lia.
Qed.

Lemma entry_matmul (r k c i j : nat) (a b : mat) :
  wf_mat r k a -> wf_mat k c b -> (0 < k)%nat -> (i < r)%nat -> (j < c)%nat ->
  entry (matmul_raw a b) i j
  == bigsum k (fun l => entry a i l * entry b l j).
Proof.
  intros Ha Hb Hk Hi Hj. unfold entry at 1, matmul_raw.
  rewrite (@nth_map_in _ _ _ a i [] []) by (destruct Ha as [-> _]; exact Hi).
  pose proof (wf_mat_ncols Hb) as Hnc.
  rewrite (@nth_map_in _ _ _ (transpose b) j [] 0)
    by (unfold transpose; rewrite length_map, length_seq, Hnc; lia).
  rewrite nth_transpose by (rewrite Hnc; lia).
  rewrite (col_as_map (wf_rows_lt Hb Hj)).
  rewrite dot_bigsum
    by (rewrite length_map, (wf_row_length Ha Hi); symmetry; apply Hb).
  rewrite (wf_row_length Ha Hi).
  apply bigsum_ext. intros l Hl. unfold entry.
  rewrite (@nth_map_in _ _ (fun r0 => nth j r0 0) b l [] 0)
    by (destruct Hb as [-> _]; exact Hl).
  reflexivity.
Qed.

Lemma wf_matmul (r k c : nat) (a b : mat) :
  wf_mat r k a -> wf_mat k c b -> (0 < k)%nat -> wf_mat r c (matmul_raw a b).
Proof.
  intros Ha Hb Hk. pose proof (wf_matmul_raw a b) as H.
  rewrite (wf_mat_ncols Hb) in H by lia. destruct Ha as [Hl _].
  now rewrite Hl in H.
Qed.

Lemma Forall2_nth_intro (A B : Type) (R : A -> B -> Prop) (da : A) (db : B)
  (l1 : list A) (l2 : list B) :
  length l1 = length l2 ->
  (forall i, (i < length l1)%nat -> R (nth i l1 da) (nth i l2 db)) ->
  Forall2 R l1 l2.
Proof.
  revert l2. induction l1 as [| a l1 IH]; intros [| b l2] Hlen H;
    try discriminate; constructor.
  - apply (H O). simpl. lia.
  - apply IH; [simpl in Hlen; congruence |].
    intros i Hi. apply (H (S i)). simpl. lia.
Qed.

Lemma mat_eq_entries (r c : nat) (a b : mat) :
  wf_mat r c a -> wf_mat r c b ->
  (forall i j, (i < r)%nat -> (j < c)%nat -> entry a i j == entry b i j) ->
  mat_eq a b.
Proof.
  intros Ha Hb H. unfold mat_eq.
  apply (@Forall2_nth_intro _ _ _ [] []).
  - destruct Ha as [-> _], Hb as [-> _]. reflexivity.
  - intros i Hi. assert (Hi' : (i < r)%nat) by (destruct Ha as [<- _]; exact Hi).
    apply (@Forall2_nth_intro _ _ _ 0 0).
    + now rewrite (wf_row_length Ha Hi'), (wf_row_length Hb Hi').
    + intros j Hj. rewrite (wf_row_length Ha Hi') in Hj. now apply H.
Qed.

(** The product of matrices is associative. *)
Lemma matmul_raw_assoc (r k l c : nat) (a b d : mat) :
  wf_mat r k a -> wf_mat k l b -> wf_mat l c d -> (0 < k)%nat -> (0 < l)%nat ->
  mat_eq (matmul_raw a (matmul_raw b d)) (matmul_raw (matmul_raw a b) d).
Proof.
  intros Ha Hb Hd Hk Hl.
  pose proof (wf_matmul Hb Hd Hl) as Hbd.
  pose proof (wf_matmul Ha Hb Hk) as Hab.
  apply (@mat_eq_entries r c); [now apply (wf_matmul Ha Hbd) |
                                 now apply (wf_matmul Hab Hd) |].
  intros i j Hi Hj.
  rewrite (entry_matmul Ha Hbd Hk Hi Hj), (entry_matmul Hab Hd Hl Hi Hj).
  rewrite (@bigsum_ext k _
             (fun x => bigsum l (fun y => entry a i x * (entry b x y * entry d y j)))).
  - rewrite bigsum_exchange. apply bigsum_ext. intros y Hy.
    rewrite (entry_matmul Ha Hb Hk Hi Hy), <- bigsum_scale_r.
    apply bigsum_ext. intros x Hx. ring.
  - intros x Hx. rewrite (entry_matmul Hb Hd Hl Hx Hj), <- bigsum_scale_l.
    reflexivity.
Qed.

(** ** Trace and Frobenius product as sums of entries *)

Lemma diag_from_bigsum (m : mat) :
  forall s,
    Forall (fun r => (s + length m <= length r)%nat) m ->
    vsum (diag_from s m)
    == bigsum (length m) (fun i => nth (s + i) (nth i m []) 0).
Proof.
  induction m as [| r m IH]; intros s H; [reflexivity |].
  inversion H as [| ? ? Hr Hm]; subst. cbn [length] in *.
  destruct (@nth_error_Some_lt _ r s) as [x Hx]; [lia |].
  cbn [diag_from]. rewrite Hx, vsum_cons, bigsum_shift.
  rewrite (IH (S s)).
  - cbn [nth]. rewrite Nat.add_0_r, (nth_error_nth _ _ 0 Hx).
    apply Qplus_comp; [reflexivity |].
    apply bigsum_ext. intros i _. now rewrite Nat.add_succ_r.
  - eapply Forall_impl; [| exact Hm]. simpl. intros a Ha. lia.
Qed.

Lemma trace_bigsum (n : nat) (m : mat) :
  wf_mat n n m -> trace m == bigsum n (fun i => entry m i i).
Proof.
  intros [Hl Hr]. unfold trace. rewrite diag_from_bigsum.
  - rewrite Hl. reflexivity.
  - eapply Forall_impl; [| exact Hr]. simpl. intros a Ha. lia.
Qed.

Lemma nth_map2_in (A B C : Type) (f : A -> B -> C) (l1 : list A) (l2 : list B)
  (i : nat) (da : A) (db : B) (dc : C) :
  (i < length l1)%nat -> (i < length l2)%nat ->
  nth i (map2 f l1 l2) dc = f (nth i l1 da) (nth i l2 db).
Proof.
  revert l2 i. induction l1 as [| a l1 IH]; intros [| b l2] [| i] H1 H2;
    simpl in *; try lia; [reflexivity |].
  apply IH; lia.
Qed.

Lemma frobenius_bigsum (r c : nat) (a b : mat) :
  wf_mat r c a -> wf_mat r c b ->
  frobenius a b
  == bigsum r (fun i => bigsum c (fun j => entry a i j * entry b i j)).
Proof.
  intros Ha Hb. unfold frobenius. rewrite vsum_bigsum.
  assert (Hla : length a = r) by apply Ha.
  assert (Hlb : length b = r) by apply Hb.
  rewrite length_map2 by congruence. rewrite Hla.
  apply bigsum_ext. intros i Hi.
  rewrite (@nth_map2_in _ _ _ dot a b i [] [] 0) by lia.
  rewrite dot_bigsum
    by now rewrite (wf_row_length Ha Hi), (wf_row_length Hb Hi).
  rewrite (wf_row_length Ha Hi). reflexivity.
Qed.

(** ** The assertions of the gradient and similarity code hold *)

Lemma close_of_eq (rtol atol x y : Q) :
  0 <= rtol -> 0 <= atol -> x == y -> close rtol atol x y = true.
Proof.
  intros Hr Ha Hxy. unfold close. apply Qle_bool_iff.
  assert (E : x - y == 0) by lra. rewrite E.
  change (Qabs 0) with 0. pose proof (Qabs_nonneg y). nra.
Qed.

Lemma Forall2_forallb2 (A B : Type) (f : A -> B -> bool) (R : A -> B -> Prop)
  (l1 : list A) (l2 : list B) :
  (forall a b, R a b -> f a b = true) ->
  Forall2 R l1 l2 -> forallb2 f l1 l2 = true.
Proof.
  intros Hf. induction 1 as [| a b l1 l2 Hab _ IH]; simpl; [reflexivity |].
  now rewrite (Hf _ _ Hab), IH.
Qed.

Lemma allclose_of_mat_eq (rtol atol : Q) (a b : mat) :
  0 <= rtol -> 0 <= atol -> mat_eq a b -> allclose rtol atol a b = true.
Proof.
  intros Hr Ha. unfold allclose, mat_eq.
  apply Forall2_forallb2. intros r1 r2.
  apply Forall2_forallb2. intros x y. now apply close_of_eq.
Qed.

Lemma mat_eq_refl (a : mat) : mat_eq a a.
Proof.
  unfold mat_eq. induction a as [| r a IH]; constructor; [| exact IH].
  induction r; constructor; [reflexivity | assumption].
Qed.

Lemma allclose_refl (rtol atol : Q) (a : mat) :
  0 <= rtol -> 0 <= atol -> allclose rtol atol a a = true.
Proof. intros Hr Ha. apply allclose_of_mat_eq; auto using mat_eq_refl. Qed.

Lemma mat_eqb_refl (a : mat) : mat_eqb a a = true.
Proof. apply mat_eqb_iff, mat_eq_refl. Qed.

(** ** The rank-2 gradients and similarity in closed form *)

Lemma shape_eqb_refl (s : list nat) : shape_eqb s s = true.
Proof.
  unfold shape_eqb. destruct (list_eq_dec Nat.eq_dec s s); congruence.
Qed.

Lemma length_transpose (A : Type) (m : list (list A)) :
  length (transpose m) = ncols m.
Proof. unfold transpose. now rewrite length_map, length_seq. Qed.

Lemma perm_rows_T2 (x perm : mat) :
  length x = length perm -> length perm = ncols perm ->
  perm_rows (T2 x) perm = Ok (T2 (matmul_raw perm x)).
Proof.
  intros H1 H2. unfold perm_rows, nrows. cbn [shape hd].
  rewrite H1, Nat.eqb_refl. cbn [py_assert bind].
  rewrite H2, Nat.eqb_refl. reflexivity.
Qed.

Lemma compute_gradient_P_curr_eval (Wa Wb q : mat) :
  length Wa = length Wb -> ncols Wa = ncols Wb ->
  wf_mat (ncols Wb) (ncols Wb) q ->
  compute_gradient_P_curr (T2 Wa) (T2 Wb) (Some q)
  = Ok (matmul_raw Wa (matmul_raw q (transpose Wb))).
Proof.
  intros Hl Hc Hq. pose proof (wf_mat_square_ncols Hq) as Hqc.
  assert (Hql : length q = ncols Wb) by apply Hq.
  unfold compute_gradient_P_curr. cbn [bind shape].
  rewrite Hl, Hc, shape_eqb_refl. cbn [py_assert bind].
  change (shape_at (T2 Wb) 1) with (Ok (ncols Wb)). cbn [bind].
  unfold nrows at 1. rewrite Hql, Nat.eqb_refl. cbn [py_assert bind transpose10].
  rewrite perm_rows_T2 by (rewrite ?length_transpose; congruence).
  cbn [bind dim Nat.eqb]. unfold assert_close2, matmul_t.
  rewrite torch_matmul_ok
    by (unfold nrows; rewrite length_transpose; congruence).
  cbn [bind]. rewrite allclose_refl by (vm_compute; discriminate).
  cbn [py_assert bind].
  apply torch_matmul_ok. unfold nrows, matmul_raw. rewrite length_map. congruence.
Qed.

Lemma compute_gradient_P_prev_eval (d0 d1 : nat) (Wa Wb P : mat) :
  wf_mat d0 d1 Wa -> wf_mat d0 d1 Wb -> wf_mat d0 d0 P ->
  (0 < d0)%nat -> (0 < d1)%nat ->
  compute_gradient_P_prev (T2 Wa) (T2 Wb) P
  = Ok (matmul_raw (transpose Wa) (matmul_raw P Wb)).
Proof.
  intros Ha Hb HP H0 H1. pose proof (wf_mat_square_ncols HP) as HPc.
  assert (HPl : length P = d0) by apply HP.
  assert (Hbl : length Wb = d0) by apply Hb.
  unfold compute_gradient_P_prev. cbn [shape hd]. unfold nrows at 1.
  rewrite HPl, Hbl, Nat.eqb_refl. cbn [py_assert bind].
  rewrite perm_rows_T2 by congruence.
  cbn [bind dim Nat.eqb]. unfold assert_equal2, matmul_t.
  rewrite torch_matmul_ok by (unfold nrows; congruence).
  cbn [bind]. rewrite mat_eqb_refl. cbn [py_assert bind].
  apply torch_matmul_ok.
  pose proof (wf_transpose_pos Ha H0) as Hat.
  rewrite (wf_mat_ncols Hat) by lia.
  unfold nrows, matmul_raw. rewrite length_map. congruence.
Qed.

(** The algebra behind the gradient: the two ways of summing the products
    [wa i a * q a b * p i j * wb j b]. *)
Lemma sum_swap_inner (d0 d1 : nat) (qa pi : nat -> Q) (wb : nat -> nat -> Q) :
  bigsum d1 (fun b => qa b * bigsum d0 (fun j => pi j * wb j b))
  == bigsum d0 (fun j => pi j * bigsum d1 (fun b => qa b * wb j b)).
Proof.
  rewrite (@bigsum_ext d1 _
             (fun b => bigsum d0 (fun j => qa b * (pi j * wb j b))))
    by (intros b _; now rewrite bigsum_scale_l).
  rewrite bigsum_exchange. apply bigsum_ext. intros j _.
  rewrite <- bigsum_scale_l. apply bigsum_ext. intros b _. ring.
Qed.

Lemma four_sum_identity (d0 d1 : nat) (wa q p wb : nat -> nat -> Q) :
  bigsum d1 (fun a =>
    bigsum d0 (fun i =>
      wa i a * bigsum d1 (fun b => q a b * bigsum d0 (fun j => p i j * wb j b))))
  == bigsum d0 (fun i =>
       bigsum d0 (fun j =>
         bigsum d1 (fun a => wa i a * bigsum d1 (fun b => q a b * wb j b))
         * p i j)).
Proof.
  rewrite bigsum_exchange. apply bigsum_ext. intros i _.
  rewrite (@bigsum_ext d0
             (fun j => bigsum d1 (fun a =>
                         wa i a * bigsum d1 (fun b => q a b * wb j b)) * p i j)
             (fun j => bigsum d1 (fun a =>
                         wa i a * bigsum d1 (fun b => q a b * wb j b) * p i j)))
    by (intros j _; now rewrite bigsum_scale_r).
  rewrite (bigsum_exchange d0 d1
             (fun j a => wa i a * bigsum d1 (fun b => q a b * wb j b) * p i j)).
  apply bigsum_ext. intros a _.
  rewrite (sum_swap_inner d0 d1 (q a) (p i) wb).
  rewrite <- bigsum_scale_l. apply bigsum_ext. intros j _. ring.
Qed.

Section Rank2.

Variables d0 d1 : nat.
Variables Wa Wb P q : mat.
Hypothesis Wa_shape : wf_mat d0 d1 Wa.
Hypothesis Wb_shape : wf_mat d0 d1 Wb.
Hypothesis P_shape : wf_mat d0 d0 P.
Hypothesis q_shape : wf_mat d1 d1 q.
Hypothesis d0_pos : (0 < d0)%nat.
Hypothesis d1_pos : (0 < d1)%nat.

Lemma wf_PWb : wf_mat d0 d1 (matmul_raw P Wb).
Proof. exact (wf_matmul P_shape Wb_shape d0_pos). Qed.

Lemma wf_qtt_PWbt :
  wf_mat d1 d0 (matmul_raw (transpose (transpose q)) (transpose (matmul_raw P Wb))).
Proof.
  apply (@wf_matmul d1 d1 d0); [| | exact d1_pos].
  - apply wf_transpose_pos; [| exact d1_pos].
    apply wf_transpose_pos; [exact q_shape | exact d1_pos].
  - apply wf_transpose_pos; [exact wf_PWb | exact d0_pos].
Qed.

Lemma wf_permuted_rank2 : wf_mat d0 d1 (permuted_rank2 Wb P q).
Proof.
  unfold permuted_rank2. apply wf_transpose_pos; [exact wf_qtt_PWbt | exact d1_pos].
Qed.

Lemma entry_permuted_rank2 (i a : nat) :
  (i < d0)%nat -> (a < d1)%nat ->
  entry (permuted_rank2 Wb P q) i a
  == bigsum d1 (fun b => entry q a b * entry (matmul_raw P Wb) i b).
Proof.
  intros Hi Ha. unfold permuted_rank2.
  rewrite (entry_transpose wf_qtt_PWbt d1_pos Ha Hi).
  assert (Hqt : wf_mat d1 d1 (transpose q))
    by (apply wf_transpose_pos; [exact q_shape | exact d1_pos]).
  assert (Hqtt : wf_mat d1 d1 (transpose (transpose q)))
    by (apply wf_transpose_pos; [exact Hqt | exact d1_pos]).
  assert (Hpt : wf_mat d1 d0 (transpose (matmul_raw P Wb)))
    by (apply wf_transpose_pos; [exact wf_PWb | exact d0_pos]).
  rewrite (entry_matmul Hqtt Hpt d1_pos Ha Hi).
  apply bigsum_ext. intros b Hb.
  rewrite (entry_transpose Hqt d1_pos Hb Ha).
  rewrite (entry_transpose q_shape d1_pos Ha Hb).
  rewrite (entry_transpose wf_PWb d0_pos Hi Hb).
  reflexivity.
Qed.

(** [perm_cols(perm_rows(Wb, P), q.T)] is [P @ Wb @ q.T]. *)
Lemma permuted_rank2_product :
  mat_eq (permuted_rank2 Wb P q)
         (matmul_raw (matmul_raw P Wb) (transpose q)).
Proof.
  assert (Hqt : wf_mat d1 d1 (transpose q))
    by (apply wf_transpose_pos; [exact q_shape | exact d1_pos]).
  apply (@mat_eq_entries d0 d1);
    [exact wf_permuted_rank2 | exact (wf_matmul wf_PWb Hqt d1_pos) |].
  intros i a Hi Ha.
  rewrite (entry_permuted_rank2 Hi Ha), (entry_matmul wf_PWb Hqt d1_pos Hi Ha).
  apply bigsum_ext. intros b Hb.
  rewrite (entry_transpose q_shape d1_pos Ha Hb). ring.
Qed.

Lemma perm_cols_rank2 :
  perm_cols (T2 (matmul_raw P Wb)) (transpose q)
  = Ok (T2 (permuted_rank2 Wb P q)).
Proof.
  assert (Hqt : wf_mat d1 d1 (transpose q))
    by (apply wf_transpose_pos; [exact q_shape | exact d1_pos]).
  assert (Hqtt : wf_mat d1 d1 (transpose (transpose q)))
    by (apply wf_transpose_pos; [exact Hqt | exact d1_pos]).
  pose proof wf_PWb as Hpw.
  assert (Hpwc : ncols (matmul_raw P Wb) = d1) by (apply (wf_mat_ncols Hpw); lia).
  unfold perm_cols.
  change (shape_at (T2 (matmul_raw P Wb)) 1) with (Ok (ncols (matmul_raw P Wb))).
  cbn [bind]. unfold nrows at 1 2.
  rewrite Hpwc.
  replace (length (transpose q)) with d1 by (symmetry; apply Hqt).
  rewrite (wf_mat_square_ncols Hqt), Nat.eqb_refl.
  cbn [py_assert bind transpose10].
  assert (Hlen1 : length (transpose (matmul_raw P Wb))
                  = length (transpose (transpose q))).
  { rewrite length_transpose, Hpwc. symmetry. apply Hqtt. }
  assert (Hlen2 : length (transpose (transpose q))
                  = ncols (transpose (transpose q))).
  { rewrite (wf_mat_square_ncols Hqtt). apply Hqtt. }
  rewrite (perm_rows_T2 _ _ Hlen1 Hlen2).
  cbn [bind transpose10]. reflexivity.
Qed.

Lemma compute_layer_similarity_eval (debug : bool) :
  compute_layer_similarity (T2 Wa) (T2 Wb) P (Some q) debug
  = Ok (trace (matmul_raw (transpose Wa) (permuted_rank2 Wb P q))).
Proof.
  assert (HPl : length P = d0) by apply P_shape.
  assert (HPc : ncols P = d0) by exact (wf_mat_square_ncols P_shape).
  assert (Hbl : length Wb = d0) by apply Wb_shape.
  assert (Hqt : wf_mat d1 d1 (transpose q))
    by (apply wf_transpose_pos; [exact q_shape | exact d1_pos]).
  pose proof wf_PWb as Hpw.
  assert (Hpwc : ncols (matmul_raw P Wb) = d1) by (apply (wf_mat_ncols Hpw); lia).
  assert (Hlast : matmul_t (transpose Wa) (T2 (permuted_rank2 Wb P q))
                  = Ok (matmul_raw (transpose Wa) (permuted_rank2 Wb P q))).
  { unfold matmul_t. rewrite torch_matmul_ok; [reflexivity |].
    assert (Hat : wf_mat d1 d0 (transpose Wa))
      by (apply wf_transpose_pos; [exact Wa_shape | exact d0_pos]).
    rewrite (wf_mat_ncols Hat) by lia. symmetry. apply wf_permuted_rank2. }
  unfold compute_layer_similarity.
  rewrite perm_rows_T2 by congruence. cbn [bind dim Nat.eqb andb].
  destruct debug.
  - unfold assert_close2 at 1. unfold matmul_t at 1.
    rewrite torch_matmul_ok by (unfold nrows; congruence). cbn [bind].
    rewrite allclose_refl by (vm_compute; discriminate). cbn [py_assert bind].
    rewrite perm_cols_rank2. cbn [bind].
    unfold assert_close2, matmul_t at 1.
    rewrite torch_matmul_ok by (unfold nrows; congruence). cbn [bind].
    rewrite torch_matmul_ok
      by (unfold nrows; rewrite Hpwc; symmetry; apply Hqt).
    cbn [bind].
    rewrite (@allclose_of_mat_eq 1e-5 1e-8) ;
      [| vm_compute; discriminate | vm_compute; discriminate
       | exact permuted_rank2_product].
    cbn [py_assert bind].
    rewrite Hlast. reflexivity.
  - cbn [bind]. rewrite perm_cols_rank2. cbn [bind].
    rewrite Hlast. reflexivity.
Qed.

(** The rank-2 similarity is linear in the row permutation, with the row
    term as its matrix of coefficients: [sim(P) = <grad, P>]. *)
Lemma similarity_pairs_with_row_term :
  trace (matmul_raw (transpose Wa) (permuted_rank2 Wb P q))
  == frobenius (grad_row_term Wa Wb q) P.
Proof.
  assert (Hat : wf_mat d1 d0 (transpose Wa))
    by (apply wf_transpose_pos; [exact Wa_shape | exact d0_pos]).
  assert (Hbt : wf_mat d1 d0 (transpose Wb))
    by (apply wf_transpose_pos; [exact Wb_shape | exact d0_pos]).
  pose proof wf_permuted_rank2 as HX.
  pose proof (wf_matmul Hat HX d0_pos) as HtX.
  pose proof (wf_matmul q_shape Hbt d1_pos) as HqB.
  pose proof (wf_matmul Wa_shape HqB d1_pos) as HG.
  rewrite (trace_bigsum HtX).
  unfold grad_row_term. rewrite (frobenius_bigsum HG P_shape).
  transitivity
    (bigsum d1 (fun a =>
       bigsum d0 (fun i =>
         entry Wa i a
         * bigsum d1 (fun b =>
             entry q a b * bigsum d0 (fun j => entry P i j * entry Wb j b))))).
  - apply bigsum_ext. intros a Ha.
    rewrite (entry_matmul Hat HX d0_pos Ha Ha).
    apply bigsum_ext. intros i Hi.
    rewrite (entry_transpose Wa_shape d0_pos Hi Ha).
    rewrite (entry_permuted_rank2 Hi Ha).
    apply Qmult_comp; [reflexivity |].
    apply bigsum_ext. intros b Hb.
    now rewrite (entry_matmul P_shape Wb_shape d0_pos Hi Hb).
  - rewrite (four_sum_identity d0 d1 (entry Wa) (entry q) (entry P) (entry Wb)).
    apply bigsum_ext. intros i Hi. apply bigsum_ext. intros j Hj.
    apply Qmult_comp; [| reflexivity].
    rewrite (entry_matmul Wa_shape HqB d1_pos Hi Hj).
    apply bigsum_ext. intros a Ha.
    apply Qmult_comp; [reflexivity |].
    rewrite (entry_matmul q_shape Hbt d1_pos Ha Hj).
    apply bigsum_ext. intros b Hb.
    now rewrite (entry_transpose Wb_shape d0_pos Hj Hb).
Qed.

End Rank2.

(** C2 (amended). For rank-2 tensors [Wa], [Wb] of one shape [d0 x d1] and a
    square [q] of size [d1], [compute_gradient_P_curr] returns
    [Wa @ (q @ Wb.T)], with no transpose around [q @ Wb.T]; this is
    [(Wa @ q) @ Wb.T], the [A P_{l-1} B^T] of the docstring.  It is the
    partial derivative of the layer's similarity in the row permutation:
    for every [P] of size [d0] the similarity [compute_layer_similarity]
    returns is [<Wa @ (q @ Wb.T), P>], linear in [P] with the returned
    matrix as its coefficients. *)
Theorem compute_gradient_P_curr_row_term (d0 d1 : nat) (Wa Wb q : mat) :
  wf_mat d0 d1 Wa -> wf_mat d0 d1 Wb -> wf_mat d1 d1 q ->
  (0 < d0)%nat -> (0 < d1)%nat ->
  compute_gradient_P_curr (T2 Wa) (T2 Wb) (Some q)
  = Ok (grad_row_term Wa Wb q)
  /\ mat_eq (grad_row_term Wa Wb q)
            (matmul_raw (matmul_raw Wa q) (transpose Wb))
  /\ forall (P : mat) (debug : bool),
       wf_mat d0 d0 P ->
       exists s,
         compute_layer_similarity (T2 Wa) (T2 Wb) P (Some q) debug = Ok s
         /\ s == frobenius (grad_row_term Wa Wb q) P.
Proof.
  intros Ha Hb Hq H0 H1.
  assert (Hbt : wf_mat d1 d0 (transpose Wb))
    by (apply wf_transpose_pos; [exact Hb | exact H0]).
  split; [| split].
  - unfold grad_row_term. apply compute_gradient_P_curr_eval.
    + destruct Ha as [-> _], Hb as [-> _]. reflexivity.
    + rewrite (wf_mat_ncols Ha), (wf_mat_ncols Hb) by lia. reflexivity.
    + rewrite (wf_mat_ncols Hb) by lia. exact Hq.
  - unfold grad_row_term. exact (matmul_raw_assoc Ha Hq Hbt H1 H1).
  - intros P debug HP. eexists. split.
    + exact (compute_layer_similarity_eval Ha Hb HP Hq H0 H1 debug).
    + exact (similarity_pairs_with_row_term Ha Hb HP Hq H0 H1).
Qed.

Lemma compute_gradient_P_curr_row_term_witness :
  compute_gradient_P_curr (T2 [[1; 2]; [3; 5]]) (T2 [[3; 5]; [1; 2]])
    (Some [[0; 1]; [1; 0]])
  = Ok (grad_row_term [[1; 2]; [3; 5]] [[3; 5]; [1; 2]] [[0; 1]; [1; 0]])
  /\ mat_eq (grad_row_term [[1; 2]; [3; 5]] [[3; 5]; [1; 2]] [[0; 1]; [1; 0]])
            (matmul_raw (matmul_raw [[1; 2]; [3; 5]] [[0; 1]; [1; 0]])
               (transpose [[3; 5]; [1; 2]]))
  /\ forall (P : mat) (debug : bool),
       wf_mat 2 2 P ->
       exists s,
         compute_layer_similarity (T2 [[1; 2]; [3; 5]]) (T2 [[3; 5]; [1; 2]])
           P (Some [[0; 1]; [1; 0]]) debug = Ok s
         /\ s == frobenius
                  (grad_row_term [[1; 2]; [3; 5]] [[3; 5]; [1; 2]]
                     [[0; 1]; [1; 0]]) P.
Proof.
  apply (@compute_gradient_P_curr_row_term 2 2);
    try (split; [reflexivity | repeat constructor]); lia.
Defined.

(** C2, as stated, fails on the square layer [Wa = I], [Wb = [[0, 1], [0, 0]]]
    with [q = I]: the code returns [Wb.T = [[0, 0], [1, 0]]], the formula
    [Wa @ (q @ Wb.T).T] gives [Wb]; and the similarity at
    [P = [[0, 0], [1, 0]]] is 1, its pairing with the matrix the code
    returns, where the pairing with the formula's matrix is 0. *)
Lemma spec_row_term_transposed :
  compute_gradient_P_curr (T2 [[1; 0]; [0; 1]]) (T2 [[0; 1]; [0; 0]])
    (Some [[1; 0]; [0; 1]])
  = Ok [[0; 0]; [1; 0]]
  /\ spec_grad_row_term [[1; 0]; [0; 1]] [[0; 1]; [0; 0]] [[1; 0]; [0; 1]]
     = [[0; 1]; [0; 0]]
  /\ ~ mat_eq [[0; 0]; [1; 0]]
        (spec_grad_row_term [[1; 0]; [0; 1]] [[0; 1]; [0; 0]] [[1; 0]; [0; 1]])
  /\ compute_layer_similarity (T2 [[1; 0]; [0; 1]]) (T2 [[0; 1]; [0; 0]])
       [[0; 0]; [1; 0]] (Some [[1; 0]; [0; 1]]) true = Ok 1
  /\ frobenius [[0; 0]; [1; 0]] [[0; 0]; [1; 0]] = 1
  /\ frobenius
       (spec_grad_row_term [[1; 0]; [0; 1]] [[0; 1]; [0; 0]] [[1; 0]; [0; 1]])
       [[0; 0]; [1; 0]] = 0.
Proof.
  split; [vm_compute; reflexivity |].
  split; [vm_compute; reflexivity |].
  split.
  - intros H. apply mat_eqb_iff in H. vm_compute in H. discriminate.
  - split; [vm_compute; reflexivity |].
    split; vm_compute; reflexivity.
Qed.


(* ================================================================= *)
(** ** Further properties of the permutation algebra *)

(** *** Entrywise equality and the identity matrix *)

Lemma mat_eq_sym (a b : mat) : mat_eq a b -> mat_eq b a.
Proof.
  unfold mat_eq. intros H. induction H as [| r1 r2 a b Hr _ IH]; constructor.
  - clear IH. induction Hr as [| x y r1 r2 Hxy _ IH]; constructor.
    + symmetry. exact Hxy.
    + exact IH.
  - exact IH.
Qed.

Lemma row_eq_trans (r1 r2 r3 : vec) :
  Forall2 Qeq r1 r2 -> Forall2 Qeq r2 r3 -> Forall2 Qeq r1 r3.
Proof.
  intros H. revert r3. induction H as [| x y r1 r2 Hxy _ IH]; intros r3 H3.
  - inversion H3. constructor.
  - inversion H3 as [| y' z r2' r3' Hyz Hrest]; subst. constructor.
    + rewrite Hxy. exact Hyz.
    + apply IH. exact Hrest.
Qed.

Lemma mat_eq_trans (a b c : mat) : mat_eq a b -> mat_eq b c -> mat_eq a c.
Proof.
  unfold mat_eq. intros H. revert c.
  induction H as [| r1 r2 a b Hr _ IH]; intros c Hc.
  - inversion Hc. constructor.
  - inversion Hc as [| r2' r3 b' c' Hr' Hrest]; subst. constructor.
    + eapply row_eq_trans; eassumption.
    + apply IH. exact Hrest.
Qed.

Lemma Forall2_nth (A B : Type) (R : A -> B -> Prop) (da : A) (db : B)
  (l1 : list A) (l2 : list B) (i : nat) :
  Forall2 R l1 l2 -> (i < length l1)%nat -> R (nth i l1 da) (nth i l2 db).
Proof.
  intros H. revert i. induction H as [| x y l1 l2 Hxy _ IH]; intros i Hi.
  - simpl in Hi. lia.
  - destruct i as [| i]; simpl; [exact Hxy |]. apply IH. simpl in Hi. lia.
Qed.

Lemma mat_eq_entry (r c i j : nat) (a b : mat) :
  wf_mat r c a -> mat_eq a b -> (i < r)%nat -> (j < c)%nat ->
  entry a i j == entry b i j.
Proof.
  intros Ha H Hi Hj. unfold entry.
  assert (Hrow : Forall2 Qeq (nth i a []) (nth i b [])).
  { apply (@Forall2_nth _ _ (Forall2 Qeq) [] [] a b i H).
    destruct Ha as [-> _]. exact Hi. }
  apply (@Forall2_nth _ _ Qeq 0 0 _ _ j Hrow).
  rewrite (wf_row_length Ha Hi). exact Hj.
Qed.

Lemma mat_eq_wf (r c : nat) (a b : mat) :
  wf_mat r c a -> mat_eq a b -> wf_mat r c b.
Proof.
  intros [Hl Hr] H. unfold mat_eq in H. revert r Hl.
  induction H as [| r1 r2 a b Hrow _ IH]; intros r Hl.
  - split; [exact Hl | constructor].
  - inversion Hr as [| ? ? Hr1 Hrest]; subst.
    destruct (IH Hrest (length a) eq_refl) as [Hlb Hrb].
    split; [simpl; now rewrite Hlb |].
    constructor; [| exact Hrb].
    clear - Hrow. induction Hrow; simpl; congruence.
Qed.

Lemma wf_eye (n : nat) : wf_mat n n (eye n).
Proof.
  unfold eye. split; [now rewrite length_map, length_seq |].
  apply Forall_forall. intros r Hr. apply in_map_iff in Hr.
  destruct Hr as (i & <- & _). now rewrite length_map, length_seq.
Qed.

Lemma entry_eye (n i j : nat) :
  (i < n)%nat -> (j < n)%nat ->
  entry (eye n) i j = if Nat.eqb i j then 1 else 0.
Proof.
  intros Hi Hj. unfold entry, eye.
  rewrite (@nth_map_in _ _ _ (seq 0 n) i O []) by now rewrite length_seq.
  rewrite seq_nth by exact Hi.
  rewrite (@nth_map_in _ _ _ (seq 0 n) j O 0) by now rewrite length_seq.
  rewrite seq_nth by exact Hj. reflexivity.
Qed.

Lemma bigsum_zero (n : nat) (f : nat -> Q) :
  (forall k, (k < n)%nat -> f k == 0) -> bigsum n f == 0.
Proof.
  induction n as [| n IH]; intros H; simpl; [reflexivity |].
  rewrite IH by (intros k Hk; apply H; lia). rewrite (H n) by lia. ring.
Qed.

Lemma bigsum_delta (n i : nat) (f : nat -> Q) :
  (i < n)%nat ->
  bigsum n (fun l => (if Nat.eqb i l then 1 else 0) * f l) == f i.
Proof.
  induction n as [| n IH]; intros Hi; [lia |]. simpl.
  destruct (Nat.eq_dec i n) as [-> | Hne].
  - rewrite Nat.eqb_refl.
    rewrite bigsum_zero; [ring |].
    intros k Hk. destruct (Nat.eqb_spec n k); [lia | ring].
  - rewrite IH by lia.
    destruct (Nat.eqb_spec i n); [contradiction | ring].
Qed.

Lemma bigsum_delta_r (n j : nat) (f : nat -> Q) :
  (j < n)%nat ->
  bigsum n (fun l => f l * (if Nat.eqb l j then 1 else 0)) == f j.
Proof.
  intros Hj.
  transitivity (bigsum n (fun l => (if Nat.eqb j l then 1 else 0) * f l));
    [| exact (bigsum_delta f Hj)].
  apply bigsum_ext. intros l _. rewrite (Nat.eqb_sym l j). ring.
Qed.

Lemma matmul_eye_l (n c : nat) (x : mat) :
  wf_mat n c x -> (0 < n)%nat -> mat_eq (matmul_raw (eye n) x) x.
Proof.
  intros Hx Hn.
  apply (@mat_eq_entries n c);
    [exact (wf_matmul (wf_eye n) Hx Hn) | exact Hx |].
  intros i j Hi Hj.
  rewrite (entry_matmul (wf_eye n) Hx Hn Hi Hj).
  transitivity (bigsum n (fun l => (if Nat.eqb i l then 1 else 0) * entry x l j));
    [| exact (bigsum_delta (fun l => entry x l j) Hi)].
  apply bigsum_ext. intros l Hl. now rewrite (entry_eye Hi Hl).
Qed.

Lemma matmul_eye_r (r n : nat) (x : mat) :
  wf_mat r n x -> (0 < n)%nat -> mat_eq (matmul_raw x (eye n)) x.
Proof.
  intros Hx Hn.
  apply (@mat_eq_entries r n);
    [exact (wf_matmul Hx (wf_eye n) Hn) | exact Hx |].
  intros i j Hi Hj.
  rewrite (entry_matmul Hx (wf_eye n) Hn Hi Hj).
  transitivity (bigsum n (fun l => entry x i l * (if Nat.eqb l j then 1 else 0)));
    [| exact (bigsum_delta_r (fun l => entry x i l) Hj)].
  apply bigsum_ext. intros l Hl. now rewrite (entry_eye Hl Hj).
Qed.

Lemma matmul_raw_eq_r (r k c : nat) (a b b' : mat) :
  wf_mat r k a -> wf_mat k c b -> mat_eq b b' -> (0 < k)%nat ->
  mat_eq (matmul_raw a b) (matmul_raw a b').
Proof.
  intros Ha Hb Hbb Hk. pose proof (mat_eq_wf Hb Hbb) as Hb'.
  apply (@mat_eq_entries r c);
    [exact (wf_matmul Ha Hb Hk) | exact (wf_matmul Ha Hb' Hk) |].
  intros i j Hi Hj.
  rewrite (entry_matmul Ha Hb Hk Hi Hj), (entry_matmul Ha Hb' Hk Hi Hj).
  apply bigsum_ext. intros l Hl.
  now rewrite (mat_eq_entry Hb Hbb Hl Hj).
Qed.

Lemma matmul_raw_eq_l (r k c : nat) (a a' b : mat) :
  wf_mat r k a -> mat_eq a a' -> wf_mat k c b -> (0 < k)%nat ->
  mat_eq (matmul_raw a b) (matmul_raw a' b).
Proof.
  intros Ha Haa Hb Hk. pose proof (mat_eq_wf Ha Haa) as Ha'.
  apply (@mat_eq_entries r c);
    [exact (wf_matmul Ha Hb Hk) | exact (wf_matmul Ha' Hb Hk) |].
  intros i j Hi Hj.
  rewrite (entry_matmul Ha Hb Hk Hi Hj), (entry_matmul Ha' Hb Hk Hi Hj).
  apply bigsum_ext. intros l Hl.
  now rewrite (mat_eq_entry Ha Haa Hi Hl).
Qed.

Lemma transpose_eq (r c : nat) (a a' : mat) :
  wf_mat r c a -> mat_eq a a' -> (0 < r)%nat ->
  mat_eq (transpose a) (transpose a').
Proof.
  intros Ha Haa Hr. pose proof (mat_eq_wf Ha Haa) as Ha'.
  apply (@mat_eq_entries c r);
    [exact (wf_transpose_pos Ha Hr) | exact (wf_transpose_pos Ha' Hr) |].
  intros j i Hj Hi.
  rewrite (entry_transpose Ha Hr Hi Hj), (entry_transpose Ha' Hr Hi Hj).
  exact (mat_eq_entry Ha Haa Hi Hj).
Qed.

Lemma frobenius_eq_r (r c : nat) (a b b' : mat) :
  wf_mat r c a -> wf_mat r c b -> mat_eq b b' ->
  frobenius a b == frobenius a b'.
Proof.
  intros Ha Hb Hbb. pose proof (mat_eq_wf Hb Hbb) as Hb'.
  rewrite (frobenius_bigsum Ha Hb), (frobenius_bigsum Ha Hb').
  apply bigsum_ext. intros i Hi. apply bigsum_ext. intros j Hj.
  now rewrite (mat_eq_entry Hb Hbb Hi Hj).
Qed.

(** [trace(a.T @ x) = <a, x>]. *)
Lemma trace_transpose_product (r c : nat) (a x : mat) :
  wf_mat r c a -> wf_mat r c x -> (0 < r)%nat -> (0 < c)%nat ->
  trace (matmul_raw (transpose a) x) == frobenius a x.
Proof.
  intros Ha Hx Hr Hc.
  pose proof (wf_transpose_pos Ha Hr) as Hat.
  rewrite (trace_bigsum (wf_matmul Hat Hx Hr)).
  rewrite (frobenius_bigsum Ha Hx).
  rewrite bigsum_exchange.
  apply bigsum_ext. intros j Hj.
  rewrite (entry_matmul Hat Hx Hr Hj Hj).
  apply bigsum_ext. intros i Hi.
  now rewrite (entry_transpose Ha Hr Hi Hj).
Qed.

(** *** [perm_rows] and [perm_cols] on matrices *)

Lemma perm_rows_T1 (v : vec) (perm : mat) :
  length v = length perm -> length perm = ncols perm ->
  perm_rows (T1 v) perm = Ok (T1 (mv_raw perm v)).
Proof.
  intros H1 H2. unfold perm_rows, nrows. cbn [shape hd].
  rewrite H1, Nat.eqb_refl. cbn [py_assert bind].
  rewrite H2, Nat.eqb_refl. reflexivity.
Qed.

Lemma mv_eye (v : vec) : Forall2 Qeq (mv_raw (eye (length v)) v) v.
Proof.
  apply (@Forall2_nth_intro _ _ Qeq 0 0).
  - rewrite length_mv_raw. apply wf_eye.
  - intros i Hi. rewrite length_mv_raw in Hi.
    assert (Hn : (i < length v)%nat) by (destruct (wf_eye (length v)) as [<- _]; exact Hi).
    unfold mv_raw.
    rewrite (@nth_map_in _ _ (fun r => dot r v) (eye (length v)) i [] 0) by exact Hi.
    rewrite dot_bigsum by exact (wf_row_length (wf_eye (length v)) Hn).
    rewrite (wf_row_length (wf_eye (length v)) Hn).
    transitivity (bigsum (length v)
                    (fun k => (if Nat.eqb i k then 1 else 0) * nth k v 0));
      [| exact (bigsum_delta (fun k => nth k v 0) Hn)].
    apply bigsum_ext. intros k Hk.
    change (nth k (nth i (eye (length v)) []) 0) with (entry (eye (length v)) i k).
    now rewrite (entry_eye Hn Hk).
Qed.

Lemma perm_cols_T2 (r n : nat) (x perm : mat) :
  wf_mat r n x -> wf_mat n n perm -> (0 < r)%nat -> (0 < n)%nat ->
  perm_cols (T2 x) perm
  = Ok (T2 (transpose (matmul_raw (transpose perm) (transpose x)))).
Proof.
  intros Hx Hp Hr Hn.
  pose proof (wf_transpose_pos Hp Hn) as Hpt.
  pose proof (wf_transpose_pos Hx Hr) as Hxt.
  unfold perm_cols.
  change (shape_at (T2 x) 1) with (Ok (ncols x)). cbn [bind].
  unfold nrows at 1 2.
  rewrite (wf_mat_ncols Hx) by lia.
  replace (length perm) with n by (symmetry; apply Hp).
  rewrite (wf_mat_square_ncols Hp), Nat.eqb_refl.
  cbn [py_assert bind transpose10].
  rewrite perm_rows_T2.
  - reflexivity.
  - destruct Hxt as [-> _], Hpt as [-> _]. reflexivity.
  - rewrite (wf_mat_square_ncols Hpt). apply Hpt.
Qed.

Lemma perm_cols_product (r n : nat) (x perm : mat) :
  wf_mat r n x -> wf_mat n n perm -> (0 < r)%nat -> (0 < n)%nat ->
  mat_eq (transpose (matmul_raw (transpose perm) (transpose x)))
         (matmul_raw x perm).
Proof.
  intros Hx Hp Hr Hn.
  pose proof (wf_transpose_pos Hp Hn) as Hpt.
  pose proof (wf_transpose_pos Hx Hr) as Hxt.
  pose proof (wf_matmul Hpt Hxt Hn) as Hprod.
  apply (@mat_eq_entries r n);
    [exact (wf_transpose_pos Hprod Hn) | exact (wf_matmul Hx Hp Hn) |].
  intros i j Hi Hj.
  rewrite (entry_transpose Hprod Hn Hj Hi).
  rewrite (entry_matmul Hpt Hxt Hn Hj Hi), (entry_matmul Hx Hp Hn Hi Hj).
  apply bigsum_ext. intros l Hl.
  rewrite (entry_transpose Hp Hn Hl Hj), (entry_transpose Hx Hr Hi Hl). ring.
Qed.

(** X1. Permuting the rows by the identity matrix gives the tensor back: for
    a vector and for a matrix [perm_rows] with [eye n] returns a tensor of
    the same shape whose entries are those of the argument. *)
Theorem perm_rows_identity (n c : nat) (v : vec) (x : mat) :
  wf_mat n c x -> (0 < n)%nat ->
  (exists v', perm_rows (T1 v) (eye (length v)) = Ok (T1 v')
              /\ Forall2 Qeq v' v)
  /\ (exists y, perm_rows (T2 x) (eye n) = Ok (T2 y)
                /\ wf_mat n c y /\ mat_eq y x).
Proof.
  intros Hx Hn. split.
  - exists (mv_raw (eye (length v)) v). split; [| apply mv_eye].
    apply perm_rows_T1.
    + symmetry. apply wf_eye.
    + rewrite (wf_mat_square_ncols (wf_eye (length v))). apply wf_eye.
  - exists (matmul_raw (eye n) x). split; [| split].
    + apply perm_rows_T2.
      * destruct Hx as [-> _]. symmetry. apply wf_eye.
      * rewrite (wf_mat_square_ncols (wf_eye n)). apply wf_eye.
    + exact (wf_matmul (wf_eye n) Hx Hn).
    + exact (matmul_eye_l Hx Hn).
Qed.

Lemma perm_rows_identity_witness :
  (exists v', perm_rows (T1 [3; 5]) (eye (length [3; 5])) = Ok (T1 v')
              /\ Forall2 Qeq v' [3; 5])
  /\ (exists y, perm_rows (T2 [[1; 2; 4]; [3; 5; 7]]) (eye 2) = Ok (T2 y)
                /\ wf_mat 2 3 y /\ mat_eq y [[1; 2; 4]; [3; 5; 7]]).
Proof.
  apply (@perm_rows_identity 2 3 [3; 5] [[1; 2; 4]; [3; 5; 7]]).
  - split; [reflexivity | repeat constructor].
  - lia.
Defined.

(** X2. Two row permutations in sequence are one row permutation by the
    product: [perm_rows(perm_rows(x, P), Q)] is [perm_rows(x, Q @ P)]. *)
Theorem perm_rows_compose (n c : nat) (x P Q' : mat) :
  wf_mat n c x -> wf_mat n n P -> wf_mat n n Q' -> (0 < n)%nat ->
  exists y z w,
    perm_rows (T2 x) P = Ok (T2 y)
    /\ perm_rows (T2 y) Q' = Ok (T2 z)
    /\ perm_rows (T2 x) (matmul_raw Q' P) = Ok (T2 w)
    /\ mat_eq z w.
Proof.
  intros Hx HP HQ Hn.
  pose proof (wf_matmul HP Hx Hn) as Hy.
  pose proof (wf_matmul HQ HP Hn) as HQP.
  exists (matmul_raw P x), (matmul_raw Q' (matmul_raw P x)),
         (matmul_raw (matmul_raw Q' P) x).
  split; [| split; [| split]].
  - apply perm_rows_T2.
    + destruct Hx as [-> _], HP as [-> _]. reflexivity.
    + rewrite (wf_mat_square_ncols HP). apply HP.
  - apply perm_rows_T2.
    + destruct Hy as [-> _], HQ as [-> _]. reflexivity.
    + rewrite (wf_mat_square_ncols HQ). apply HQ.
  - apply perm_rows_T2.
    + destruct Hx as [-> _], HQP as [-> _]. reflexivity.
    + rewrite (wf_mat_square_ncols HQP). apply HQP.
  - exact (matmul_raw_assoc HQ HP Hx Hn Hn).
Qed.

Lemma perm_rows_compose_witness :
  exists y z w,
    perm_rows (T2 [[1; 2]; [3; 5]; [7; 11]]) [[0; 1; 0]; [0; 0; 1]; [1; 0; 0]]
    = Ok (T2 y)
    /\ perm_rows (T2 y) [[0; 1; 0]; [1; 0; 0]; [0; 0; 1]] = Ok (T2 z)
    /\ perm_rows (T2 [[1; 2]; [3; 5]; [7; 11]])
         (matmul_raw [[0; 1; 0]; [1; 0; 0]; [0; 0; 1]]
            [[0; 1; 0]; [0; 0; 1]; [1; 0; 0]]) = Ok (T2 w)
    /\ mat_eq z w.
Proof.
  apply (@perm_rows_compose 3 2);
    try (split; [reflexivity | repeat constructor]); lia.
Defined.

(** X3. On a matrix, [perm_cols(x, perm)] is the product [x @ perm]: it has
    the shape of [x] and the entries of the product. *)
Theorem perm_cols_is_right_product (r n : nat) (x perm : mat) :
  wf_mat r n x -> wf_mat n n perm -> (0 < r)%nat -> (0 < n)%nat ->
  exists y, perm_cols (T2 x) perm = Ok (T2 y)
            /\ wf_mat r n y
            /\ mat_eq y (matmul_raw x perm).
Proof.
  intros Hx Hp Hr Hn. eexists. split; [exact (perm_cols_T2 Hx Hp Hr Hn) |].
  pose proof (perm_cols_product Hx Hp Hr Hn) as Heq.
  split; [| exact Heq].
  exact (mat_eq_wf (wf_matmul Hx Hp Hn) (mat_eq_sym Heq)).
Qed.

Lemma perm_cols_is_right_product_witness :
  exists y, perm_cols (T2 [[1; 2; 4]; [3; 5; 7]])
              [[0; 1; 0]; [0; 0; 1]; [1; 0; 0]] = Ok (T2 y)
            /\ wf_mat 2 3 y
            /\ mat_eq y (matmul_raw [[1; 2; 4]; [3; 5; 7]]
                           [[0; 1; 0]; [0; 0; 1]; [1; 0; 0]]).
Proof.
  apply (@perm_cols_is_right_product 2 3);
    try (split; [reflexivity | repeat constructor]); lia.
Defined.

(** X4. Row and column permutations of a matrix commute: permuting the rows
    by [P] and then the columns by [q] gives the entries of permuting the
    columns first and the rows second, both being [P @ x @ q]. *)
Theorem perm_rows_perm_cols_commute (r n : nat) (x P q : mat) :
  wf_mat r n x -> wf_mat r r P -> wf_mat n n q -> (0 < r)%nat -> (0 < n)%nat ->
  exists y1 z1 y2 z2,
    perm_rows (T2 x) P = Ok (T2 y1) /\ perm_cols (T2 y1) q = Ok (T2 z1)
    /\ perm_cols (T2 x) q = Ok (T2 y2) /\ perm_rows (T2 y2) P = Ok (T2 z2)
    /\ mat_eq z1 z2
    /\ mat_eq z1 (matmul_raw (matmul_raw P x) q).
Proof.
  intros Hx HP Hq Hr Hn.
  pose proof (wf_matmul HP Hx Hr) as HPx.
  pose proof (perm_cols_product Hx Hq Hr Hn) as Hxq.
  pose proof (mat_eq_wf (wf_matmul Hx Hq Hn) (mat_eq_sym Hxq)) as Hy2.
  pose proof (perm_cols_product HPx Hq Hr Hn) as Hz1.
  exists (matmul_raw P x),
         (transpose (matmul_raw (transpose q) (transpose (matmul_raw P x)))),
         (transpose (matmul_raw (transpose q) (transpose x))),
         (matmul_raw P (transpose (matmul_raw (transpose q) (transpose x)))).
  split; [| split; [| split; [| split; [| split]]]].
  - apply perm_rows_T2.
    + destruct Hx as [-> _], HP as [-> _]. reflexivity.
    + rewrite (wf_mat_square_ncols HP). apply HP.
  - exact (perm_cols_T2 HPx Hq Hr Hn).
  - exact (perm_cols_T2 Hx Hq Hr Hn).
  - apply perm_rows_T2.
    + destruct Hy2 as [-> _], HP as [-> _]. reflexivity.
    + rewrite (wf_mat_square_ncols HP). apply HP.
  - apply (mat_eq_trans Hz1).
    apply mat_eq_sym.
    apply (@mat_eq_trans _ (matmul_raw P (matmul_raw x q))).
    + exact (matmul_raw_eq_r HP Hy2 Hxq Hr).
    + exact (matmul_raw_assoc HP Hx Hq Hr Hn).
  - exact Hz1.
Qed.

Lemma perm_rows_perm_cols_commute_witness :
  exists y1 z1 y2 z2,
    perm_rows (T2 [[1; 2; 4]; [3; 5; 7]]) [[0; 1]; [1; 0]] = Ok (T2 y1)
    /\ perm_cols (T2 y1) [[0; 1; 0]; [0; 0; 1]; [1; 0; 0]] = Ok (T2 z1)
    /\ perm_cols (T2 [[1; 2; 4]; [3; 5; 7]])
         [[0; 1; 0]; [0; 0; 1]; [1; 0; 0]] = Ok (T2 y2)
    /\ perm_rows (T2 y2) [[0; 1]; [1; 0]] = Ok (T2 z2)
    /\ mat_eq z1 z2
    /\ mat_eq z1 (matmul_raw (matmul_raw [[0; 1]; [1; 0]]
                                [[1; 2; 4]; [3; 5; 7]])
                    [[0; 1; 0]; [0; 0; 1]; [1; 0; 0]]).
Proof.
  apply (@perm_rows_perm_cols_commute 2 3);
    try (split; [reflexivity | repeat constructor]); lia.
Defined.


(* ================================================================= *)
(** ** Further properties of the similarity and its gradients *)

Lemma compute_layer_similarity_eval_none (d0 d1 : nat) (Wa Wb P : mat)
  (debug : bool) :
  wf_mat d0 d1 Wa -> wf_mat d0 d1 Wb -> wf_mat d0 d0 P ->
  (0 < d0)%nat -> (0 < d1)%nat ->
  compute_layer_similarity (T2 Wa) (T2 Wb) P None debug
  = Ok (trace (matmul_raw (transpose Wa) (matmul_raw P Wb))).
Proof.
  intros Ha Hb HP H0 H1.
  assert (HPl : length P = d0) by apply HP.
  assert (HPc : ncols P = d0) by exact (wf_mat_square_ncols HP).
  assert (Hbl : length Wb = d0) by apply Hb.
  pose proof (wf_transpose_pos Ha H0) as Hat.
  unfold compute_layer_similarity.
  rewrite perm_rows_T2 by congruence. cbn [bind dim Nat.eqb andb].
  assert (Hlast : matmul_t (transpose Wa) (T2 (matmul_raw P Wb))
                  = Ok (matmul_raw (transpose Wa) (matmul_raw P Wb))).
  { unfold matmul_t. rewrite torch_matmul_ok; [reflexivity |].
    rewrite (wf_mat_ncols Hat) by lia. unfold nrows.
    symmetry. apply (wf_matmul HP Hb H0). }
  destruct debug.
  - unfold assert_close2 at 1. unfold matmul_t at 1.
    rewrite torch_matmul_ok by (unfold nrows; congruence). cbn [bind].
    rewrite allclose_refl by (vm_compute; discriminate). cbn [py_assert bind].
    rewrite Hlast. reflexivity.
  - cbn [bind]. rewrite Hlast. reflexivity.
Qed.

(** X5. The similarity of a matrix layer is the Frobenius inner product of
    the docstrings, [<Wa, P Wb q^T>]; without a column permutation it is
    [<Wa, P Wb>]. *)
Theorem compute_layer_similarity_is_frobenius (d0 d1 : nat) (Wa Wb P q : mat)
  (debug : bool) :
  wf_mat d0 d1 Wa -> wf_mat d0 d1 Wb -> wf_mat d0 d0 P -> wf_mat d1 d1 q ->
  (0 < d0)%nat -> (0 < d1)%nat ->
  (exists s,
      compute_layer_similarity (T2 Wa) (T2 Wb) P (Some q) debug = Ok s
      /\ s == frobenius Wa (matmul_raw (matmul_raw P Wb) (transpose q)))
  /\ (exists s,
         compute_layer_similarity (T2 Wa) (T2 Wb) P None debug = Ok s
         /\ s == frobenius Wa (matmul_raw P Wb)).
Proof.
  intros Ha Hb HP Hq H0 H1. split.
  - eexists. split; [exact (compute_layer_similarity_eval Ha Hb HP Hq H0 H1 debug) |].
    pose proof (wf_permuted_rank2 Hb HP Hq H0 H1) as HX.
    rewrite (trace_transpose_product Ha HX H0 H1).
    exact (frobenius_eq_r Ha HX (permuted_rank2_product Hb HP Hq H0 H1)).
  - eexists. split; [exact (compute_layer_similarity_eval_none debug Ha Hb HP H0 H1) |].
    exact (trace_transpose_product Ha (wf_matmul HP Hb H0) H0 H1).
Qed.

Lemma compute_layer_similarity_is_frobenius_witness :
  (exists s,
      compute_layer_similarity (T2 [[1; 2; 4]; [3; 5; 7]])
        (T2 [[3; 7; 5]; [1; 4; 2]]) [[0; 1]; [1; 0]]
        (Some [[1; 0; 0]; [0; 0; 1]; [0; 1; 0]]) true = Ok s
      /\ s == frobenius [[1; 2; 4]; [3; 5; 7]]
                (matmul_raw (matmul_raw [[0; 1]; [1; 0]] [[3; 7; 5]; [1; 4; 2]])
                   (transpose [[1; 0; 0]; [0; 0; 1]; [0; 1; 0]])))
  /\ (exists s,
         compute_layer_similarity (T2 [[1; 2; 4]; [3; 5; 7]])
           (T2 [[3; 7; 5]; [1; 4; 2]]) [[0; 1]; [1; 0]] None true = Ok s
         /\ s == frobenius [[1; 2; 4]; [3; 5; 7]]
                   (matmul_raw [[0; 1]; [1; 0]] [[3; 7; 5]; [1; 4; 2]])).
Proof.
  apply (@compute_layer_similarity_is_frobenius 2 3);
    try (split; [reflexivity | repeat constructor]); lia.
Defined.

Lemma similarity_pairs_with_col_term (d0 d1 : nat) (Wa X q : mat) :
  wf_mat d0 d1 Wa -> wf_mat d0 d1 X -> wf_mat d1 d1 q ->
  (0 < d0)%nat -> (0 < d1)%nat ->
  frobenius Wa (matmul_raw X (transpose q))
  == frobenius (matmul_raw (transpose Wa) X) q.
Proof.
  intros Ha HX Hq H0 H1.
  pose proof (wf_transpose_pos Hq H1) as Hqt.
  pose proof (wf_transpose_pos Ha H0) as Hat.
  rewrite (frobenius_bigsum Ha (wf_matmul HX Hqt H1)).
  rewrite (frobenius_bigsum (wf_matmul Hat HX H0) Hq).
  rewrite bigsum_exchange.
  apply bigsum_ext. intros a Ha'.
  transitivity
    (bigsum d0 (fun i =>
       bigsum d1 (fun b => entry Wa i a * entry X i b * entry q a b))).
  - apply bigsum_ext. intros i Hi.
    rewrite (entry_matmul HX Hqt H1 Hi Ha').
    rewrite <- bigsum_scale_l. apply bigsum_ext. intros b Hb.
    rewrite (entry_transpose Hq H1 Ha' Hb). ring.
  - rewrite bigsum_exchange. apply bigsum_ext. intros b Hb.
    rewrite (entry_matmul Hat HX H0 Ha' Hb).
    rewrite <- bigsum_scale_r. apply bigsum_ext. intros i Hi.
    rewrite (entry_transpose Ha H0 Hi Ha'). ring.
Qed.

(** X6. The column term is the partial derivative of the similarity in the
    column permutation: [compute_gradient_P_prev] returns [Wa^T (P Wb)], a
    square matrix of the column extent, and for every [q] the similarity is
    [<Wa^T (P Wb), q>], linear in [q] with the returned matrix as its
    coefficients. *)
Theorem compute_gradient_P_prev_col_term (d0 d1 : nat) (Wa Wb P : mat) :
  wf_mat d0 d1 Wa -> wf_mat d0 d1 Wb -> wf_mat d0 d0 P ->
  (0 < d0)%nat -> (0 < d1)%nat ->
  exists G,
    compute_gradient_P_prev (T2 Wa) (T2 Wb) P = Ok G
    /\ G = matmul_raw (transpose Wa) (matmul_raw P Wb)
    /\ wf_mat d1 d1 G
    /\ forall (q : mat) (debug : bool),
         wf_mat d1 d1 q ->
         exists s,
           compute_layer_similarity (T2 Wa) (T2 Wb) P (Some q) debug = Ok s
           /\ s == frobenius G q.
Proof.
  intros Ha Hb HP H0 H1.
  pose proof (wf_matmul HP Hb H0) as HPb.
  pose proof (wf_transpose_pos Ha H0) as Hat.
  eexists. split; [exact (compute_gradient_P_prev_eval Ha Hb HP H0 H1) |].
  split; [reflexivity |]. split; [exact (wf_matmul Hat HPb H0) |].
  intros q debug Hq. eexists.
  split; [exact (compute_layer_similarity_eval Ha Hb HP Hq H0 H1 debug) |].
  pose proof (wf_permuted_rank2 Hb HP Hq H0 H1) as HX.
  rewrite (trace_transpose_product Ha HX H0 H1).
  rewrite (frobenius_eq_r Ha HX (permuted_rank2_product Hb HP Hq H0 H1)).
  exact (similarity_pairs_with_col_term Ha HPb Hq H0 H1).
Qed.

Lemma compute_gradient_P_prev_col_term_witness :
  exists G,
    compute_gradient_P_prev (T2 [[1; 2; 4]; [3; 5; 7]])
      (T2 [[3; 7; 5]; [1; 4; 2]]) [[0; 1]; [1; 0]] = Ok G
    /\ G = matmul_raw (transpose [[1; 2; 4]; [3; 5; 7]])
             (matmul_raw [[0; 1]; [1; 0]] [[3; 7; 5]; [1; 4; 2]])
    /\ wf_mat 3 3 G
    /\ forall (q : mat) (debug : bool),
         wf_mat 3 3 q ->
         exists s,
           compute_layer_similarity (T2 [[1; 2; 4]; [3; 5; 7]])
             (T2 [[3; 7; 5]; [1; 4; 2]]) [[0; 1]; [1; 0]] (Some q) debug = Ok s
           /\ s == frobenius G q.
Proof.
  apply (@compute_gradient_P_prev_col_term 2 3);
    try (split; [reflexivity | repeat constructor]); lia.
Defined.

(** X7. Without a column permutation [compute_gradient_P_curr] uses the
    identity of size [Wb.shape[1]]: the row term is [Wa @ Wb.T], a square
    matrix of the row extent. *)
Theorem compute_gradient_P_curr_without_col_perm (d0 d1 : nat) (Wa Wb : mat) :
  wf_mat d0 d1 Wa -> wf_mat d0 d1 Wb -> (0 < d0)%nat -> (0 < d1)%nat ->
  exists G,
    compute_gradient_P_curr (T2 Wa) (T2 Wb) None = Ok G
    /\ compute_gradient_P_curr (T2 Wa) (T2 Wb) (Some (eye d1)) = Ok G
    /\ wf_mat d0 d0 G
    /\ mat_eq G (matmul_raw Wa (transpose Wb)).
Proof.
  intros Ha Hb H0 H1.
  pose proof (wf_transpose_pos Hb H0) as Hbt.
  pose proof (wf_mat_ncols Hb) as Hnc.
  assert (Hsome : compute_gradient_P_curr (T2 Wa) (T2 Wb) (Some (eye d1))
                  = Ok (matmul_raw Wa (matmul_raw (eye d1) (transpose Wb)))).
  { apply compute_gradient_P_curr_eval.
    - destruct Ha as [-> _], Hb as [-> _]. reflexivity.
    - rewrite (wf_mat_ncols Ha), Hnc by lia. reflexivity.
    - rewrite Hnc by lia. apply wf_eye. }
  eexists. split; [| split; [exact Hsome | split]].
  - change (compute_gradient_P_curr (T2 Wa) (T2 Wb) None)
      with (compute_gradient_P_curr (T2 Wa) (T2 Wb) (Some (eye (ncols Wb)))).
    rewrite Hnc by lia. exact Hsome.
  - exact (wf_matmul Ha (wf_matmul (wf_eye d1) Hbt H1) H1).
  - exact (matmul_raw_eq_r Ha (wf_matmul (wf_eye d1) Hbt H1)
             (matmul_eye_l Hbt H1) H1).
Qed.

Lemma compute_gradient_P_curr_without_col_perm_witness :
  exists G,
    compute_gradient_P_curr (T2 [[1; 2; 4]; [3; 5; 7]])
      (T2 [[3; 7; 5]; [1; 4; 2]]) None = Ok G
    /\ compute_gradient_P_curr (T2 [[1; 2; 4]; [3; 5; 7]])
         (T2 [[3; 7; 5]; [1; 4; 2]]) (Some (eye 3)) = Ok G
    /\ wf_mat 2 2 G
    /\ mat_eq G (matmul_raw [[1; 2; 4]; [3; 5; 7]]
                   (transpose [[3; 7; 5]; [1; 4; 2]])).
Proof.
  apply (@compute_gradient_P_curr_without_col_perm 2 3);
    try (split; [reflexivity | repeat constructor]); lia.
Defined.

Lemma shape_eqb_true_iff (s1 s2 : list nat) : shape_eqb s1 s2 = true <-> s1 = s2.
Proof.
  unfold shape_eqb. destruct (list_eq_dec Nat.eq_dec s1 s2); split;
    intros H; try assumption; try reflexivity; try discriminate; contradiction.
Qed.

Lemma shape_eqb_false_iff (s1 s2 : list nat) : shape_eqb s1 s2 = false <-> s1 <> s2.
Proof.
  unfold shape_eqb. destruct (list_eq_dec Nat.eq_dec s1 s2); split;
    intros H; try assumption; try reflexivity; try discriminate; contradiction.
Qed.

(** X8. On matrices [compute_gradient_P_curr] fails only by its asserts: it
    returns [Wa @ (q @ Wb.T)] when the two operands have one shape and [q] is
    square of size [Wb.shape[1]], and raises [AssertionError] otherwise. *)
Theorem compute_gradient_P_curr_asserts (Wa Wb q : mat) :
  (shape (T2 Wa) = shape (T2 Wb) /\ nrows q = ncols Wb /\ nrows q = ncols q ->
   compute_gradient_P_curr (T2 Wa) (T2 Wb) (Some q)
   = Ok (matmul_raw Wa (matmul_raw q (transpose Wb))))
  /\ (~ (shape (T2 Wa) = shape (T2 Wb) /\ nrows q = ncols Wb
         /\ nrows q = ncols q) ->
      compute_gradient_P_curr (T2 Wa) (T2 Wb) (Some q) = Raise AssertionError).
Proof.
  assert (Hpr : nrows q = ncols Wb ->
                perm_rows (T2 (transpose Wb)) q
                = (_ <- py_assert (Nat.eqb (nrows q) (ncols q)) ;;
                   Ok (T2 (matmul_raw q (transpose Wb))))).
  { intros Hq. unfold perm_rows. cbn [shape hd].
    rewrite length_transpose, <- Hq, Nat.eqb_refl. reflexivity. }
  split.
  - intros (Hs & Hq & Hsq).
    unfold compute_gradient_P_curr. cbn [bind].
    apply shape_eqb_true_iff in Hs. rewrite Hs. cbn [py_assert bind].
    change (shape_at (T2 Wb) 1) with (Ok (ncols Wb)). cbn [bind].
    rewrite Hq, Nat.eqb_refl. cbn [py_assert bind transpose10].
    rewrite (Hpr Hq), Hsq, Nat.eqb_refl. cbn [py_assert bind dim Nat.eqb].
    unfold assert_close2, matmul_t.
    rewrite torch_matmul_ok
      by (unfold nrows; rewrite length_transpose; congruence).
    cbn [bind]. rewrite allclose_refl by (vm_compute; discriminate).
    cbn [py_assert bind].
    apply torch_matmul_ok. unfold nrows, matmul_raw. rewrite length_map.
    apply shape_eqb_true_iff in Hs. cbn [shape] in Hs.
    injection Hs as _ Hc. unfold nrows in Hq. congruence.
  - intros Hnot. unfold compute_gradient_P_curr. cbn [bind].
    destruct (shape_eqb (shape (T2 Wa)) (shape (T2 Wb))) eqn:Es;
      [| reflexivity].
    apply shape_eqb_true_iff in Es. cbn [py_assert bind].
    change (shape_at (T2 Wb) 1) with (Ok (ncols Wb)). cbn [bind].
    destruct (Nat.eqb_spec (nrows q) (ncols Wb)) as [Hq | Hq];
      [| reflexivity].
    cbn [py_assert bind transpose10]. rewrite (Hpr Hq).
    destruct (Nat.eqb_spec (nrows q) (ncols q)) as [Hsq | Hsq];
      [| reflexivity].
    exfalso. apply Hnot. now repeat split.
Qed.

(** X9. [compute_gradient_P_prev] asserts only on [P_curr], never on the
    shape of [Wa] against [Wb]: on matrices it raises [AssertionError] when
    [P_curr] is not square of size [Wb.shape[0]], and otherwise it is the
    product [Wa.T @ (P_curr @ Wb)] as [torch] performs it, which raises
    [RuntimeError] when [Wa] has another number of rows than [Wb]. *)
Theorem compute_gradient_P_prev_asserts (Wa Wb P : mat) :
  (nrows P = nrows Wb /\ nrows P = ncols P ->
   compute_gradient_P_prev (T2 Wa) (T2 Wb) P
   = torch_matmul (transpose Wa) (matmul_raw P Wb))
  /\ (~ (nrows P = nrows Wb /\ nrows P = ncols P) ->
      compute_gradient_P_prev (T2 Wa) (T2 Wb) P = Raise AssertionError)
  /\ (forall r c, wf_mat r c Wa -> (0 < r)%nat -> (0 < c)%nat ->
      nrows P = nrows Wb -> nrows P = ncols P -> r <> nrows Wb ->
      compute_gradient_P_prev (T2 Wa) (T2 Wb) P = Raise RuntimeError).
Proof.
  assert (Hret : nrows P = nrows Wb -> nrows P = ncols P ->
                 compute_gradient_P_prev (T2 Wa) (T2 Wb) P
                 = torch_matmul (transpose Wa) (matmul_raw P Wb)).
  { intros Hn Hsq. unfold compute_gradient_P_prev. cbn [shape hd].
    unfold nrows in *. rewrite Hn, Nat.eqb_refl. cbn [py_assert bind].
    rewrite perm_rows_T2 by congruence.
    cbn [bind dim Nat.eqb]. unfold assert_equal2, matmul_t.
    rewrite torch_matmul_ok by (unfold nrows; congruence).
    cbn [bind]. rewrite mat_eqb_refl. reflexivity. }
  split; [| split].
  - intros [Hn Hsq]. exact (Hret Hn Hsq).
  - intros Hnot. unfold compute_gradient_P_prev. cbn [shape hd].
    destruct (Nat.eqb_spec (nrows P) (length Wb)) as [Hn | Hn];
      [| reflexivity].
    cbn [py_assert bind]. unfold perm_rows. cbn [shape hd].
    unfold nrows in *. rewrite <- Hn, Nat.eqb_refl. cbn [py_assert bind].
    destruct (Nat.eqb_spec (length P) (ncols P)) as [Hsq | Hsq];
      [| reflexivity].
    exfalso. apply Hnot. split; assumption.
  - intros r c Ha Hr Hc Hn Hsq Hne. rewrite (Hret Hn Hsq).
    unfold torch_matmul.
    rewrite (wf_mat_ncols (wf_transpose_pos Ha Hr)) by lia.
    unfold nrows, matmul_raw. rewrite length_map.
    unfold nrows in Hn, Hne. rewrite Hn.
    destruct (Nat.eqb_spec r (length Wb)); [contradiction | reflexivity].
Qed.

(** X10. For vector parameters the similarity is the dot product
    [<a, P b>]; a column permutation cannot be applied to a vector and
    raises [IndexError] at [x.shape[1]] of [perm_cols]. *)
Theorem compute_layer_similarity_vectors (a b : vec) (P q : mat) (debug : bool) :
  length b = nrows P -> nrows P = ncols P -> length a = nrows P ->
  compute_layer_similarity (T1 a) (T1 b) P None debug = Ok (dot a (mv_raw P b))
  /\ compute_layer_similarity (T1 a) (T1 b) P (Some q) debug = Raise IndexError.
Proof.
  intros Hb Hsq Ha. unfold compute_layer_similarity.
  rewrite perm_rows_T1 by (unfold nrows in *; congruence).
  cbn [bind dim Nat.eqb andb]. split.
  - rewrite length_mv_raw. unfold nrows in Ha. rewrite Ha, Nat.eqb_refl.
    reflexivity.
  - reflexivity.
Qed.

Lemma compute_layer_similarity_vectors_witness :
  compute_layer_similarity (T1 [1; -1]) (T1 [-1; 1]) [[0; 1]; [1; 0]] None true
  = Ok (dot [1; -1] (mv_raw [[0; 1]; [1; 0]] [-1; 1]))
  /\ compute_layer_similarity (T1 [1; -1]) (T1 [-1; 1]) [[0; 1]; [1; 0]]
       (Some [[1]]) true = Raise IndexError.
Proof.
  apply (@compute_layer_similarity_vectors [1; -1] [-1; 1] [[0; 1]; [1; 0]]);
    reflexivity.
Defined.


(* ================================================================= *)
(** ** Further properties of the layerwise objective, the gradient
       dictionary and the line search *)

Lemma for_each_ok_each (A S : Type) (body : S -> A -> result S) (l : list A) :
  forall s s', for_each body l s = Ok s' ->
               forall a, In a l -> exists s1 s2, body s1 a = Ok s2.
Proof.
  induction l as [| x l IH]; simpl; intros s s' H a Ha; [contradiction |].
  inv_bind H. destruct Ha as [<- | Ha].
  - eauto.
  - eapply IH; eauto.
Qed.

Lemma for_each_ext_in (A S : Type) (body1 body2 : S -> A -> result S)
  (l : list A) :
  (forall s a, In a l -> body1 s a = body2 s a) ->
  forall s, for_each body1 l s = for_each body2 l s.
Proof.
  induction l as [| x l IH]; simpl; intros H s; [reflexivity |].
  rewrite (H s x) by now left.
  destruct (body2 s x) as [s1 | e]; simpl; [| reflexivity].
  apply IH. intros s0 y Hy. apply H. now right.
Qed.

Lemma perm_or_eye_named (perm_matrices : Dict.t PermutationMatrix) (p : string)
  (n : result nat) (m : mat) :
  perm_or_eye perm_matrices (Some p) n = Ok m -> Dict.mem p perm_matrices = true.
Proof.
  unfold perm_or_eye. intros H. inv_bind H. now apply py_assert_ok_inv in Ha.
Qed.

(** X11. When the layerwise objective returns, the topology was consistent
    with its arguments: every layer of the topology is a key of both
    parameter sets, its list of permutations is not empty, and a permutation
    named in one of its first two positions is a key of [perm_matrices]. *)
Theorem get_global_obj_layerwise_requires (params_a params_b : ModelParams)
  (perm_matrices : Dict.t PermutationMatrix)
  (layers_and_axes_to_perms : Dict.t (list (option string))) (tot_obj : Q) :
  get_global_obj_layerwise params_a params_b perm_matrices
    layers_and_axes_to_perms = Ok tot_obj ->
  forall layer axes_and_perms,
    In (layer, axes_and_perms) (Dict.items layers_and_axes_to_perms) ->
    Dict.mem layer params_a = true
    /\ Dict.mem layer params_b = true
    /\ axes_and_perms <> []
    /\ forall p, In (Some p) (firstn 2 axes_and_perms) ->
                 Dict.mem p perm_matrices = true.
Proof.
  unfold get_global_obj_layerwise. intros H layer axes Hin.
  destruct (for_each_ok_each _ _ _ H _ Hin) as (s1 & s2 & Hbody).
  cbn beta iota in Hbody.
  inv_bind_as Hbody ops Hops. destruct ops as [Wa Wb].
  inv_bind_as Hbody pr Hpr.
  destruct pr as [[[row_perm_id row_perm] col_perm_id] col_perm].
  unfold layer_operands in Hops.
  inv_bind_as Hops u1 Hma. apply py_assert_ok_inv in Hma.
  inv_bind_as Hops u2 Hmb. apply py_assert_ok_inv in Hmb.
  split; [exact Hma |]. split; [exact Hmb |].
  unfold layer_perms in Hpr.
  inv_bind_as Hpr rid Hrid. inv_bind_as Hpr rp Hrp. inv_bind_as Hpr cp Hcp.
  destruct axes as [| r rest]; [discriminate |].
  split; [discriminate |].
  cbn [row_perm_id_of] in Hrid. injection Hrid as <-.
  intros p Hp. destruct rest as [| c rest'].
  - cbn [firstn In] in Hp. destruct Hp as [-> | []].
    exact (perm_or_eye_named _ _ _ Hrp).
  - cbn [firstn In] in Hp. destruct Hp as [-> | [-> | []]].
    + exact (perm_or_eye_named _ _ _ Hrp).
    + cbn [col_perm_id_of] in Hcp. exact (perm_or_eye_named _ _ _ Hcp).
Qed.

Lemma get_global_obj_layerwise_requires_witness :
  get_global_obj_layerwise Concrete.mlp_params_a Concrete.mlp_params_b
    [("P_0", eye 2); ("P_final", eye 1)]
    (layer_and_axes_to_perm Concrete.mlp_spec) = Ok 28
  /\ forall layer axes_and_perms,
       In (layer, axes_and_perms)
          (Dict.items (layer_and_axes_to_perm Concrete.mlp_spec)) ->
       Dict.mem layer Concrete.mlp_params_a = true
       /\ Dict.mem layer Concrete.mlp_params_b = true
       /\ axes_and_perms <> []
       /\ forall p, In (Some p) (firstn 2 axes_and_perms) ->
                    Dict.mem p [("P_0", eye 2); ("P_final", eye 1)] = true.
Proof.
  split; [vm_compute; reflexivity |].
  apply (@get_global_obj_layerwise_requires Concrete.mlp_params_a
           Concrete.mlp_params_b [("P_0", eye 2); ("P_final", eye 1)]
           (layer_and_axes_to_perm Concrete.mlp_spec) 28).
  vm_compute. reflexivity.
Defined.

Lemma dict_set_keys_existing (V : Type) (k : string) (v v0 : V) (d : Dict.t V) :
  Dict.get k d = Some v0 -> Dict.keys (Dict.set k v d) = Dict.keys d.
Proof.
  induction d as [| [k' v'] d IH]; simpl; [discriminate |].
  destruct (String.eqb k k') eqn:E; intros H.
  - apply String.eqb_eq in E. subst k'. reflexivity.
  - simpl. f_equal. apply IH. exact H.
Qed.

Lemma mat_shape_zeros (n : nat) : mat_shape (zeros n n) = [n; n].
Proof.
  unfold mat_shape, nrows, ncols, zeros. rewrite repeat_length.
  destruct n as [| n]; [reflexivity |]. simpl. now rewrite repeat_length.
Qed.

Lemma mat_shape_madd (a b c : mat) : madd a b = Ok c -> mat_shape c = mat_shape a.
Proof.
  unfold madd. destruct (shape_eqb (mat_shape a) (mat_shape b)) eqn:E;
    [| discriminate].
  intros H. injection H as <-.
  apply shape_eqb_true_iff in E. unfold mat_shape, nrows, ncols in *.
  injection E as Hl Hc.
  destruct a as [| ra a], b as [| rb b]; try discriminate; [reflexivity |].
  simpl in *. f_equal; [f_equal; apply length_map2; congruence |].
  f_equal. apply length_map2. exact Hc.
Qed.

Lemma zero_gradients_keys (perm_sizes : Dict.t nat) (l : list string) :
  forall acc gradients,
    for_each
      (fun acc p => n <- Dict.getitem p perm_sizes ;; Ok (acc ++ [(p, zeros n n)]))
      l acc = Ok gradients ->
    Dict.keys gradients = Dict.keys acc ++ l.
Proof.
  induction l as [| p l IH]; simpl; intros acc gradients H.
  - injection H as <-. now rewrite app_nil_r.
  - inv_bind H. inv_bind Ha. injection Ha as <-.
    rewrite (IH _ _ H). unfold Dict.keys. rewrite map_app, <- app_assoc.
    reflexivity.
Qed.

(** X12. The gradient dictionary follows [perm_matrices]: when
    [weight_matching_gradient_fn_layerwise] returns, its result has the keys
    of [perm_matrices] in the same order, and the gradient of each
    permutation variable has the shape [(n, n)] for [n = perm_sizes[p]]. *)
Theorem gradient_dictionary_shape (params_a params_b : ModelParams)
  (perm_matrices : Dict.t PermutationMatrix)
  (layers_and_axes_to_perms : Dict.t (list (option string)))
  (perm_sizes : Dict.t nat) (gradients : Dict.t mat) :
  weight_matching_gradient_fn_layerwise params_a params_b perm_matrices
    layers_and_axes_to_perms perm_sizes = Ok gradients ->
  Dict.keys gradients = Dict.keys perm_matrices
  /\ forall p g, Dict.get p gradients = Some g ->
                 exists n, Dict.get p perm_sizes = Some n
                           /\ mat_shape g = [n; n].
Proof.
  unfold weight_matching_gradient_fn_layerwise. intros H.
  inv_bind_as H gr0 Hz.
  set (Inv := fun gr : Dict.t mat =>
                Dict.keys gr = Dict.keys perm_matrices
                /\ forall p g, Dict.get p gr = Some g ->
                               exists n, Dict.get p perm_sizes = Some n
                                         /\ mat_shape g = [n; n]).
  assert (Hacc : forall gr gr' id grad,
             Inv gr -> accumulate gr id grad = Ok gr' -> Inv gr').
  { intros gr gr' id grad [Hk Hs] Ha. unfold accumulate in Ha.
    destruct (truthy id) as [q |]; [| injection Ha as <-; now split].
    inv_bind_as Ha g0 Hg0. inv_bind_as Ha g1 Hg1. injection Ha as <-.
    unfold Dict.getitem in Hg0.
    destruct (Dict.get q gr) as [g0' |] eqn:E; [| discriminate].
    injection Hg0 as ->. split.
    - rewrite (@dict_set_keys_existing _ _ _ _ _ E). exact Hk.
    - intros p g Hg. destruct (string_dec q p) as [-> | Hne].
      + rewrite dict_get_set_same in Hg. injection Hg as <-.
        destruct (Hs _ _ E) as (n & Hn & Hsh). exists n. split; [exact Hn |].
        rewrite (@mat_shape_madd _ _ _ Hg1). exact Hsh.
      + rewrite dict_get_set_other in Hg by exact Hne. now apply Hs. }
  assert (H0 : Inv gr0).
  { split.
    - unfold zero_gradients in Hz. now rewrite (@zero_gradients_keys _ _ _ _ Hz).
    - revert Hz. unfold zero_gradients.
      apply (@for_each_invariant _ _
               (fun gr : Dict.t mat =>
                  forall p g, Dict.get p gr = Some g ->
                              exists n, Dict.get p perm_sizes = Some n
                                        /\ mat_shape g = [n; n])).
      + intros acc p0 acc' _ Hs Hb p g Hg. inv_bind_as Hb n Hn.
        injection Hb as <-. rewrite dict_get_app_last in Hg.
        destruct (Dict.get p acc) as [g1 |] eqn:E.
        * injection Hg as <-. now apply Hs.
        * destruct (String.eqb p p0) eqn:Ep; [| discriminate].
          apply String.eqb_eq in Ep. subst p0. injection Hg as <-.
          unfold Dict.getitem in Hn.
          destruct (Dict.get p perm_sizes) as [n0 |]; [| discriminate].
          injection Hn as ->. exists n. split; [reflexivity |].
          apply mat_shape_zeros.
      + intros p g Hg. discriminate. }
  revert H. apply (@for_each_invariant _ _ Inv); [| exact H0].
  intros gr [layer axes] gr' _ Hgr Hbody.
  inv_bind_as Hbody ops Hops. destruct ops as [Wa Wb].
  inv_bind_as Hbody pr Hpr.
  destruct pr as [[[row_perm_id row_perm] col_perm_id] col_perm].
  inv_bind_as Hbody gc Hgc. inv_bind_as Hbody gp Hgp.
  inv_bind_as Hbody gr1 Hacc1.
  eapply Hacc; [| exact Hbody]. eapply Hacc; [exact Hgr | exact Hacc1].
Qed.

Lemma gradient_dictionary_shape_witness :
  exists gradients,
    weight_matching_gradient_fn_layerwise Concrete.mlp_params_a
      Concrete.mlp_params_b [("P_0", eye 2); ("P_final", eye 1)]
      (layer_and_axes_to_perm Concrete.mlp_spec) Concrete.mlp_sizes
    = Ok gradients
    /\ Dict.keys gradients = ["P_0"; "P_final"]
    /\ forall p g, Dict.get p gradients = Some g ->
                   exists n, Dict.get p Concrete.mlp_sizes = Some n
                             /\ mat_shape g = [n; n].
Proof.
  eexists. split; [vm_compute; reflexivity |].
  apply (@gradient_dictionary_shape Concrete.mlp_params_a Concrete.mlp_params_b
           [("P_0", eye 2); ("P_final", eye 1)]
           (layer_and_axes_to_perm Concrete.mlp_spec) Concrete.mlp_sizes).
  vm_compute. reflexivity.
Defined.

Lemma dict_mem_getitem (V : Type) (k : string) (d : Dict.t V) :
  Dict.mem k d = true -> exists v, Dict.getitem k d = Ok v.
Proof.
  unfold Dict.mem, Dict.getitem. destruct (Dict.get k d) as [v |];
    [eauto | discriminate].
Qed.

Lemma in_items_in_keys (V : Type) (k : string) (v : V) (d : Dict.t V) :
  In (k, v) d -> In k (Dict.keys d).
Proof. intros H. unfold Dict.keys. apply in_map_iff. now exists (k, v). Qed.

(** X13. The line search evaluates the objective where the update would
    move: when every key of [perm_matrices] has a projected gradient,
    [line_search_step(t)] is the negated objective of
    [update_perm_matrices(perm_matrices, proj_grads, t)], errors included.
    Unlike the update, it looks the projected gradient up before the test
    for the fixed names, so it raises when any key lacks one. *)
Theorem line_search_step_evaluates_update (t : Q) (params_a params_b : ModelParams)
  (proj_grads perm_matrices : Dict.t mat)
  (layers_and_axes_to_perms : Dict.t (list (option string))) :
  ((forall p, In p (Dict.keys perm_matrices) -> Dict.mem p proj_grads = true) ->
   line_search_step t params_a params_b proj_grads perm_matrices
     layers_and_axes_to_perms
   = (perm_matrices' <- update_perm_matrices perm_matrices proj_grads t ;;
      tot_obj <- get_global_obj_layerwise params_a params_b perm_matrices'
                   layers_and_axes_to_perms ;;
      Ok (- tot_obj)))
  /\ (forall p, In p (Dict.keys perm_matrices) -> Dict.get p proj_grads = None ->
      exists e, line_search_step t params_a params_b proj_grads perm_matrices
                  layers_and_axes_to_perms = Raise e).
Proof.
  split.
  - intros Hkeys. unfold line_search_step.
    rewrite interpolate_perms_as_store, update_perm_matrices_as_store.
    f_equal. apply for_each_ext_in. intros acc [k v] Hin.
    destruct (dict_mem_getitem _ _ (Hkeys k (in_items_in_keys _ _ _ Hin)))
      as [g Hg].
    rewrite Hg. cbn [bind]. destruct (is_fixed k); reflexivity.
  - intros p Hin Hnone. unfold line_search_step.
    apply in_map_iff in Hin. destruct Hin as ([k v] & Hk & Hin).
    simpl in Hk. subst k.
    destruct (@for_each_raises _ _
                (fun interpolated_perms '(perm_name, perm) =>
                   proj_grad <- Dict.getitem perm_name proj_grads ;;
                   if is_fixed perm_name
                   then Ok (Dict.set perm_name perm interpolated_perms)
                   else
                     p <- interpolate t perm proj_grad ;;
                     Ok (Dict.set perm_name p interpolated_perms))
                (Dict.items perm_matrices) (p, v) Hin) with (s := @Dict.empty mat)
      as [e He].
    + intros s. exists (KeyError p). unfold Dict.getitem. now rewrite Hnone.
    + exists e. unfold interpolate_perms. rewrite He. reflexivity.
Qed.

Lemma entry_interp (a b : Q) (n i j : nat) (P X : mat) :
  wf_mat n n P -> wf_mat n n X -> (i < n)%nat -> (j < n)%nat ->
  entry (madd_raw (mscale a P) (mscale b X)) i j
  = a * entry P i j + b * entry X i j.
Proof.
  intros HP HX Hi Hj. unfold entry, madd_raw, mscale.
  assert (HlP : length P = n) by apply HP.
  assert (HlX : length X = n) by apply HX.
  rewrite (@nth_map2_in _ _ _ (map2 Qplus) _ _ i [] [] [])
    by (rewrite length_map; lia).
  rewrite (@nth_map_in _ _ (map (Qmult a)) P i [] []) by lia.
  rewrite (@nth_map_in _ _ (map (Qmult b)) X i [] []) by lia.
  pose proof (wf_row_length HP Hi) as HrP.
  pose proof (wf_row_length HX Hi) as HrX.
  rewrite (@nth_map2_in _ _ _ Qplus _ _ j 0 0 0)
    by (rewrite length_map; lia).
  rewrite (@nth_map_in _ _ (Qmult a) (nth i P []) j 0 0) by lia.
  rewrite (@nth_map_in _ _ (Qmult b) (nth i X []) j 0 0) by lia.
  reflexivity.
Qed.

(** X14. The update moves each free permutation variable along the segment
    to its projected gradient: the new matrix of a name that is not fixed
    has the entries [(1 - t) * perm + t * proj_grad]; a step of 0 leaves the
    matrix as it is and a step of 1 replaces it by the projected gradient. *)
Theorem update_perm_matrices_entry (perm_matrices proj_grads new : Dict.t mat)
  (step_size : Q) (p : string) (perm proj_grad : mat) (n : nat) :
  NoDup (Dict.keys perm_matrices) ->
  Dict.get p perm_matrices = Some perm ->
  Dict.get p proj_grads = Some proj_grad ->
  is_fixed p = false ->
  wf_mat n n perm -> wf_mat n n proj_grad ->
  update_perm_matrices perm_matrices proj_grads step_size = Ok new ->
  exists m,
    Dict.get p new = Some m
    /\ wf_mat n n m
    /\ (forall i j, (i < n)%nat -> (j < n)%nat ->
          entry m i j
          == (1 - step_size) * entry perm i j + step_size * entry proj_grad i j)
    /\ (step_size == 0 -> mat_eq m perm)
    /\ (step_size == 1 -> mat_eq m proj_grad).
Proof.
  intros Hnd Hpm Hpg Hfix Hperm Hproj H.
  rewrite update_perm_matrices_as_store in H.
  pose proof (@store_loop_get _ _ _ p Hnd _ _ H) as Hget.
  rewrite Hpm, Hfix in Hget. unfold Dict.getitem in Hget.
  rewrite Hpg in Hget. cbn [bind] in Hget.
  rewrite (interpolate_ok step_size Hperm Hproj) in Hget.
  pose proof (wf_interp (1 - step_size) step_size Hperm Hproj) as Hwf.
  eexists. split; [exact Hget |]. split; [exact Hwf |].
  assert (Hentry : forall i j, (i < n)%nat -> (j < n)%nat ->
            entry (madd_raw (mscale (1 - step_size) perm)
                     (mscale step_size proj_grad)) i j
            == (1 - step_size) * entry perm i j
               + step_size * entry proj_grad i j).
  { intros i j Hi Hj. now rewrite (entry_interp _ _ Hperm Hproj Hi Hj). }
  split; [exact Hentry |]. split; intros Ht.
  - apply (@mat_eq_entries n n); [exact Hwf | exact Hperm |].
    intros i j Hi Hj. rewrite (Hentry i j Hi Hj), Ht. ring.
  - apply (@mat_eq_entries n n); [exact Hwf | exact Hproj |].
    intros i j Hi Hj. rewrite (Hentry i j Hi Hj), Ht. ring.
Qed.

Lemma update_perm_matrices_entry_witness :
  exists new,
    update_perm_matrices [("P_0", eye 2); ("P_final", eye 1)]
      [("P_0", [[0; 1]; [1; 0]]); ("P_final", [[1]])] (1 # 4) = Ok new
    /\ exists m,
         Dict.get "P_0" new = Some m
         /\ wf_mat 2 2 m
         /\ (forall i j, (i < 2)%nat -> (j < 2)%nat ->
               entry m i j
               == (1 - (1 # 4)) * entry (eye 2) i j
                  + (1 # 4) * entry [[0; 1]; [1; 0]] i j)
         /\ ((1 # 4) == 0 -> mat_eq m (eye 2))
         /\ ((1 # 4) == 1 -> mat_eq m [[0; 1]; [1; 0]]).
Proof.
  eexists. split; [vm_compute; reflexivity |].
  apply (@update_perm_matrices_entry
           [("P_0", eye 2); ("P_final", eye 1)]
           [("P_0", [[0; 1]; [1; 0]]); ("P_final", [[1]])] _
           (1 # 4) "P_0" (eye 2) [[0; 1]; [1; 0]] 2).
  - repeat constructor; simpl; intuition discriminate.
  - reflexivity.
  - reflexivity.
  - reflexivity.
  - apply wf_eye.
  - split; [reflexivity | repeat constructor].
  - vm_compute. reflexivity.
Defined.


(* ================================================================= *)
(** ** Further properties of [sinkhorn_knopp] and of the initializer *)

Lemma vsum_nonneg (v : vec) : Forall (fun x => 0 <= x) v -> 0 <= vsum v.
Proof.
  induction 1 as [| x v Hx _ IH]; [apply Qle_refl |].
  rewrite vsum_cons. lra.
Qed.

Lemma dot_nonneg (u v : vec) :
  Forall (fun x => 0 <= x) u -> Forall (fun x => 0 <= x) v -> 0 <= dot u v.
Proof.
  intros Hu. revert v.
  induction Hu as [| x u Hx _ IH]; intros v Hv; [apply Qle_refl |].
  destruct Hv as [| y v Hy Hv]; [apply Qle_refl |].
  change (dot (x :: u) (y :: v)) with (x * y + dot u v).
  specialize (IH v Hv).
  pose proof (Qmult_le_0_compat _ _ Hx Hy). lra.
Qed.

Lemma col_nonneg (j : nat) (m : mat) :
  nonneg_mat m -> Forall (fun x => 0 <= x) (col j m).
Proof.
  unfold nonneg_mat, col. induction 1 as [| r m Hr _ IH]; simpl; [constructor |].
  destruct (nth_error r j) as [x |] eqn:E; simpl; [| exact IH].
  constructor; [| exact IH].
  apply nth_error_In in E. rewrite Forall_forall in Hr. now apply Hr.
Qed.

Lemma transpose_nonneg (m : mat) : nonneg_mat m -> nonneg_mat (transpose m).
Proof.
  intros H. unfold nonneg_mat, transpose. apply Forall_forall.
  intros r Hr. apply in_map_iff in Hr. destruct Hr as (j & <- & _).
  now apply col_nonneg.
Qed.

Lemma matmul_nonneg (a b : mat) :
  nonneg_mat a -> nonneg_mat b -> nonneg_mat (matmul_raw a b).
Proof.
  intros Ha Hb. pose proof (transpose_nonneg Hb) as Hbt.
  unfold nonneg_mat, matmul_raw in *. apply Forall_forall.
  intros r Hr. apply in_map_iff in Hr. destruct Hr as (ra & <- & Hra).
  apply Forall_forall. intros x Hx. apply in_map_iff in Hx.
  destruct Hx as (c & <- & Hc).
  rewrite Forall_forall in Ha, Hbt. apply dot_nonneg; auto.
Qed.

Lemma mv_nonneg (m : mat) (v : vec) :
  nonneg_mat m -> Forall (fun x => 0 <= x) v ->
  Forall (fun x => 0 <= x) (mv_raw m v).
Proof.
  intros Hm Hv. unfold mv_raw. apply Forall_forall. intros x Hx.
  apply in_map_iff in Hx. destruct Hx as (r & <- & Hr).
  unfold nonneg_mat in Hm. rewrite Forall_forall in Hm.
  apply dot_nonneg; auto.
Qed.

Lemma sinkhorn_eps_pos : 0 < sinkhorn_eps.
Proof. reflexivity. Qed.

Lemma div_nonneg (x y : Q) : 0 <= x -> 0 <= y -> 0 <= x / y.
Proof.
  intros Hx Hy. unfold Qdiv. apply Qmult_le_0_compat; [exact Hx |].
  now apply Qinv_le_0_compat.
Qed.

Lemma recip_eps_nonneg (v : vec) :
  Forall (fun x => 0 <= x) v -> Forall (fun x => 0 <= x) (recip_eps v).
Proof.
  intros Hv. unfold recip_eps. apply Forall_forall. intros y Hy.
  apply in_map_iff in Hy. destruct Hy as (x & <- & Hx).
  rewrite Forall_forall in Hv. specialize (Hv x Hx).
  pose proof sinkhorn_eps_pos. apply div_nonneg; lra.
Qed.

Lemma nth_nonneg (v : vec) (i : nat) :
  Forall (fun x => 0 <= x) v -> 0 <= nth i v 0.
Proof.
  intros Hv. destruct (Nat.lt_ge_cases i (length v)) as [Hi | Hi].
  - rewrite Forall_forall in Hv. apply Hv. now apply nth_In.
  - rewrite nth_overflow by exact Hi. apply Qle_refl.
Qed.

Lemma diag_nonneg (v : vec) :
  Forall (fun x => 0 <= x) v -> nonneg_mat (diag v).
Proof.
  intros Hv. unfold nonneg_mat, diag. apply Forall_forall.
  intros r Hr. apply in_map_iff in Hr. destruct Hr as (i & <- & _).
  apply Forall_forall. intros x Hx. apply in_map_iff in Hx.
  destruct Hx as (j & <- & _).
  destruct (Nat.eqb i j); [now apply nth_nonneg | apply Qle_refl].
Qed.

Lemma msum_nonneg (m : mat) : nonneg_mat m -> 0 <= msum m.
Proof.
  intros H. unfold msum. apply vsum_nonneg. apply Forall_forall.
  intros s Hs. apply in_map_iff in Hs. destruct Hs as (r & <- & Hr).
  unfold nonneg_mat in H. rewrite Forall_forall in H.
  apply vsum_nonneg. now apply H.
Qed.

Lemma nonneg_mat_test (m : mat) :
  nonneg_mat m -> forallb (forallb (fun x => Qle_bool 0 x)) m = true.
Proof.
  intros H. apply forallb_forall. intros r Hr. apply forallb_forall.
  intros x Hx. apply Qle_bool_iff.
  unfold nonneg_mat in H. rewrite Forall_forall in H.
  specialize (H r Hr). rewrite Forall_forall in H. now apply H.
Qed.

Lemma sinkhorn_pass_nonneg (matrix matrix' : mat) (col_scale row_scale' col_scale' : vec) :
  nonneg_mat matrix -> Forall (fun x => 0 <= x) col_scale ->
  sinkhorn_pass matrix col_scale = Ok (matrix', row_scale', col_scale') ->
  nonneg_mat matrix' /\ Forall (fun x => 0 <= x) col_scale'.
Proof.
  intros Hm Hc H. unfold sinkhorn_pass in H.
  inv_bind_as H s1 Hs1. inv_bind_as H m1 Hm1. inv_bind_as H s2 Hs2.
  inv_bind_as H m2 Hm2. injection H as <- <- <-.
  unfold torch_mv in Hs1, Hs2. unfold torch_matmul in Hm1, Hm2.
  destruct (Nat.eqb (ncols matrix) (length col_scale)); [| discriminate].
  injection Hs1 as <-.
  pose proof (recip_eps_nonneg (mv_nonneg Hm Hc)) as Hrs.
  destruct (Nat.eqb (ncols (diag (recip_eps (mv_raw matrix col_scale))))
              (nrows matrix)); [| discriminate].
  injection Hm1 as <-.
  pose proof (matmul_nonneg (diag_nonneg Hrs) Hm) as Hm1.
  destruct (Nat.eqb _ _) in Hs2; [| discriminate]. injection Hs2 as <-.
  pose proof (recip_eps_nonneg (mv_nonneg (transpose_nonneg Hm1) Hrs)) as Hcs.
  destruct (Nat.eqb _ _) in Hm2; [| discriminate]. injection Hm2 as <-.
  split; [| exact Hcs]. exact (matmul_nonneg Hm1 (diag_nonneg Hcs)).
Qed.

Lemma sinkhorn_loop_nonneg (tol : Q) (iterations : nat) :
  forall (matrix matrix' : mat) (col_scale : vec),
    nonneg_mat matrix -> Forall (fun x => 0 <= x) col_scale ->
    sinkhorn_loop tol iterations matrix col_scale = Ok matrix' ->
    nonneg_mat matrix'.
Proof.
  induction iterations as [| k IH]; simpl; intros matrix matrix' col_scale Hm Hc H.
  - now injection H as <-.
  - inv_bind_as H r Hr. destruct r as [[m1 rs] cs].
    destruct (sinkhorn_pass_nonneg Hm Hc Hr) as [Hm1 Hcs].
    destruct (doubly_stochastic_within tol m1).
    + now injection H as <-.
    + exact (IH _ _ _ Hm1 Hcs H).
Qed.

Lemma sinkhorn_knopp_nonneg_ok (n : nat) (matrix : mat) (tol : Q)
  (max_iterations : nat) :
  wf_mat n n matrix -> nonneg_mat matrix ->
  exists m, sinkhorn_knopp matrix tol max_iterations = Ok m
            /\ wf_mat n n m /\ nonneg_mat m.
Proof.
  intros Hwf Hnn. pose proof (msum_nonneg Hnn) as Hsum.
  unfold sinkhorn_knopp.
  rewrite (nonneg_mat_test Hnn). cbn [negb].
  pose proof (wf_mat_square_ncols Hwf) as Hnc.
  assert (Hnr : nrows matrix = n) by apply Hwf.
  rewrite Hnr, Hnc, Nat.eqb_refl. cbn [negb].
  set (m0 := map (map (fun x => x / (msum matrix + sinkhorn_eps))) matrix).
  assert (Hm0 : wf_mat n n m0) by (apply wf_map_map; exact Hwf).
  assert (Hm0n : nonneg_mat m0).
  { unfold m0, nonneg_mat. apply Forall_forall. intros r Hr.
    apply in_map_iff in Hr. destruct Hr as (r0 & <- & Hr0).
    apply Forall_forall. intros x Hx. apply in_map_iff in Hx.
    destruct Hx as (x0 & <- & Hx0).
    unfold nonneg_mat in Hnn. rewrite Forall_forall in Hnn.
    specialize (Hnn r0 Hr0). rewrite Forall_forall in Hnn.
    pose proof sinkhorn_eps_pos.
    apply div_nonneg; [now apply Hnn | lra]. }
  destruct (@sinkhorn_loop_ok tol n max_iterations m0 (ones n) Hm0)
    as (m' & Hm' & Hwf'); [apply repeat_length |].
  exists m'. split; [exact Hm' |]. split; [exact Hwf' |].
  apply (@sinkhorn_loop_nonneg tol max_iterations m0 m' (ones n) Hm0n);
    [| exact Hm'].
  unfold ones. apply Forall_forall. intros x Hx.
  apply repeat_spec in Hx. subst x. discriminate.
Qed.

(** X15. On a square matrix without negative entries [sinkhorn_knopp]
    returns, for every tolerance and iteration cap, a matrix of the same
    shape without negative entries: the offsets [1e-16] keep every division
    defined and every scale factor positive. *)
Theorem sinkhorn_knopp_keeps_nonnegative (n : nat) (matrix : mat) (tol : Q)
  (max_iterations : nat) :
  wf_mat n n matrix -> nonneg_mat matrix ->
  exists m, sinkhorn_knopp matrix tol max_iterations = Ok m
            /\ wf_mat n n m /\ nonneg_mat m.
Proof. apply sinkhorn_knopp_nonneg_ok. Qed.

Lemma sinkhorn_knopp_keeps_nonnegative_witness :
  exists m, sinkhorn_knopp [[0; 2]; [3; 0]] sinkhorn_default_tol
              sinkhorn_default_max_iterations = Ok m
            /\ wf_mat 2 2 m /\ nonneg_mat m.
Proof.
  apply (@sinkhorn_knopp_keeps_nonnegative 2).
  - split; [reflexivity | repeat constructor].
  - repeat constructor; discriminate.
Defined.

(** *** The initializer *)

Section Initializer.

Variable rng : Type.
Variable torch_rand : nat -> nat -> rng -> mat * rng.

(** [torch.rand(n, m)] has the shape it is asked for and no negative
    entry. *)
Hypothesis torch_rand_unit :
  forall n m g,
    wf_mat n m (fst (torch_rand n m g))
    /\ nonneg_mat (fst (torch_rand n m g)).

Lemma random_perm_matrices_total (post : mat -> result mat)
  (perm_sizes : Dict.t nat) (g : rng) :
  (forall n m, wf_mat n n m -> nonneg_mat m -> exists m', post m = Ok m') ->
  exists r, random_perm_matrices torch_rand post perm_sizes g = Ok r.
Proof.
  intros Hpost. unfold random_perm_matrices.
  destruct (@for_each_total _ _ (fun _ => True)
              (fun '(acc, g) '(p, n) =>
                 let '(m, g') := torch_rand n n g in
                 m' <- post m ;;
                 Ok (acc ++ [(p, m')], g'))
              (Dict.items perm_sizes)) with (s := (@nil (string * mat), g))
    as (r & Hr & _).
  - intros [acc g0] [p n] _ _.
    destruct (torch_rand_unit n n g0) as [Hwf Hnn].
    destruct (torch_rand n n g0) as [m g1]. simpl in Hwf, Hnn.
    destruct (Hpost n m Hwf Hnn) as [m' Hm']. rewrite Hm'. simpl. eauto.
  - exact I.
  - eauto.
Qed.

(** X16. The initializer fails only on an unknown method: with one of
    "identity", "random", "sinkhorn" it returns, with the keys of
    [perm_sizes] in their order, whatever the sizes; any other method
    raises the [ValueError] that names it. *)
Theorem initialize_perm_matrices_raises_iff (perm_sizes : Dict.t nat)
  (initialization_method : string) (g : rng) :
  ((exists e, initialize_perm_matrices torch_rand perm_sizes
                initialization_method g = Raise e)
   <-> initialization_method <> "identity"
       /\ initialization_method <> "random"
       /\ initialization_method <> "sinkhorn")
  /\ (forall e, initialize_perm_matrices torch_rand perm_sizes
                  initialization_method g = Raise e ->
                e = ValueError ("Unknown initialization method "
                                ++ initialization_method))
  /\ (forall pm g', initialize_perm_matrices torch_rand perm_sizes
                      initialization_method g = Ok (pm, g') ->
                    Dict.keys pm = Dict.keys perm_sizes).
Proof.
  assert (Hcases :
            (exists r, initialize_perm_matrices torch_rand perm_sizes
                         initialization_method g = Ok r
                       /\ (initialization_method = "identity"
                           \/ initialization_method = "random"
                           \/ initialization_method = "sinkhorn"))
            \/ (initialize_perm_matrices torch_rand perm_sizes
                  initialization_method g
                = Raise (ValueError ("Unknown initialization method "
                                     ++ initialization_method))
                /\ initialization_method <> "identity"
                /\ initialization_method <> "random"
                /\ initialization_method <> "sinkhorn")).
  { unfold initialize_perm_matrices.
    destruct (String.eqb_spec initialization_method "identity") as [E1 | E1].
    { left. eexists. split; [reflexivity | now left]. }
    destruct (String.eqb_spec initialization_method "random") as [E2 | E2].
    { left.
      destruct (@random_perm_matrices_total (fun m => Ok m) perm_sizes g)
        as [r Hr]; [eauto |].
      exists r. split; [exact Hr | right; now left]. }
    destruct (String.eqb_spec initialization_method "sinkhorn") as [E3 | E3].
    { left.
      destruct (@random_perm_matrices_total
                  (fun m => sinkhorn_knopp m sinkhorn_default_tol
                              sinkhorn_default_max_iterations) perm_sizes g)
        as [r Hr].
      - intros n m Hwf Hnn.
        destruct (sinkhorn_knopp_nonneg_ok sinkhorn_default_tol
                    sinkhorn_default_max_iterations Hwf Hnn) as (m' & Hm' & _).
        eauto.
      - exists r. split; [exact Hr | right; now right]. }
    right. repeat split; assumption. }
  split; [| split].
  - split.
    + intros [e He]. destruct Hcases as [(r & Hr & _) | (_ & Hne)];
        [congruence | exact Hne].
    + intros (N1 & N2 & N3).
      destruct Hcases as [(r & _ & [E | [E | E]]) | (Hr & _)];
        try contradiction. eauto.
  - intros e He. destruct Hcases as [(r & Hr & _) | (Hr & _)]; congruence.
  - intros pm g' H. exact (initialize_perm_matrices_keys _ _ _ _ H).
Qed.

End Initializer.

Lemma concrete_rand_entry_nonneg (g i j : nat) : 0 <= Concrete.rand_entry g i j.
Proof.
  unfold Concrete.rand_entry. apply div_nonneg; [| discriminate].
  change 0 with (inject_Z 0). rewrite <- Zle_Qle. apply Nat2Z.is_nonneg.
Qed.

Lemma concrete_torch_rand_unit (n m : nat) (g : Concrete.rng) :
  wf_mat n m (fst (Concrete.torch_rand n m g))
  /\ nonneg_mat (fst (Concrete.torch_rand n m g)).
Proof.
  unfold Concrete.torch_rand. cbn [fst]. split.
  - split; [now rewrite length_map, length_seq |].
    apply Forall_forall. intros r Hr. apply in_map_iff in Hr.
    destruct Hr as (i & <- & _). now rewrite length_map, length_seq.
  - unfold nonneg_mat. apply Forall_forall. intros r Hr.
    apply in_map_iff in Hr. destruct Hr as (i & <- & _).
    apply Forall_forall. intros x Hx. apply in_map_iff in Hx.
    destruct Hx as (j & <- & _). apply concrete_rand_entry_nonneg.
Qed.

Lemma initialize_perm_matrices_raises_iff_witness :
  (forall e, initialize_perm_matrices Concrete.torch_rand Concrete.mlp_sizes
               "uniform" O = Raise e ->
             e = ValueError ("Unknown initialization method " ++ "uniform"))
  /\ (forall pm g', initialize_perm_matrices Concrete.torch_rand
                      Concrete.mlp_sizes "sinkhorn" O = Ok (pm, g') ->
                    Dict.keys pm = Dict.keys Concrete.mlp_sizes).
Proof.
  split.
  - apply (@initialize_perm_matrices_raises_iff Concrete.rng Concrete.torch_rand
             concrete_torch_rand_unit Concrete.mlp_sizes "uniform" O).
  - apply (@initialize_perm_matrices_raises_iff Concrete.rng Concrete.torch_rand
             concrete_torch_rand_unit Concrete.mlp_sizes "sinkhorn" O).
Defined.


(* ================================================================= *)
(** ** Further properties of the trial and of the driver *)

Lemma last_cons_default (A : Type) (a d : A) (l : list A) :
  last (a :: l) d = last l a.
Proof.
  revert a d. induction l as [| b l IH]; intros a d; [reflexivity |].
  change (last (a :: b :: l) d) with (last (b :: l) d).
  rewrite (IH b d), (IH b a). reflexivity.
Qed.

(** The snapshots a run of the loop appends: each is the iteration of the
    one before, the first of the matrices the run started from. *)
Lemma trial_loop_history
  (body : Dict.t PermutationMatrix -> result (Dict.t PermutationMatrix * Q))
  (iterations : nat) :
  forall st st',
    (ts_patience_steps st < 15)%nat ->
    trial_loop body iterations st = Ok st' ->
    exists ext,
      ts_history st' = ts_history st ++ ext
      /\ (forall i, (i < length ext)%nat ->
            exists o, body (nth i (ts_perm_matrices st :: ext) [])
                      = Ok (nth i ext [], o))
      /\ ((length ext = iterations
           /\ last ext (ts_perm_matrices st) = ts_perm_matrices st')
          \/ ((length ext < iterations)%nat
              /\ (15 <= ts_patience_steps st + length ext + 1)%nat
              /\ exists o, body (last ext (ts_perm_matrices st))
                           = Ok (ts_perm_matrices st', o)
                           /\ ts_new_obj st' = Some o)).
Proof.
  induction iterations as [| n IH]; intros st st' Hp H.
  - simpl in H. injection H as <-. exists []. rewrite app_nil_r.
    split; [reflexivity |]. split; [simpl; intros i Hi; lia |].
    left. split; reflexivity.
  - rewrite trial_loop_S in H. inv_bind_as H r Hbody.
    destruct r as [pm1 o1]. cbv beta iota in H.
    pose proof (patience_update_bound o1 (ts_old_obj st) (ts_patience_steps st))
      as Hb.
    destruct (patience_update o1 (ts_old_obj st) (ts_patience_steps st))
      as [p1 old1]. cbn [fst] in Hb.
    destruct (Nat.leb_spec 15 p1) as [Hstop | Hgo].
    + injection H as <-. exists []. rewrite app_nil_r. cbn [ts_history].
      split; [reflexivity |]. split; [simpl; intros i Hi; lia |].
      right. cbn [length last ts_perm_matrices ts_new_obj].
      split; [lia |]. split; [lia |]. exists o1. split; [exact Hbody | reflexivity].
    + destruct (IH (mkTrialState pm1 (ts_history st ++ [pm1]) old1 p1 (Some o1))
                  st' Hgo H) as (ext1 & Hh & Hchain & Hend).
      cbn [ts_history ts_perm_matrices ts_patience_steps] in Hh, Hchain, Hend.
      exists (pm1 :: ext1). split; [rewrite Hh, <- app_assoc; reflexivity |].
      split.
      * intros i Hi. destruct i as [| i].
        -- exists o1. exact Hbody.
        -- cbn [length] in Hi. cbn [nth].
           destruct (Hchain i ltac:(lia)) as [o Ho]. exists o.
           destruct i as [| i]; exact Ho.
      * rewrite last_cons_default. cbn [length].
        destruct Hend as [[Hl Hlast] | (Hl & Hp15 & o & Ho & Hn)].
        -- left. split; [lia | exact Hlast].
        -- right. split; [lia |]. split; [lia |]. exists o. split; assumption.
Qed.

Section TrialHistory.

Variable rng : Type.
Variable torch_rand : nat -> nat -> rng -> mat * rng.
Variable solve_linear_assignment_problem : mat -> PermutationIndices.
Variable fminbound : (Q -> result Q) -> Q -> Q -> result Q.

(** X17. The history a trial returns starts with the initial matrices and
    holds one snapshot per completed iteration, each the iteration of the
    one before.  When the loop ran to the cap, the history has
    [max_iter + 1] entries and ends with the returned matrices; after an
    early stop, which needs at least 15 iterations, the returned matrices
    and objective are those of one more iteration from the last snapshot
    and are not in the history. *)
Theorem frank_wolfe_weight_matching_trial_history
  (params_a params_b : ModelParams) (perm_sizes : Dict.t nat)
  (initialization_method : string) (perm_spec : PermutationSpec)
  (max_iter : nat) (g g' : rng)
  (pm0 pm : Dict.t PermutationMatrix) (h : list (Dict.t PermutationMatrix))
  (obj : Q) :
  initialize_perm_matrices torch_rand perm_sizes initialization_method g
  = Ok (pm0, g') ->
  frank_wolfe_weight_matching_trial torch_rand solve_linear_assignment_problem
    fminbound params_a params_b perm_sizes initialization_method perm_spec
    max_iter g = Ok (pm, h, obj) ->
  exists rest,
    h = pm0 :: rest
    /\ (forall i, (i < length rest)%nat ->
          exists o,
            trial_iteration solve_linear_assignment_problem fminbound params_a
              params_b perm_sizes perm_spec (nth i h []) = Ok (nth i rest [], o))
    /\ ((length rest = max_iter /\ last h [] = pm)
        \/ ((14 <= length rest)%nat /\ (length rest < max_iter)%nat
            /\ trial_iteration solve_linear_assignment_problem fminbound
                 params_a params_b perm_sizes perm_spec (last h [])
               = Ok (pm, obj))).
Proof.
  intros Hinit H. unfold frank_wolfe_weight_matching_trial in H.
  inv_bind_as H st Hst. unfold trial_states in Hst.
  rewrite Hinit in Hst. cbn [bind] in Hst.
  destruct (ts_new_obj st) as [o' |] eqn:Hobj; [| discriminate].
  injection H as <- <- <-.
  assert (Hp0 : (ts_patience_steps (mkTrialState pm0 [pm0] 0 0 None) < 15)%nat)
    by (cbn; lia).
  destruct (@trial_loop_history _ max_iter _ st Hp0 Hst)
    as (ext & Hh & Hchain & Hend).
  cbn [ts_history ts_perm_matrices ts_patience_steps] in Hh, Hchain, Hend.
  exists ext. split; [exact Hh |]. rewrite Hh. split; [exact Hchain |].
  change ([pm0] ++ ext) with (pm0 :: ext). rewrite last_cons_default.
  destruct Hend as [[Hl Hlast] | (Hl & Hp15 & o & Ho & Hn)].
  - left. split; assumption.
  - right. split; [lia |]. split; [exact Hl |].
    rewrite Hobj in Hn. injection Hn as ->. exact Ho.
Qed.

End TrialHistory.

Lemma frank_wolfe_weight_matching_trial_history_witness :
  exists pm h obj,
    frank_wolfe_weight_matching_trial Concrete.torch_rand
      Concrete.solve_linear_assignment_problem Concrete.fminbound
      Concrete.mlp_params_a Concrete.mlp_params_b Concrete.mlp_sizes
      "identity" Concrete.mlp_spec 2 O = Ok (pm, h, obj)
    /\ exists rest,
         h = [("P_0", eye 2); ("P_final", eye 1)] :: rest
         /\ (forall i, (i < length rest)%nat ->
               exists o,
                 trial_iteration Concrete.solve_linear_assignment_problem
                   Concrete.fminbound Concrete.mlp_params_a
                   Concrete.mlp_params_b Concrete.mlp_sizes Concrete.mlp_spec
                   (nth i h []) = Ok (nth i rest [], o))
         /\ ((length rest = 2%nat /\ last h [] = pm)
             \/ ((14 <= length rest)%nat /\ (length rest < 2)%nat
                 /\ trial_iteration Concrete.solve_linear_assignment_problem
                      Concrete.fminbound Concrete.mlp_params_a
                      Concrete.mlp_params_b Concrete.mlp_sizes
                      Concrete.mlp_spec (last h []) = Ok (pm, obj))).
Proof.
  eexists _, _, _. split; [vm_compute; reflexivity |].
  apply (@frank_wolfe_weight_matching_trial_history Concrete.rng
           Concrete.torch_rand Concrete.solve_linear_assignment_problem
           Concrete.fminbound Concrete.mlp_params_a Concrete.mlp_params_b
           Concrete.mlp_sizes "identity" Concrete.mlp_spec 2 O O).
  - reflexivity.
  - vm_compute. reflexivity.
Defined.

(** *** The driver's result *)

Lemma compute_perm_sizes_as_store (perm_to_layers : Dict.t (list (string * nat)))
  (params_a : ModelParams) :
  compute_perm_sizes perm_to_layers params_a
  = for_each
      (fun acc '(k, v) =>
         v' <- match v with
               | [] => Raise IndexError
               | (relevant_params, relevant_axis) :: _ =>
                   W <- Dict.getitem relevant_params params_a ;;
                   shape_at W relevant_axis
               end ;;
         Ok (Dict.set k v' acc))
      perm_to_layers Dict.empty.
Proof.
  unfold compute_perm_sizes, Dict.items. apply for_each_ext_in.
  intros acc [k v] _. destruct v as [| [rp ax] rest]; [reflexivity |].
  cbn [bind]. destruct (Dict.getitem rp params_a) as [W | e]; [| reflexivity].
  cbn [bind]. destruct (shape_at W ax); reflexivity.
Qed.

Lemma store_loop_keys2 (V W : Type) (f : string -> V -> result W)
  (l : Dict.t V) :
  forall (acc acc' : Dict.t W),
    NoDup (Dict.keys acc ++ Dict.keys l) ->
    for_each (fun acc '(k, v) => v' <- f k v ;; Ok (Dict.set k v' acc)) l acc
    = Ok acc' ->
    Dict.keys acc' = Dict.keys acc ++ Dict.keys l.
Proof.
  induction l as [| [k v] l IH]; simpl; intros acc acc' Hnd H.
  - injection H as <-. now rewrite app_nil_r.
  - inv_bind_as H acc1 Hb. inv_bind_as Hb w Hw. injection Hb as <-.
    assert (Hnotin : ~ In k (Dict.keys acc)).
    { intros Hin. apply NoDup_remove_2 in Hnd. apply Hnd.
      apply in_or_app. now left. }
    rewrite (@dict_keys_set_new _ k w acc Hnotin) in H.
    assert (Hnd1 : NoDup (Dict.keys (acc ++ [(k, w)]) ++ Dict.keys l)).
    { unfold Dict.keys in *. rewrite map_app, <- app_assoc. exact Hnd. }
    rewrite (IH _ _ Hnd1 H). unfold Dict.keys. rewrite map_app, <- app_assoc.
    reflexivity.
Qed.

Lemma compute_perm_sizes_keys (perm_to_layers : Dict.t (list (string * nat)))
  (params_a : ModelParams) (perm_sizes : Dict.t nat) :
  NoDup (Dict.keys perm_to_layers) ->
  compute_perm_sizes perm_to_layers params_a = Ok perm_sizes ->
  Dict.keys perm_sizes = Dict.keys perm_to_layers.
Proof.
  intros Hnd H. rewrite compute_perm_sizes_as_store in H.
  exact (@store_loop_keys2 _ _ _ _ Dict.empty _ Hnd H).
Qed.

Lemma dict_keys_map (V W : Type) (f : V -> W) (d : Dict.t V) :
  Dict.keys (map (fun '(k, v) => (k, f v)) d) = Dict.keys d.
Proof.
  unfold Dict.keys. rewrite map_map. apply map_ext. now intros [k v].
Qed.

Section DriverResult.

Variable rng : Type.
Variable torch_rand : nat -> nat -> rng -> mat * rng.
Variable seed_everything : Z -> rng.
Variable np_random_randint : Z -> Z -> nat -> list Z.
Variable solve_linear_assignment_problem : mat -> PermutationIndices.
Variable fminbound : (Q -> result Q) -> Q -> Q -> result Q.

Lemma kept_trial_is_a_trial (params_a params_b : ModelParams)
  (perm_sizes : Dict.t nat) (initialization_method : string)
  (ps : PermutationSpec) (max_iter : nat) (seeds : list Z)
  (acc : Q * option (Dict.t PermutationMatrix * list (Dict.t PermutationMatrix)))
  (pm : Dict.t PermutationMatrix) (h : list (Dict.t PermutationMatrix)) :
  for_each
    (fun acc seed =>
       let g := seed_everything seed in
       r <- frank_wolfe_weight_matching_trial torch_rand
              solve_linear_assignment_problem fminbound params_a params_b
              perm_sizes initialization_method ps max_iter g ;;
       Ok (keep_best acc r))
    seeds (0, None) = Ok acc ->
  snd acc = Some (pm, h) ->
  exists seed obj,
    In seed seeds
    /\ frank_wolfe_weight_matching_trial torch_rand
         solve_linear_assignment_problem fminbound params_a params_b
         perm_sizes initialization_method ps max_iter (seed_everything seed)
       = Ok (pm, h, obj).
Proof.
  intros H Hs.
  pose (Inv := fun a : Q * option (Dict.t PermutationMatrix
                                   * list (Dict.t PermutationMatrix)) =>
                 forall pm h, snd a = Some (pm, h) ->
                   exists seed obj,
                     In seed seeds
                     /\ frank_wolfe_weight_matching_trial torch_rand
                          solve_linear_assignment_problem fminbound params_a
                          params_b perm_sizes initialization_method ps max_iter
                          (seed_everything seed) = Ok (pm, h, obj)).
  assert (Hinv : Inv acc).
  { revert H. apply (@for_each_invariant _ _ Inv).
    - intros [best_obj best] seed a' Hin Ha Hb. cbv zeta in Hb.
      inv_bind_as Hb r Hr. injection Hb as <-.
      destruct r as [[pm1 h1] obj1]. unfold keep_best.
      destruct (Qgtb obj1 best_obj).
      + intros pm2 h2 E. cbn [snd] in E. injection E as <- <-.
        exists seed, obj1. split; assumption.
      + exact Ha.
    - intros pm1 h1 E. discriminate. }
  exact (Hinv pm h Hs).
Qed.

(** X18. The driver answers for every permutation variable of the topology
    and for "P_final": when it returns, the dictionary of index lists has
    the keys of the topology's perm-to-layers mapping after the write of
    "P_final", in that order, and so has every snapshot of a returned
    history. *)
Theorem frank_wolfe_weight_matching_result_keys (ps : PermutationSpec)
  (fixed permutee : ModelParams) (initialization_method : string)
  (max_iter : nat) (return_perm_history : bool) (num_trials : nat)
  (all_perm_indices : Dict.t PermutationIndices)
  (history : option (list (Dict.t PermutationMatrix))) :
  NoDup (Dict.keys (perm_to_layers_and_axes ps)) ->
  snd (frank_wolfe_weight_matching torch_rand seed_everything np_random_randint
         solve_linear_assignment_problem fminbound ps fixed permutee
         initialization_method max_iter return_perm_history num_trials)
  = Ok (all_perm_indices, history) ->
  Dict.keys all_perm_indices
  = Dict.keys (perm_to_layers_and_axes (add_final_perm ps))
  /\ In "P_final" (Dict.keys all_perm_indices)
  /\ (forall h, history = Some h ->
        Forall (fun snapshot => Dict.keys snapshot = Dict.keys all_perm_indices) h).
Proof.
  intros Hnd H. unfold frank_wolfe_weight_matching in H. cbn [snd] in H.
  inv_bind_as H perm_sizes Hsizes. inv_bind_as H acc Hacc.
  destruct (snd acc) as [[pm hist] |] eqn:Hbest; [| discriminate].
  injection H as <- <-.
  assert (Hnd' : NoDup (Dict.keys (perm_to_layers_and_axes (add_final_perm ps))))
    by (apply dict_set_keys_nodup; exact Hnd).
  pose proof (@compute_perm_sizes_keys _ _ _ Hnd' Hsizes) as Hk.
  assert (Hnds : NoDup (Dict.keys perm_sizes)) by (rewrite Hk; exact Hnd').
  destruct (@kept_trial_is_a_trial _ _ _ _ _ _ _ _ _ _ Hacc Hbest)
    as (seed & obj & _ & Htrial).
  unfold frank_wolfe_weight_matching_trial in Htrial.
  inv_bind_as Htrial st Hst.
  destruct (ts_new_obj st); [| discriminate]. injection Htrial as <- <- _.
  unfold trial_states in Hst. inv_bind_as Hst init Hinit.
  destruct init as [pm0 g'].
  pose proof (@initialize_perm_matrices_keys _ _ _ _ _ _ _ Hinit) as Hk0.
  set (P := fun d : Dict.t PermutationMatrix => Dict.keys d = Dict.keys perm_sizes).
  assert (Hinv : P (ts_perm_matrices st) /\ Forall P (ts_history st)).
  { eapply trial_loop_invariant; [| | | exact Hst].
    - intros d d' o Hd Hbody. unfold P in *. rewrite <- Hd.
      eapply trial_iteration_keys; [| exact Hbody]. rewrite Hd. exact Hnds.
    - exact Hk0.
    - repeat constructor. exact Hk0. }
  destruct Hinv as [Hfin Hhist]. unfold P in Hfin.
  assert (Hkeys : Dict.keys
                    (map (fun '(p, perm) => (p, solve_linear_assignment_problem perm))
                       (Dict.items (ts_perm_matrices st)))
                  = Dict.keys (perm_to_layers_and_axes (add_final_perm ps))).
  { unfold Dict.items. rewrite dict_keys_map, Hfin. exact Hk. }
  split; [exact Hkeys |]. split.
  - rewrite Hkeys. unfold add_final_perm. cbn [perm_to_layers_and_axes].
    apply (@in_items_in_keys _ "P_final" [("linear.weight", 0%nat)]).
    apply dict_set_in.
  - intros h Hh. destruct return_perm_history; [| discriminate].
    injection Hh as <-. eapply Forall_impl; [| exact Hhist].
    intros d Hd. unfold P in Hd. rewrite Hkeys, Hd. exact Hk.
Qed.

End DriverResult.

Lemma frank_wolfe_weight_matching_result_keys_witness :
  NoDup (Dict.keys (perm_to_layers_and_axes Concrete.mlp_spec))
  /\ exists all_perm_indices history,
       snd (Concrete.run_driver Concrete.mlp_spec Concrete.mlp_params_a
              Concrete.mlp_params_b "identity" 2 true 1)
       = Ok (all_perm_indices, history)
       /\ Dict.keys all_perm_indices
          = Dict.keys (perm_to_layers_and_axes (add_final_perm Concrete.mlp_spec))
       /\ In "P_final" (Dict.keys all_perm_indices)
       /\ (forall h, history = Some h ->
             Forall (fun snapshot =>
                       Dict.keys snapshot = Dict.keys all_perm_indices) h).
Proof.
  assert (Hnd : NoDup (Dict.keys (perm_to_layers_and_axes Concrete.mlp_spec))).
  { repeat constructor. simpl. intuition. }
  split; [exact Hnd |].
  eexists _, _. split; [vm_compute; reflexivity |].
  unfold Concrete.run_driver.
  apply (@frank_wolfe_weight_matching_result_keys Concrete.rng
           Concrete.torch_rand Concrete.seed_everything
           Concrete.np_random_randint Concrete.solve_linear_assignment_problem
           Concrete.fminbound Concrete.mlp_spec Concrete.mlp_params_a
           Concrete.mlp_params_b "identity" 2 true 1 _ _ Hnd).
  vm_compute. reflexivity.
Defined.

Section DriverPermutations.

Variable rng : Type.
Variable torch_rand : nat -> nat -> rng -> mat * rng.
Variable seed_everything : Z -> rng.
Variable np_random_randint : Z -> Z -> nat -> list Z.
Variable solve_linear_assignment_problem : mat -> PermutationIndices.
Variable fminbound : (Q -> result Q) -> Q -> Q -> result Q.

(** The contracts of the projector and of the line search. *)
Hypothesis projector_permutes :
  forall G, is_permutation_indices (length G) (solve_linear_assignment_problem G).
Hypothesis line_search_bounded :
  forall f t, fminbound f 0 1 = Ok t -> 0 <= t /\ t <= 1.

Lemma identity_trial_near_birkhoff (params_a params_b : ModelParams)
  (perm_sizes : Dict.t nat) (perm_spec : PermutationSpec) (max_iter : nat)
  (g : rng) (pm : Dict.t PermutationMatrix)
  (h : list (Dict.t PermutationMatrix)) (obj : Q) :
  NoDup (Dict.keys perm_sizes) ->
  frank_wolfe_weight_matching_trial torch_rand solve_linear_assignment_problem
    fminbound params_a params_b perm_sizes "identity" perm_spec max_iter g
  = Ok (pm, h, obj) ->
  all_near_birkhoff perm_sizes 0 pm.
Proof.
  intros Hnd H. unfold frank_wolfe_weight_matching_trial in H.
  inv_bind_as H st Hst.
  destruct (ts_new_obj st); [| discriminate]. injection H as <- _ _.
  unfold trial_states in Hst. inv_bind_as Hst init Hinit.
  destruct init as [pm0 g'].
  pose proof (@initialize_perm_matrices_keys _ _ _ _ _ _ _ Hinit) as Hkeys.
  assert (H0 : all_near_birkhoff perm_sizes 0 pm0).
  { intros p m Hget.
    rewrite (@initialize_identity_get _ _ _ _ _ _ p Hinit) in Hget.
    destruct (Dict.get p perm_sizes) as [n |]; [| discriminate].
    injection Hget as <-. exists n. split; [reflexivity |].
    apply near_birkhoff_eye. }
  set (P := fun d : Dict.t PermutationMatrix =>
              Dict.keys d = Dict.keys pm0
              /\ all_near_birkhoff perm_sizes 0 d).
  assert (Hinv : P (ts_perm_matrices st) /\ Forall P (ts_history st)).
  { eapply trial_loop_invariant; [| | | exact Hst].
    - intros d d' o [Hk Hb] Hbody.
      assert (Hndd : NoDup (Dict.keys d)) by (rewrite Hk, Hkeys; exact Hnd).
      split.
      + rewrite <- Hk. eapply trial_iteration_keys; eauto.
      + eapply trial_iteration_near_birkhoff; eauto. apply Qle_refl.
    - simpl. split; [reflexivity | exact H0].
    - simpl. repeat constructor. exact H0. }
  apply Hinv.
Qed.

(** X19. With the method "identity", a projector that answers permutations
    and a line search that answers a step of [0, 1], every index list the
    driver returns is a permutation of [0 .. n - 1], where [n] is the size of
    its permutation variable. *)
Theorem frank_wolfe_weight_matching_returns_permutations (ps : PermutationSpec)
  (fixed permutee : ModelParams) (max_iter : nat) (return_perm_history : bool)
  (num_trials : nat) (perm_sizes : Dict.t nat)
  (all_perm_indices : Dict.t PermutationIndices)
  (history : option (list (Dict.t PermutationMatrix))) :
  NoDup (Dict.keys (perm_to_layers_and_axes ps)) ->
  compute_perm_sizes (perm_to_layers_and_axes (add_final_perm ps)) fixed
  = Ok perm_sizes ->
  snd (frank_wolfe_weight_matching torch_rand seed_everything np_random_randint
         solve_linear_assignment_problem fminbound ps fixed permutee
         "identity" max_iter return_perm_history num_trials)
  = Ok (all_perm_indices, history) ->
  forall p indices,
    Dict.get p all_perm_indices = Some indices ->
    exists n, Dict.get p perm_sizes = Some n
              /\ is_permutation_indices n indices.
Proof.
  intros Hnd Hsizes H p indices Hget.
  unfold frank_wolfe_weight_matching in H. cbn [snd] in H.
  rewrite Hsizes in H. cbn [bind] in H. inv_bind_as H acc Hacc.
  destruct (snd acc) as [[pm hist] |] eqn:Hbest; [| discriminate].
  injection H as <- _.
  assert (Hnd' : NoDup (Dict.keys (perm_to_layers_and_axes (add_final_perm ps))))
    by (apply dict_set_keys_nodup; exact Hnd).
  assert (Hnds : NoDup (Dict.keys perm_sizes))
    by (rewrite (@compute_perm_sizes_keys _ _ _ Hnd' Hsizes); exact Hnd').
  destruct (@kept_trial_is_a_trial _ _ _ _ _ _ _ _ _ _ _ _ _ _ _ Hacc Hbest)
    as (seed & obj & _ & Htrial).
  pose proof (@identity_trial_near_birkhoff _ _ _ _ _ _ _ _ _ Hnds Htrial) as Hb.
  unfold Dict.items in Hget. rewrite dict_get_map in Hget.
  destruct (Dict.get p pm) as [perm |] eqn:Eperm; [| discriminate].
  injection Hget as <-.
  destruct (Hb _ _ Eperm) as (n & Hn & [Hwf _] & _).
  exists n. split; [exact Hn |].
  replace n with (length perm) by apply Hwf. apply projector_permutes.
Qed.

End DriverPermutations.

Lemma frank_wolfe_weight_matching_returns_permutations_witness :
  exists all_perm_indices history,
    snd (Concrete.run_driver Concrete.mlp_spec Concrete.mlp_params_a
           Concrete.mlp_params_b "identity" 2 false 1)
    = Ok (all_perm_indices, history)
    /\ forall p indices,
         Dict.get p all_perm_indices = Some indices ->
         exists n, Dict.get p Concrete.mlp_sizes = Some n
                   /\ is_permutation_indices n indices.
Proof.
  eexists _, _. split; [vm_compute; reflexivity |].
  unfold Concrete.run_driver.
  apply (@frank_wolfe_weight_matching_returns_permutations Concrete.rng
           Concrete.torch_rand Concrete.seed_everything
           Concrete.np_random_randint Concrete.solve_linear_assignment_problem
           Concrete.fminbound concrete_projector_permutes
           concrete_line_search_bounded Concrete.mlp_spec Concrete.mlp_params_a
           Concrete.mlp_params_b 2 false 1 Concrete.mlp_sizes _ None).
  - repeat constructor. simpl. intuition.
  - vm_compute. reflexivity.
  - vm_compute. reflexivity.
Defined.


(* ================================================================= *)
(** ** Properties of the per-permutation variants *)

Lemma name_in_iff (params_name : string) (params_and_axes : list (string * nat)) :
  name_in params_name (params_perm_by_other_p params_and_axes) = true
  <-> In (params_name, 1%nat) params_and_axes.
Proof.
  unfold name_in, params_perm_by_other_p. rewrite existsb_exists. split.
  - intros (o & Ho & Heq). apply in_map_iff in Ho.
    destruct Ho as ([n ax] & <- & Hin). cbn [fst snd] in Heq.
    destruct (Nat.eqb_spec ax 1) as [-> | _]; [| discriminate].
    apply String.eqb_eq in Heq. now subst n.
  - intros Hin. exists (Some params_name). split.
    + apply in_map_iff. exists (params_name, 1%nat). split; [reflexivity | exact Hin].
    + apply String.eqb_refl.
Qed.

Lemma get_prev_permutation_loop (params_name : string)
  (perm_to_axes : Dict.t (list (string * nat))) (l : Dict.t PermutationMatrix) :
  forall acc r,
    for_each
      (fun '(P_prev_name, P_prev) '(other_perm_name, other_perm) =>
         params_and_axes <- Dict.getitem other_perm_name perm_to_axes ;;
         if name_in params_name (params_perm_by_other_p params_and_axes)
         then Ok (Some other_perm_name, Some other_perm)
         else Ok (P_prev_name, P_prev))
      l acc = Ok r ->
    (r = acc
     /\ forall k m, In (k, m) l -> ~ permutes_columns perm_to_axes k params_name)
    \/ (exists k m l1 l2,
           r = (Some k, Some m)
           /\ l = l1 ++ (k, m) :: l2
           /\ permutes_columns perm_to_axes k params_name
           /\ forall k' m', In (k', m') l2 ->
                            ~ permutes_columns perm_to_axes k' params_name).
Proof.
  induction l as [| [k m] l IH]; intros acc r H.
  - simpl in H. injection H as <-. left. split; [reflexivity |].
    intros k m [].
  - cbn [for_each] in H. inv_bind_as H acc1 Hb. destruct acc as [n0 P0].
    inv_bind_as Hb axes Hax. unfold Dict.getitem in Hax.
    destruct (Dict.get k perm_to_axes) as [axes' |] eqn:Ek; [| discriminate].
    injection Hax as ->.
    destruct (name_in params_name (params_perm_by_other_p axes)) eqn:Ein;
      injection Hb as <-.
    + apply name_in_iff in Ein.
      destruct (IH _ _ H) as [[-> Hno] | (k2 & m2 & l1 & l2 & -> & -> & Hm & Hno)].
      * right. exists k, m, [], l. split; [reflexivity |].
        split; [reflexivity |]. split; [| exact Hno].
        exists axes. split; assumption.
      * right. exists k2, m2, ((k, m) :: l1), l2. repeat split; assumption.
    + destruct (IH _ _ H) as [[-> Hno] | (k2 & m2 & l1 & l2 & -> & -> & Hm & Hno)].
      * left. split; [reflexivity |]. intros k' m' [E | Hin].
        -- injection E as <- <-. intros (axes' & Hget & Hin').
           rewrite Ek in Hget. injection Hget as <-.
           apply name_in_iff in Hin'. congruence.
        -- exact (Hno _ _ Hin).
      * right. exists k2, m2, ((k, m) :: l1), l2. repeat split; assumption.
Qed.

(** X20. [get_prev_permutation] answers the last entry of [perm_matrices],
    in the order of the dictionary, whose name acts on axis 1 of the
    parameter by [perm_to_axes], as the pair of its name and its matrix; it
    answers [(None, None)] when no entry does. *)
Theorem get_prev_permutation_last_match (params_name : string)
  (perm_to_axes : Dict.t (list (string * nat)))
  (perm_matrices : Dict.t PermutationMatrix)
  (r : option string * option mat) :
  get_prev_permutation params_name perm_to_axes perm_matrices = Ok r ->
  (r = (None, None)
   /\ forall k m, In (k, m) (Dict.items perm_matrices) ->
                  ~ permutes_columns perm_to_axes k params_name)
  \/ (exists k m l1 l2,
         r = (Some k, Some m)
         /\ Dict.items perm_matrices = l1 ++ (k, m) :: l2
         /\ permutes_columns perm_to_axes k params_name
         /\ forall k' m', In (k', m') l2 ->
                          ~ permutes_columns perm_to_axes k' params_name).
Proof. unfold get_prev_permutation. apply get_prev_permutation_loop. Qed.

Lemma get_prev_permutation_last_match_witness :
  exists k m l1 l2,
    (Some "P_1", Some (eye 3)) = (Some k, Some m)
    /\ Dict.items [("P_0", eye 2); ("P_1", eye 3); ("P_final", eye 1)]
       = l1 ++ (k, m) :: l2
    /\ permutes_columns
         [("P_0", [("w0", 0%nat); ("w1", 1%nat)]);
          ("P_1", [("w1", 0%nat); ("w1", 1%nat)]);
          ("P_final", [("linear.weight", 0%nat)])] k "w1"
    /\ forall k' m', In (k', m') l2 ->
         ~ permutes_columns
             [("P_0", [("w0", 0%nat); ("w1", 1%nat)]);
              ("P_1", [("w1", 0%nat); ("w1", 1%nat)]);
              ("P_final", [("linear.weight", 0%nat)])] k' "w1".
Proof.
  destruct (@get_prev_permutation_last_match "w1"
              [("P_0", [("w0", 0%nat); ("w1", 1%nat)]);
               ("P_1", [("w1", 0%nat); ("w1", 1%nat)]);
               ("P_final", [("linear.weight", 0%nat)])]
              [("P_0", eye 2); ("P_1", eye 3); ("P_final", eye 1)]
              (Some "P_1", Some (eye 3)) eq_refl) as [[E _] | H].
  - discriminate E.
  - exact H.
Defined.

Lemma get_prev_permutation_errors_loop (params_name : string)
  (perm_to_axes : Dict.t (list (string * nat))) (l : Dict.t PermutationMatrix) :
  forall acc,
    (exists r,
        for_each
          (fun '(P_prev_name, P_prev) '(other_perm_name, other_perm) =>
             params_and_axes <- Dict.getitem other_perm_name perm_to_axes ;;
             if name_in params_name (params_perm_by_other_p params_and_axes)
             then Ok (Some other_perm_name, Some other_perm)
             else Ok (P_prev_name, P_prev))
          l acc = Ok r
        /\ forall k, In k (Dict.keys l) -> Dict.mem k perm_to_axes = true)
    \/ (exists k m l1 l2,
           for_each
             (fun '(P_prev_name, P_prev) '(other_perm_name, other_perm) =>
                params_and_axes <- Dict.getitem other_perm_name perm_to_axes ;;
                if name_in params_name (params_perm_by_other_p params_and_axes)
                then Ok (Some other_perm_name, Some other_perm)
                else Ok (P_prev_name, P_prev))
             l acc = Raise (KeyError k)
           /\ l = l1 ++ (k, m) :: l2
           /\ Dict.mem k perm_to_axes = false
           /\ forall k', In k' (Dict.keys l1) -> Dict.mem k' perm_to_axes = true).
Proof.
  induction l as [| [k m] l IH]; intros [n0 P0].
  - left. exists (n0, P0). split; [reflexivity |]. intros k [].
  - cbn [for_each]. cbv beta iota. unfold Dict.getitem at 1 3. unfold Dict.mem.
    destruct (Dict.get k perm_to_axes) as [axes |] eqn:Ek.
    + cbn [bind].
      set (acc1 := if name_in params_name (params_perm_by_other_p axes)
                   then (Some k, Some m) else (n0, P0)).
      assert (Hacc : (if name_in params_name (params_perm_by_other_p axes)
                      then Ok (Some k, Some m)
                      else @Ok (option string * option mat) (n0, P0))
                     = Ok acc1)
        by (unfold acc1; destruct (name_in _ _); reflexivity).
      rewrite Hacc. cbn [bind].
      destruct (IH acc1) as [(r & Hr & Hall) | (k2 & m2 & l1 & l2 & Hr & -> & Hm & Hall)].
      * left. exists r. split; [exact Hr |].
        intros k' [E | Hin]; [simpl in E; subst k'; now rewrite Ek | exact (Hall _ Hin)].
      * right. exists k2, m2, ((k, m) :: l1), l2. split; [exact Hr |].
        split; [reflexivity |]. split; [exact Hm |].
        intros k' [E | Hin]; [simpl in E; subst k'; now rewrite Ek | exact (Hall _ Hin)].
    + right. exists k, m, [], l. cbn [bind]. split; [reflexivity |].
      split; [reflexivity |]. split; [now rewrite Ek |]. intros k' [].
Qed.

(** X21. [get_prev_permutation] reads [perm_to_axes] at every key of
    [perm_matrices]: it returns exactly when each of them is a key of
    [perm_to_axes], and otherwise raises the [KeyError] of the first one, in
    the order of [perm_matrices], that is not. *)
Theorem get_prev_permutation_key_error (params_name : string)
  (perm_to_axes : Dict.t (list (string * nat)))
  (perm_matrices : Dict.t PermutationMatrix) :
  ((exists r, get_prev_permutation params_name perm_to_axes perm_matrices = Ok r)
   <-> forall k, In k (Dict.keys perm_matrices) ->
                 Dict.mem k perm_to_axes = true)
  /\ (forall e,
        get_prev_permutation params_name perm_to_axes perm_matrices = Raise e ->
        exists k m l1 l2,
          e = KeyError k
          /\ Dict.items perm_matrices = l1 ++ (k, m) :: l2
          /\ Dict.mem k perm_to_axes = false
          /\ forall k', In k' (Dict.keys l1) -> Dict.mem k' perm_to_axes = true).
Proof.
  unfold get_prev_permutation, Dict.items.
  destruct (@get_prev_permutation_errors_loop params_name perm_to_axes
              perm_matrices (None, None))
    as [(r & Hr & Hall) | (k & m & l1 & l2 & Hr & Hl & Hm & Hall)].
  - split.
    + split; [intros _; exact Hall | intros _; eauto].
    + intros e He. congruence.
  - split.
    + split.
      * intros [r Hr']. congruence.
      * intros Hall'. exfalso.
        assert (Hin : In k (Dict.keys perm_matrices)).
        { rewrite Hl. unfold Dict.keys. rewrite map_app. apply in_or_app.
          right. now left. }
        specialize (Hall' k Hin). congruence.
    + intros e He. rewrite Hr in He. injection He as <-.
      exists k, m, l1, l2. repeat split; assumption.
Qed.

Lemma add_gradient_frame (gradients gradients' : Dict.t mat) (name : string)
  (grad : mat) :
  add_gradient gradients name grad = Ok gradients' ->
  Dict.keys gradients' = Dict.keys gradients
  /\ forall p, p <> name -> Dict.get p gradients' = Dict.get p gradients.
Proof.
  unfold add_gradient. intros H.
  inv_bind_as H g0 Hg0. inv_bind_as H g1 Hg1. injection H as <-.
  unfold Dict.getitem in Hg0.
  destruct (Dict.get name gradients) as [g0' |] eqn:E; [| discriminate].
  split.
  - exact (@dict_set_keys_existing _ _ _ _ _ E).
  - intros p Hp. apply dict_get_set_other. congruence.
Qed.

Lemma get_prev_permutation_name (params_name : string)
  (perm_to_axes : Dict.t (list (string * nat)))
  (perm_matrices : Dict.t PermutationMatrix) (name : string)
  (P_prev : option mat) :
  get_prev_permutation params_name perm_to_axes perm_matrices
  = Ok (Some name, P_prev) ->
  permutes_columns perm_to_axes name params_name
  /\ In name (Dict.keys perm_matrices).
Proof.
  intros H. unfold get_prev_permutation in H.
  destruct (get_prev_permutation_loop _ _ _ _ H)
    as [[E _] | (k & m & l1 & l2 & E & Hl & Hm & _)]; [discriminate |].
  injection E as -> _. split; [exact Hm |].
  unfold Dict.items in Hl. rewrite Hl. unfold Dict.keys. rewrite map_app.
  apply in_or_app. right. now left.
Qed.

(** X22. [weight_matching_gradient_fn] adds no key to [gradients] and
    changes only the entry of the current permutation and the entries of the
    permutations that act on axis 1 of one of its axis-0 parameters: every
    other entry is as it was. *)
Theorem weight_matching_gradient_fn_frame (params_a params_b : ModelParams)
  (P_curr : mat) (P_curr_name : string)
  (perm_to_axes : Dict.t (list (string * nat)))
  (perm_matrices : Dict.t PermutationMatrix) (gradients gradients' : Dict.t mat)
  (params_and_axes : list (string * nat)) :
  Dict.get P_curr_name perm_to_axes = Some params_and_axes ->
  weight_matching_gradient_fn params_a params_b P_curr P_curr_name perm_to_axes
    perm_matrices gradients = Ok gradients' ->
  Dict.keys gradients' = Dict.keys gradients
  /\ forall p,
       p <> P_curr_name ->
       (forall params_name, In (params_name, 0%nat) params_and_axes ->
                            ~ permutes_columns perm_to_axes p params_name) ->
       Dict.get p gradients' = Dict.get p gradients.
Proof.
  intros Hget H. unfold weight_matching_gradient_fn in H.
  unfold Dict.getitem in H. rewrite Hget in H. cbn [bind] in H.
  set (Inv := fun gr : Dict.t mat =>
                Dict.keys gr = Dict.keys gradients
                /\ forall p,
                     p <> P_curr_name ->
                     (forall params_name,
                         In (params_name, 0%nat) params_and_axes ->
                         ~ permutes_columns perm_to_axes p params_name) ->
                     Dict.get p gr = Dict.get p gradients).
  assert (H0 : Inv gradients) by (split; [reflexivity | reflexivity]).
  revert H. apply (@for_each_invariant _ _ Inv); [| exact H0].
  intros gr [w ax] gr' Hin [Hk Hf] Hbody.
  destruct (Nat.eqb_spec ax 0) as [-> | Hne];
    [| injection Hbody as <-; split; assumption].
  inv_bind_as Hbody Wa Ha. inv_bind_as Hbody Wb Hb.
  inv_bind_as Hbody ops Hops. destruct ops as [Wa' Wb'].
  inv_bind_as Hbody prev Hprev. destruct prev as [P_prev_name P_prev].
  inv_bind_as Hbody gr1 Hrow.
  assert (Hinv1 : Inv gr1).
  { destruct (negb (is_last_layer params_and_axes)).
    - inv_bind_as Hrow gc Hgc.
      destruct (add_gradient_frame _ _ _ Hrow) as [Hk1 Hf1]. split.
      + now rewrite Hk1.
      + intros p Hp Hcols. rewrite (Hf1 p Hp). now apply Hf.
    - injection Hrow as <-. split; assumption. }
  destruct Hinv1 as [Hk1 Hf1].
  destruct P_prev_name as [name |]; [| injection Hbody as <-; split; assumption].
  inv_bind_as Hbody gp Hgp.
  destruct (add_gradient_frame _ _ _ Hbody) as [Hk2 Hf2].
  destruct (get_prev_permutation_name _ _ _ Hprev) as [Hcol _].
  split.
  - now rewrite Hk2.
  - intros p Hp Hcols.
    assert (Hpn : p <> name).
    { intros ->. exact (Hcols w Hin Hcol). }
    rewrite (Hf2 p Hpn). now apply Hf1.
Qed.

(** X23. A permutation that the topology attaches to a single parameter
    axis, as the driver's "P_final" is to [("linear.weight", 0)], gets no
    gradient from [weight_matching_gradient_fn]: the test [is_last_layer]
    skips its row term, and its entry of [gradients] is left as it was. *)
Theorem weight_matching_gradient_fn_single_layer (params_a params_b : ModelParams)
  (P_curr : mat) (P_curr_name : string)
  (perm_to_axes : Dict.t (list (string * nat)))
  (perm_matrices : Dict.t PermutationMatrix) (gradients gradients' : Dict.t mat)
  (params_name : string) (axis : nat) :
  Dict.get P_curr_name perm_to_axes = Some [(params_name, axis)] ->
  weight_matching_gradient_fn params_a params_b P_curr P_curr_name perm_to_axes
    perm_matrices gradients = Ok gradients' ->
  Dict.get P_curr_name gradients' = Dict.get P_curr_name gradients.
Proof.
  intros Hget H. unfold weight_matching_gradient_fn in H.
  unfold Dict.getitem in H. rewrite Hget in H. cbn [bind for_each] in H.
  inv_bind_as H gr Hbody. injection H as <-.
  destruct (Nat.eqb_spec axis 0) as [-> | Hne];
    [| now injection Hbody as <-].
  inv_bind_as Hbody Wa Ha. inv_bind_as Hbody Wb Hb.
  inv_bind_as Hbody ops Hops. destruct ops as [Wa' Wb'].
  inv_bind_as Hbody prev Hprev. destruct prev as [P_prev_name P_prev].
  inv_bind_as Hbody gr1 Hrow.
  change (is_last_layer [(params_name, 0%nat)]) with true in Hrow.
  cbn [negb] in Hrow. injection Hrow as <-.
  destruct P_prev_name as [name |]; [| now injection Hbody as <-].
  inv_bind_as Hbody gp Hgp.
  destruct (add_gradient_frame _ _ _ Hbody) as [_ Hf].
  apply Hf. intros ->.
  destruct (get_prev_permutation_name _ _ _ Hprev) as [(axes & Hax & Hin) _].
  rewrite Hget in Hax. injection Hax as <-.
  destruct Hin as [E | []]. discriminate E.
Qed.

Lemma weight_matching_gradient_fn_frame_witness :
  exists gradients',
    weight_matching_gradient_fn Concrete.mlp_params_a Concrete.mlp_params_b
      (eye 2) "P_0"
      (perm_to_layers_and_axes (add_final_perm Concrete.mlp_spec))
      [("P_0", eye 2); ("P_final", eye 1)]
      [("P_0", zeros 2 2); ("P_final", zeros 1 1)] = Ok gradients'
    /\ Dict.keys gradients' = ["P_0"; "P_final"]
    /\ forall p,
         p <> "P_0" ->
         (forall params_name,
             In (params_name, 0%nat)
                [("layer0.weight", 0%nat); ("layer0.bias", 0%nat);
                 ("linear.weight", 1%nat)] ->
             ~ permutes_columns
                 (perm_to_layers_and_axes (add_final_perm Concrete.mlp_spec))
                 p params_name) ->
         Dict.get p gradients'
         = Dict.get p [("P_0", zeros 2 2); ("P_final", zeros 1 1)].
Proof.
  eexists. split; [vm_compute; reflexivity |].
  apply (@weight_matching_gradient_fn_frame Concrete.mlp_params_a
           Concrete.mlp_params_b (eye 2) "P_0"
           (perm_to_layers_and_axes (add_final_perm Concrete.mlp_spec))
           [("P_0", eye 2); ("P_final", eye 1)]
           [("P_0", zeros 2 2); ("P_final", zeros 1 1)]).
  - reflexivity.
  - vm_compute. reflexivity.
Defined.

Lemma weight_matching_gradient_fn_single_layer_witness :
  exists gradients',
    weight_matching_gradient_fn Concrete.mlp_params_a Concrete.mlp_params_b
      (eye 1) "P_final"
      (perm_to_layers_and_axes (add_final_perm Concrete.mlp_spec))
      [("P_0", eye 2); ("P_final", eye 1)]
      [("P_0", zeros 2 2); ("P_final", zeros 1 1)] = Ok gradients'
    /\ Dict.get "P_0" gradients' <> Some (zeros 2 2)
    /\ Dict.get "P_final" gradients'
       = Dict.get "P_final" [("P_0", zeros 2 2); ("P_final", zeros 1 1)].
Proof.
  eexists. split; [vm_compute; reflexivity |]. split; [discriminate |].
  apply (@weight_matching_gradient_fn_single_layer Concrete.mlp_params_a
           Concrete.mlp_params_b (eye 1) "P_final"
           (perm_to_layers_and_axes (add_final_perm Concrete.mlp_spec))
           [("P_0", eye 2); ("P_final", eye 1)]
           [("P_0", zeros 2 2); ("P_final", zeros 1 1)] _ "linear.weight" 0).
  - reflexivity.
  - vm_compute. reflexivity.
Defined.


(** *** The objective of one permutation and its gradient *)

Lemma entry_madd (r c i j : nat) (A B : mat) :
  wf_mat r c A -> wf_mat r c B -> (i < r)%nat -> (j < c)%nat ->
  entry (madd_raw A B) i j = entry A i j + entry B i j.
Proof.
  intros HA HB Hi Hj. unfold entry, madd_raw.
  assert (HlA : length A = r) by apply HA.
  assert (HlB : length B = r) by apply HB.
  rewrite (@nth_map2_in _ _ _ (map2 Qplus) _ _ i [] [] []) by lia.
  pose proof (wf_row_length HA Hi) as HrA.
  pose proof (wf_row_length HB Hi) as HrB.
  rewrite (@nth_map2_in _ _ _ Qplus _ _ j 0 0 0) by lia.
  reflexivity.
Qed.

Lemma wf_madd (r c : nat) (A B : mat) :
  wf_mat r c A -> wf_mat r c B -> wf_mat r c (madd_raw A B).
Proof.
  intros [HlA HrA] [HlB HrB]. unfold madd_raw. split.
  - rewrite length_map2; congruence.
  - revert r B HlA HlB HrB. induction HrA as [| ra A Hra _ IH];
      intros r B HlA HlB HrB; [constructor |].
    destruct HrB as [| rb B Hrb HrB]; [constructor |].
    simpl. constructor.
    + rewrite length_map2; congruence.
    + simpl in HlA, HlB. apply (IH (length A)); [reflexivity | lia | exact HrB].
Qed.

Lemma frobenius_madd (r c : nat) (A B P : mat) :
  wf_mat r c A -> wf_mat r c B -> wf_mat r c P ->
  frobenius (madd_raw A B) P == frobenius A P + frobenius B P.
Proof.
  intros HA HB HP.
  rewrite (frobenius_bigsum (wf_madd HA HB) HP).
  rewrite (frobenius_bigsum HA HP), (frobenius_bigsum HB HP).
  rewrite <- bigsum_plus. apply bigsum_ext. intros i Hi.
  rewrite <- bigsum_plus. apply bigsum_ext. intros j Hj.
  rewrite (entry_madd HA HB Hi Hj). ring.
Qed.

Lemma wf_zeros (r c : nat) : wf_mat r c (zeros r c).
Proof.
  unfold zeros. split; [apply repeat_length |].
  apply Forall_forall. intros x Hx. apply repeat_spec in Hx. subst x.
  apply repeat_length.
Qed.

Lemma entry_zeros (r c i j : nat) : entry (zeros r c) i j = 0.
Proof.
  unfold entry, zeros.
  destruct (Nat.lt_ge_cases i r) as [Hi | Hi].
  - rewrite nth_repeat_lt by exact Hi.
    destruct (Nat.lt_ge_cases j c) as [Hj | Hj].
    + now rewrite nth_repeat_lt.
    + apply nth_overflow. now rewrite repeat_length.
  - rewrite (nth_overflow (repeat (repeat 0 c) r)) by now rewrite repeat_length.
    now destruct j.
Qed.

Lemma frobenius_zeros (r c : nat) (P : mat) :
  wf_mat r c P -> frobenius (zeros r c) P == 0.
Proof.
  intros HP. rewrite (frobenius_bigsum (wf_zeros r c) HP).
  apply bigsum_zero. intros i Hi. apply bigsum_zero. intros j Hj.
  rewrite entry_zeros. ring.
Qed.

Lemma transpose_eye (n : nat) : (0 < n)%nat -> mat_eq (transpose (eye n)) (eye n).
Proof.
  intros Hn.
  apply (@mat_eq_entries n n);
    [exact (wf_transpose_pos (wf_eye n) Hn) | exact (wf_eye n) |].
  intros i j Hi Hj.
  rewrite (entry_transpose (wf_eye n) Hn Hj Hi).
  rewrite (entry_eye Hj Hi), (entry_eye Hi Hj), (Nat.eqb_sym j i). reflexivity.
Qed.

(** The row term pairs with the row permutation, with or without a column
    permutation. *)
Lemma row_term_pairs (d0 d1 : nat) (Wa Wb P : mat) (P_prev : option mat)
  (debug : bool) :
  wf_mat d0 d1 Wa -> wf_mat d0 d1 Wb -> wf_mat d0 d0 P ->
  (forall q, P_prev = Some q -> wf_mat d1 d1 q) ->
  (0 < d0)%nat -> (0 < d1)%nat ->
  exists G s,
    compute_gradient_P_curr (T2 Wa) (T2 Wb) P_prev = Ok G
    /\ wf_mat d0 d0 G
    /\ compute_layer_similarity (T2 Wa) (T2 Wb) P P_prev debug = Ok s
    /\ s == frobenius G P.
Proof.
  intros Ha Hb HP Hq H0 H1.
  assert (Hbt : wf_mat d1 d0 (transpose Wb)) by exact (wf_transpose_pos Hb H0).
  assert (Hsome : forall q, wf_mat d1 d1 q ->
            compute_gradient_P_curr (T2 Wa) (T2 Wb) (Some q)
            = Ok (grad_row_term Wa Wb q)).
  { intros q Hq'. unfold grad_row_term. apply compute_gradient_P_curr_eval.
    - destruct Ha as [-> _], Hb as [-> _]. reflexivity.
    - rewrite (wf_mat_ncols Ha), (wf_mat_ncols Hb) by lia. reflexivity.
    - rewrite (wf_mat_ncols Hb) by lia. exact Hq'. }
  assert (Hwf : forall q, wf_mat d1 d1 q -> wf_mat d0 d0 (grad_row_term Wa Wb q)).
  { intros q Hq'. unfold grad_row_term.
    exact (wf_matmul Ha (wf_matmul Hq' Hbt H1) H1). }
  destruct P_prev as [q |].
  - specialize (Hq q eq_refl).
    exists (grad_row_term Wa Wb q). eexists. split; [exact (Hsome q Hq) |].
    split; [exact (Hwf q Hq) |].
    split; [exact (compute_layer_similarity_eval Ha Hb HP Hq H0 H1 debug) |].
    exact (similarity_pairs_with_row_term Ha Hb HP Hq H0 H1).
  - pose proof (wf_eye d1) as He.
    exists (grad_row_term Wa Wb (eye d1)). eexists. split; [| split; [| split]].
    + change (compute_gradient_P_curr (T2 Wa) (T2 Wb) None)
        with (compute_gradient_P_curr (T2 Wa) (T2 Wb) (Some (eye (ncols Wb)))).
      rewrite (wf_mat_ncols Hb) by lia. exact (Hsome _ He).
    + exact (Hwf _ He).
    + exact (compute_layer_similarity_eval_none debug Ha Hb HP H0 H1).
    + rewrite <- (similarity_pairs_with_row_term Ha Hb HP He H0 H1).
      pose proof (wf_matmul HP Hb H0) as HPb.
      pose proof (wf_permuted_rank2 Hb HP He H0 H1) as HX.
      rewrite (trace_transpose_product Ha HPb H0 H1).
      rewrite (trace_transpose_product Ha HX H0 H1).
      symmetry.
      rewrite (frobenius_eq_r Ha HX (permuted_rank2_product Hb HP He H0 H1)).
      apply (frobenius_eq_r Ha (wf_matmul HPb (wf_transpose_pos He H1) H1)).
      apply (@mat_eq_trans _ (matmul_raw (matmul_raw P Wb) (eye d1))).
      * exact (matmul_raw_eq_r HPb (wf_transpose_pos He H1) (transpose_eye H1) H1).
      * exact (matmul_eye_r HPb H1).
Qed.

Lemma get_prev_permutation_cases (params_name : string)
  (perm_to_axes : Dict.t (list (string * nat)))
  (perm_matrices : Dict.t PermutationMatrix) (r : option string * option mat) :
  get_prev_permutation params_name perm_to_axes perm_matrices = Ok r ->
  r = (None, None)
  \/ exists k m, r = (Some k, Some m)
                 /\ In (k, m) (Dict.items perm_matrices)
                 /\ permutes_columns perm_to_axes k params_name.
Proof.
  intros H. unfold get_prev_permutation in H.
  destruct (get_prev_permutation_loop _ _ _ _ H)
    as [[E _] | (k & m & l1 & l2 & E & Hl & Hm & _)]; [now left |].
  right. exists k, m. split; [exact E |]. split; [| exact Hm].
  rewrite Hl. apply in_or_app. right. now left.
Qed.

Lemma single_perm_loops (params_a params_b : ModelParams) (P P' : mat)
  (P_curr_name : string) (perm_to_axes : Dict.t (list (string * nat)))
  (perm_matrices : Dict.t PermutationMatrix)
  (params_and_axes : list (string * nat)) (d0 : nat) (debug : bool) :
  length params_and_axes <> 1%nat ->
  wf_mat d0 d0 P -> (0 < d0)%nat ->
  (forall params_name,
      In (params_name, 0%nat) params_and_axes ->
      ~ permutes_columns perm_to_axes P_curr_name params_name
      /\ exists d1 Wa Wb,
           (0 < d1)%nat
           /\ Dict.get params_name params_a = Some (T2 Wa)
           /\ Dict.get params_name params_b = Some (T2 Wb)
           /\ wf_mat d0 d1 Wa /\ wf_mat d0 d1 Wb
           /\ forall name q, In (name, q) (Dict.items perm_matrices) ->
                             permutes_columns perm_to_axes name params_name ->
                             wf_mat d1 d1 q) ->
  forall l : list (string * nat),
    (forall x, In x l -> In x params_and_axes) ->
    forall (gr g' : Dict.t mat) (s0 s : Q) (Gk : mat),
      Dict.get P_curr_name gr = Some Gk -> wf_mat d0 d0 Gk ->
      for_each
        (fun gradients '(params_name, axis) =>
           if Nat.eqb axis 0
           then
             Wa <- Dict.getitem params_name params_a ;;
             Wb <- Dict.getitem params_name params_b ;;
             '(Wa, Wb) <- (if Nat.eqb (dim Wa) 1
                           then Wa' <- unsqueeze1 Wa ;;
                                Wb' <- unsqueeze1 Wb ;;
                                Ok (Wa', Wb')
                           else Ok (Wa, Wb)) ;;
             '(P_prev_name, P_prev)
                <- get_prev_permutation params_name perm_to_axes perm_matrices ;;
             gradients <- (if negb (is_last_layer params_and_axes)
                           then grad_P_curr <- compute_gradient_P_curr Wa Wb P_prev ;;
                                add_gradient gradients P_curr_name grad_P_curr
                           else Ok gradients) ;;
             match P_prev_name with
             | Some name =>
                 grad_P_prev <- compute_gradient_P_prev Wa Wb P' ;;
                 add_gradient gradients name grad_P_prev
             | None => Ok gradients
             end
           else Ok gradients)
        l gr = Ok g' ->
      for_each
        (fun obj '(params_name, axis) =>
           if Nat.eqb axis 0
           then
             Wa <- Dict.getitem params_name params_a ;;
             Wb <- Dict.getitem params_name params_b ;;
             '(_, P_prev)
                <- get_prev_permutation params_name perm_to_axes perm_matrices ;;
             layer_similarity <- compute_layer_similarity Wa Wb P P_prev debug ;;
             Ok (obj + layer_similarity)
           else Ok obj)
        l s0 = Ok s ->
      exists G, Dict.get P_curr_name g' = Some G
                /\ wf_mat d0 d0 G
                /\ s + frobenius Gk P == s0 + frobenius G P.
Proof.
  intros Hlen HP H0 Hparams.
  assert (Hnl : negb (is_last_layer params_and_axes) = true).
  { unfold is_last_layer. apply Nat.eqb_neq in Hlen. now rewrite Hlen. }
  induction l as [| [w ax] l IH]; intros Hincl gr g' s0 s Gk Hget HGk Hg Ho.
  - simpl in Hg, Ho. injection Hg as <-. injection Ho as <-.
    exists Gk. split; [exact Hget |]. split; [exact HGk | reflexivity].
  - cbn [for_each] in Hg, Ho.
    inv_bind_as Hg gr2 Hbg. inv_bind_as Ho s1 Hbo.
    assert (Hincl' : forall x, In x l -> In x params_and_axes)
      by (intros x Hx; apply Hincl; now right).
    destruct (Nat.eqb_spec ax 0) as [-> | Hne].
    + destruct (Hparams w (Hincl _ (or_introl eq_refl)))
        as (Hnc & d1 & Wa & Wb & H1 & Hga & Hgb & Ha & Hb & Hq).
      unfold Dict.getitem in Hbg, Hbo. rewrite Hga, Hgb in Hbg, Hbo.
      cbn [bind dim Nat.eqb] in Hbg, Hbo.
      inv_bind_as Hbg prev Hprev. rewrite Hprev in Hbo. cbn [bind] in Hbo.
      destruct prev as [P_prev_name P_prev].
      assert (Hqwf : forall q, P_prev = Some q -> wf_mat d1 d1 q).
      { intros q ->.
        destruct (get_prev_permutation_cases _ _ _ Hprev)
          as [E | (k & m & E & Hin & Hcol)]; [discriminate |].
        injection E as -> ->. exact (Hq _ _ Hin Hcol). }
      destruct (row_term_pairs debug Ha Hb HP Hqwf H0 H1)
        as (Gw & sw & HGw & HwfGw & Hsw & Hpair).
      rewrite Hsw in Hbo. cbn [bind] in Hbo. injection Hbo as <-.
      rewrite Hnl, HGw in Hbg. cbn [bind] in Hbg.
      inv_bind_as Hbg gr1 Hadd.
      unfold add_gradient at 1 in Hadd. unfold Dict.getitem in Hadd.
      rewrite Hget in Hadd. cbn [bind] in Hadd.
      inv_bind_as Hadd Gk1 Hmadd. injection Hadd as <-.
      assert (HGk1 : Gk1 = madd_raw Gk Gw).
      { unfold madd in Hmadd. destruct (shape_eqb _ _); [| discriminate].
        now injection Hmadd as <-. }
      subst Gk1.
      assert (Hget2 : Dict.get P_curr_name gr2 = Some (madd_raw Gk Gw)).
      { destruct P_prev_name as [name |].
        - inv_bind_as Hbg gp Hgp.
          destruct (add_gradient_frame _ _ _ Hbg) as [_ Hf].
          rewrite Hf; [apply dict_get_set_same |].
          intros ->.
          destruct (get_prev_permutation_cases _ _ _ Hprev)
            as [E | (k & m & E & _ & Hcol)]; [discriminate |].
          injection E as -> _. exact (Hnc Hcol).
        - injection Hbg as <-. apply dict_get_set_same. }
      destruct (IH Hincl' _ _ _ _ _ Hget2 (wf_madd HGk HwfGw) Hg Ho)
        as (G & HG & HwfG & Heq).
      exists G. split; [exact HG |]. split; [exact HwfG |].
      rewrite (frobenius_madd HGk HwfGw HP) in Heq.
      rewrite Hpair in Heq. lra.
    + injection Hbg as <-. injection Hbo as <-.
      exact (IH Hincl' _ _ _ _ _ Hget HGk Hg Ho).
Qed.

(** X24. The objective of one permutation is linear in it, and
    [weight_matching_gradient_fn] accumulates its coefficients.  Let the
    topology attach the permutation to more than one parameter axis, let its
    axis-0 parameters be matrices of [d0] rows whose column permutations in
    [perm_matrices] are square of the column extent, and let its entry of
    [gradients] start at zero.  Then the matrix [G] the gradient function
    leaves in that entry, whatever matrix [P'] it is called with, gives the
    objective at every [P]: [compute_single_perm_obj_function] returns
    [<G, P>]. *)
Theorem single_perm_objective_pairs_with_gradient
  (params_a params_b : ModelParams) (P P' : mat) (P_curr_name : string)
  (perm_to_axes : Dict.t (list (string * nat)))
  (perm_matrices : Dict.t PermutationMatrix)
  (params_and_axes : list (string * nat)) (d0 : nat) (debug : bool)
  (gradients gradients' : Dict.t mat) (obj : Q) :
  Dict.get P_curr_name perm_to_axes = Some params_and_axes ->
  length params_and_axes <> 1%nat ->
  wf_mat d0 d0 P -> (0 < d0)%nat ->
  Dict.get P_curr_name gradients = Some (zeros d0 d0) ->
  (forall params_name,
      In (params_name, 0%nat) params_and_axes ->
      ~ permutes_columns perm_to_axes P_curr_name params_name
      /\ exists d1 Wa Wb,
           (0 < d1)%nat
           /\ Dict.get params_name params_a = Some (T2 Wa)
           /\ Dict.get params_name params_b = Some (T2 Wb)
           /\ wf_mat d0 d1 Wa /\ wf_mat d0 d1 Wb
           /\ forall name q, In (name, q) (Dict.items perm_matrices) ->
                             permutes_columns perm_to_axes name params_name ->
                             wf_mat d1 d1 q) ->
  weight_matching_gradient_fn params_a params_b P' P_curr_name perm_to_axes
    perm_matrices gradients = Ok gradients' ->
  compute_single_perm_obj_function params_a params_b P P_curr_name perm_to_axes
    perm_matrices debug = Ok obj ->
  exists G, Dict.get P_curr_name gradients' = Some G
            /\ wf_mat d0 d0 G
            /\ obj == frobenius G P.
Proof.
  intros HL Hlen HP H0 Hz Hparams Hg Ho.
  unfold weight_matching_gradient_fn in Hg.
  unfold compute_single_perm_obj_function in Ho.
  unfold Dict.getitem in Hg at 1. unfold Dict.getitem in Ho at 1.
  rewrite HL in Hg, Ho. cbn [bind] in Hg, Ho.
  destruct (@single_perm_loops params_a params_b P P' P_curr_name perm_to_axes
              perm_matrices params_and_axes d0 debug Hlen HP H0 Hparams
              params_and_axes (fun x Hx => Hx) gradients gradients' 0 obj
              (zeros d0 d0) Hz (wf_zeros d0 d0) Hg Ho)
    as (G & HG & HwfG & Heq).
  exists G. split; [exact HG |]. split; [exact HwfG |].
  rewrite (frobenius_zeros HP) in Heq. lra.
Qed.

Lemma single_perm_objective_pairs_with_gradient_witness :
  exists gradients' obj,
    weight_matching_gradient_fn
      [("w1", T2 [[1; 2]; [3; 5]]); ("w2", T2 [[2; 1]])]
      [("w1", T2 [[5; 3]; [2; 1]]); ("w2", T2 [[1; 2]])]
      (eye 2) "P_1"
      [("P_0", [("w0", 0%nat); ("w1", 1%nat)]);
       ("P_1", [("w1", 0%nat); ("w2", 1%nat)])]
      [("P_0", [[0; 1]; [1; 0]]); ("P_1", eye 2)]
      [("P_0", zeros 2 2); ("P_1", zeros 2 2)] = Ok gradients'
    /\ compute_single_perm_obj_function
         [("w1", T2 [[1; 2]; [3; 5]]); ("w2", T2 [[2; 1]])]
         [("w1", T2 [[5; 3]; [2; 1]]); ("w2", T2 [[1; 2]])]
         [[0; 1]; [1; 0]] "P_1"
         [("P_0", [("w0", 0%nat); ("w1", 1%nat)]);
          ("P_1", [("w1", 0%nat); ("w2", 1%nat)])]
         [("P_0", [[0; 1]; [1; 0]]); ("P_1", eye 2)] true = Ok obj
    /\ exists G, Dict.get "P_1" gradients' = Some G
                 /\ wf_mat 2 2 G
                 /\ obj == frobenius G [[0; 1]; [1; 0]].
Proof.
  eexists _, _. split; [vm_compute; reflexivity |].
  split; [vm_compute; reflexivity |].
  apply (@single_perm_objective_pairs_with_gradient
           [("w1", T2 [[1; 2]; [3; 5]]); ("w2", T2 [[2; 1]])]
           [("w1", T2 [[5; 3]; [2; 1]]); ("w2", T2 [[1; 2]])]
           [[0; 1]; [1; 0]] (eye 2) "P_1"
           [("P_0", [("w0", 0%nat); ("w1", 1%nat)]);
            ("P_1", [("w1", 0%nat); ("w2", 1%nat)])]
           [("P_0", [[0; 1]; [1; 0]]); ("P_1", eye 2)]
           [("w1", 0%nat); ("w2", 1%nat)] 2 true
           [("P_0", zeros 2 2); ("P_1", zeros 2 2)]).
  - reflexivity.
  - discriminate.
  - split; [reflexivity | repeat constructor].
  - lia.
  - reflexivity.
  - intros params_name [E | [E | []]]; [| discriminate E].
    injection E as <-. split.
    + intros (axes & Hax & Hin). injection Hax as <-.
      destruct Hin as [E | [E | []]]; discriminate E.
    + exists 2%nat, [[1; 2]; [3; 5]], [[5; 3]; [2; 1]].
      split; [lia |]. split; [reflexivity |]. split; [reflexivity |].
      split; [split; [reflexivity | repeat constructor] |].
      split; [split; [reflexivity | repeat constructor] |].
      intros name q [E | [E | []]] _; injection E as <- <-;
        split; [reflexivity | repeat constructor | reflexivity | repeat constructor].
  - vm_compute. reflexivity.
  - vm_compute. reflexivity.
Defined.


(** *** Sizes and selection in the driver *)

(** X25. The driver sizes a permutation by the first parameter axis the
    topology lists for it: [perm_sizes] has the keys of the perm-to-layers
    mapping in their order, the size of each is the extent of its first
    listed parameter of [params_a] at the listed axis (the other entries of
    the list are not read), and no list of the mapping is empty. *)
Theorem compute_perm_sizes_first_entry
  (perm_to_layers : Dict.t (list (string * nat))) (params_a : ModelParams)
  (perm_sizes : Dict.t nat) :
  NoDup (Dict.keys perm_to_layers) ->
  compute_perm_sizes perm_to_layers params_a = Ok perm_sizes ->
  Dict.keys perm_sizes = Dict.keys perm_to_layers
  /\ (forall p params_and_axes,
        Dict.get p perm_to_layers = Some params_and_axes ->
        exists relevant_params relevant_axis rest W n,
          params_and_axes = (relevant_params, relevant_axis) :: rest
          /\ Dict.get relevant_params params_a = Some W
          /\ shape_at W relevant_axis = Ok n
          /\ Dict.get p perm_sizes = Some n).
Proof.
  intros Hnd H. split; [exact (@compute_perm_sizes_keys _ _ _ Hnd H) |].
  intros p params_and_axes Hget.
  destruct params_and_axes as [| [rp ax] rest].
  - exfalso. unfold compute_perm_sizes in H.
    assert (Hin : In (p, @nil (string * nat)) (Dict.items perm_to_layers)).
    { clear - Hget. unfold Dict.items.
      induction perm_to_layers as [| [k v] l IH]; simpl in *; [discriminate |].
      destruct (String.eqb p k) eqn:E.
      - apply String.eqb_eq in E. subst k. injection Hget as ->. now left.
      - right. now apply IH. }
    destruct (for_each_ok_each _ _ _ H _ Hin) as (s1 & s2 & Hb).
    discriminate Hb.
  - unfold compute_perm_sizes, Dict.items in H.
    destruct (@compute_perm_sizes_get params_a p _ Hnd _ _ H rp ax rest Hget)
      as (W & n & HW & Hn & Hs).
    exists rp, ax, rest, W, n. repeat split; assumption.
Qed.

Lemma compute_perm_sizes_first_entry_witness :
  Dict.keys Concrete.mlp_sizes
  = Dict.keys (perm_to_layers_and_axes (add_final_perm Concrete.mlp_spec))
  /\ (forall p params_and_axes,
        Dict.get p (perm_to_layers_and_axes (add_final_perm Concrete.mlp_spec))
        = Some params_and_axes ->
        exists relevant_params relevant_axis rest W n,
          params_and_axes = (relevant_params, relevant_axis) :: rest
          /\ Dict.get relevant_params Concrete.mlp_params_a = Some W
          /\ shape_at W relevant_axis = Ok n
          /\ Dict.get p Concrete.mlp_sizes = Some n).
Proof.
  apply (@compute_perm_sizes_first_entry
           (perm_to_layers_and_axes (add_final_perm Concrete.mlp_spec))
           Concrete.mlp_params_a Concrete.mlp_sizes).
  - repeat constructor; simpl; intuition discriminate.
  - vm_compute. reflexivity.
Defined.

Section DriverSelection.

Variable rng : Type.
Variable torch_rand : nat -> nat -> rng -> mat * rng.
Variable seed_everything : Z -> rng.
Variable np_random_randint : Z -> Z -> nat -> list Z.
Variable solve_linear_assignment_problem : mat -> PermutationIndices.
Variable fminbound : (Q -> result Q) -> Q -> Q -> result Q.

(** X26. When the sizes are computed and every trial returns, the driver's
    answer is decided by the first trial of maximal objective: it is the
    hardening of that trial's matrices (with its history on request) when
    that objective is positive, and the [UnboundLocalError] of
    [best_perm_matrices] otherwise, as it is when there is no trial. *)
Theorem frank_wolfe_weight_matching_selects (ps : PermutationSpec)
  (fixed permutee : ModelParams) (initialization_method : string)
  (max_iter : nat) (return_perm_history : bool) (num_trials : nat)
  (perm_sizes : Dict.t nat) (rs : list trial_result) :
  compute_perm_sizes (perm_to_layers_and_axes (add_final_perm ps)) fixed
  = Ok perm_sizes ->
  Forall2 (fun seed r =>
             frank_wolfe_weight_matching_trial torch_rand
               solve_linear_assignment_problem fminbound fixed permutee
               perm_sizes initialization_method (add_final_perm ps) max_iter
               (seed_everything seed) = Ok r)
    (np_random_randint 0%Z 1000%Z num_trials) rs ->
  snd (frank_wolfe_weight_matching torch_rand seed_everything
         np_random_randint solve_linear_assignment_problem fminbound ps fixed
         permutee initialization_method max_iter return_perm_history
         num_trials)
  = match first_argmax rs with
    | Some (pm, h, obj) =>
        if Qgtb obj 0
        then Ok (map (fun '(p, perm) => (p, solve_linear_assignment_problem perm))
                   pm,
                 if return_perm_history then Some h else None)
        else Raise (UnboundLocalError "best_perm_matrices")
    | None => Raise (UnboundLocalError "best_perm_matrices")
    end.
Proof.
  intros Hsizes Htrials. unfold frank_wolfe_weight_matching.
  cbn [snd]. rewrite Hsizes. cbn [bind].
  rewrite (@trials_fold _ _ _ _ _ _ _ _ _ _ _ _ _ Htrials). cbn [bind].
  rewrite keep_best_first_argmax.
  destruct (first_argmax rs) as [[[pm h] obj] |]; [| reflexivity].
  destruct (Qgtb obj 0); reflexivity.
Qed.

End DriverSelection.

Lemma frank_wolfe_weight_matching_selects_witness :
  exists r,
    frank_wolfe_weight_matching_trial Concrete.torch_rand
      Concrete.solve_linear_assignment_problem Concrete.fminbound
      Concrete.mlp_params_a Concrete.mlp_params_b Concrete.mlp_sizes
      "identity" (add_final_perm Concrete.mlp_spec) 2
      (Concrete.seed_everything 0) = Ok r
    /\ snd (Concrete.run_driver Concrete.mlp_spec Concrete.mlp_params_a
              Concrete.mlp_params_b "identity" 2 false 1)
       = match first_argmax [r] with
         | Some (pm, h, obj) =>
             if Qgtb obj 0
             then Ok (map (fun '(p, perm) =>
                             (p, Concrete.solve_linear_assignment_problem perm))
                        pm,
                      None)
             else Raise (UnboundLocalError "best_perm_matrices")
         | None => Raise (UnboundLocalError "best_perm_matrices")
         end.
Proof.
  eexists. split; [vm_compute; reflexivity |].
  unfold Concrete.run_driver.
  apply (@frank_wolfe_weight_matching_selects Concrete.rng Concrete.torch_rand
           Concrete.seed_everything Concrete.np_random_randint
           Concrete.solve_linear_assignment_problem Concrete.fminbound
           Concrete.mlp_spec Concrete.mlp_params_a Concrete.mlp_params_b
           "identity" 2 false 1 Concrete.mlp_sizes).
  - vm_compute. reflexivity.
  - change (Concrete.np_random_randint 0 1000 1) with [0%Z].
    apply Forall2_cons; [vm_compute; reflexivity | apply Forall2_nil].
Defined.


(* ================================================================= *)
(** ** [perm_rows] on tensors of rank 3 and 4 *)

Lemma col_map_map (A B : Type) (f : A -> B) (j : nat) (m : list (list A)) :
  col j (map (map f) m) = map f (col j m).
Proof.
  unfold col. induction m as [| r m IH]; [reflexivity |].
  cbn [map flat_map]. rewrite IH, map_app. f_equal.
  rewrite nth_error_map. destruct (nth_error r j); reflexivity.
Qed.

Lemma transpose_map_map (A B : Type) (f : A -> B) (m : list (list A)) :
  transpose (map (map f) m) = map (map f) (transpose m).
Proof.
  unfold transpose. rewrite ncols_map_map, map_map.
  apply map_ext. intros j. apply col_map_map.
Qed.

Lemma Forall2_map_in (A B C : Type) (R : B -> C -> Prop) (f : A -> B)
  (g : A -> C) (l : list A) :
  (forall a, In a l -> R (f a) (g a)) -> Forall2 R (map f l) (map g l).
Proof.
  induction l as [| a l IH]; intros H; [constructor |].
  cbn [map]. constructor; [apply H; now left |].
  apply IH. intros b Hb. apply H. now right.
Qed.

Lemma length_vadd (u v : vec) : length u = length v -> length (vadd u v) = length u.
Proof. intros H. unfold vadd. now apply length_map2. Qed.

Lemma nth_vadd (u v : vec) (k : nat) :
  length u = length v -> (k < length u)%nat ->
  nth k (vadd u v) 0 = nth k u 0 + nth k v 0.
Proof.
  intros Hl Hk. unfold vadd.
  apply (@nth_map2_in _ _ _ Qplus u v k 0 0 0); lia.
Qed.

Lemma fold_left_vadd_nth (d k : nat) (rest : list vec) :
  (k < d)%nat -> Forall (fun f => length f = d) rest ->
  forall f, length f = d ->
    length (fold_left vadd rest f) = d
    /\ nth k (fold_left vadd rest f) 0
       == nth k f 0 + vsum (map (fun g => nth k g 0) rest).
Proof.
  intros Hk Hrest. induction Hrest as [| g rest Hg _ IH]; intros f Hf.
  - simpl. split; [exact Hf |]. change (vsum []) with 0. ring.
  - cbn [fold_left map]. rewrite vsum_cons.
    assert (Hfg : length (vadd f g) = d) by (rewrite length_vadd; congruence).
    destruct (IH _ Hfg) as [Hl Hn]. split; [exact Hl |].
    rewrite Hn, nth_vadd by (try congruence; lia). ring.
Qed.

Lemma nth_vscale (c : Q) (f : vec) (k : nat) :
  nth k (vscale c f) 0 == c * nth k f 0.
Proof.
  unfold vscale. destruct (Nat.lt_ge_cases k (length f)) as [Hk | Hk].
  - rewrite (@nth_map_in _ _ (Qmult c) f k 0 0) by exact Hk. reflexivity.
  - rewrite !nth_overflow by (try rewrite length_map; exact Hk). ring.
Qed.

Lemma scaled_fibers_sum (cs : vec) (fs : list vec) (k : nat) :
  vsum (map (fun g => nth k g 0) (map2 vscale cs fs))
  == dot cs (map (fun f => nth k f 0) fs).
Proof.
  revert fs. induction cs as [| c cs IH]; intros fs; [reflexivity |].
  destruct fs as [| f fs]; [reflexivity |].
  cbn [map2 map]. rewrite vsum_cons.
  change (dot (c :: cs) (nth k f 0 :: map (fun f0 => nth k f0 0) fs))
    with (c * nth k f 0 + dot cs (map (fun f0 => nth k f0 0) fs)).
  rewrite IH, nth_vscale. reflexivity.
Qed.

(** Entry [k] of a linear combination of fibers is the scalar product of the
    coefficients with the entries [k]. *)
Lemma lincomb_nth (d k : nat) (cs : vec) (fs : list vec) :
  (k < d)%nat -> Forall (fun f => length f = d) fs ->
  nth k (lincomb vadd vscale [] cs fs) 0
  == dot cs (map (fun f => nth k f 0) fs).
Proof.
  intros Hk Hfs. rewrite <- scaled_fibers_sum. unfold lincomb.
  assert (Hsc : Forall (fun f => length f = d) (map2 vscale cs fs)).
  { clear Hk. revert cs. induction Hfs as [| f fs Hf _ IH]; intros cs.
    - destruct cs; constructor.
    - destruct cs as [| c cs]; [constructor |]. cbn [map2].
      constructor; [| apply IH]. unfold vscale. now rewrite length_map. }
  destruct (map2 vscale cs fs) as [| f0 rest]; [now destruct k |].
  inversion Hsc as [| ? ? Hf0 Hrest]; subst.
  destruct (fold_left_vadd_nth Hk Hrest f0 eq_refl) as [_ Hn].
  rewrite Hn. cbn [map]. rewrite vsum_cons. reflexivity.
Qed.

Lemma col_fibers3 (d j : nat) (t : list (list (list Q))) :
  fibers3 d t -> Forall (fun f => length f = d) (col j t).
Proof.
  unfold fibers3, col. induction 1 as [| r t Hr _ IH]; [constructor |].
  cbn [flat_map]. apply Forall_app. split; [| exact IH].
  destruct (nth_error r j) as [f |] eqn:E; [| constructor].
  constructor; [| constructor].
  apply nth_error_In in E. rewrite Forall_forall in Hr. now apply Hr.
Qed.

Lemma perm_rows_fib_slice3 (d k : nat) (perm : mat) (t : list (list (list Q))) :
  (k < d)%nat -> fibers3 d t ->
  mat_eq (slice3 k (perm_rows_fib vadd vscale [] perm t))
         (matmul_raw perm (slice3 k t)).
Proof.
  intros Hk Hfib. unfold slice3, perm_rows_fib, matmul_raw, mat_eq.
  rewrite map_map. apply Forall2_map_in. intros prow _.
  rewrite map_map, transpose_map_map, map_map.
  apply Forall2_map_in. intros xcol Hx.
  apply (@lincomb_nth d); [exact Hk |].
  unfold transpose in Hx. apply in_map_iff in Hx. destruct Hx as (j & <- & _).
  now apply col_fibers3.
Qed.

(** X27. On a rank-3 tensor [perm_rows] permutes every slice of the last
    axis as it does a matrix: slice [k] of [perm_rows(x, perm)] is
    [perm @ x[:, :, k]]. *)
Theorem perm_rows_rank3_slices (d k : nat) (perm : mat)
  (t : list (list (list Q))) :
  length t = nrows perm -> nrows perm = ncols perm ->
  fibers3 d t -> (k < d)%nat ->
  exists t',
    perm_rows (T3 t) perm = Ok (T3 t')
    /\ mat_eq (slice3 k t') (matmul_raw perm (slice3 k t)).
Proof.
  intros Hl Hsq Hfib Hk. eexists. split.
  - unfold perm_rows. cbn [shape hd]. rewrite Hl, Nat.eqb_refl.
    cbn [py_assert bind]. rewrite Hsq, Nat.eqb_refl. reflexivity.
  - exact (perm_rows_fib_slice3 perm Hk Hfib).
Qed.

Lemma perm_rows_rank3_slices_witness :
  exists t',
    perm_rows (T3 [[[1; 2]; [3; 4]; [5; 6]]; [[7; 8]; [9; 10]; [11; 12]]])
      [[0; 1]; [1; 0]] = Ok (T3 t')
    /\ mat_eq (slice3 1 t')
         (matmul_raw [[0; 1]; [1; 0]]
            (slice3 1 [[[1; 2]; [3; 4]; [5; 6]]; [[7; 8]; [9; 10]; [11; 12]]])).
Proof.
  apply (@perm_rows_rank3_slices 2 1).
  - reflexivity.
  - reflexivity.
  - repeat constructor.
  - lia.
Defined.

Lemma entry_mscale (r c k m : nat) (a : Q) (f : mat) :
  wf_mat r c f -> (k < r)%nat -> (m < c)%nat ->
  entry (mscale a f) k m = a * entry f k m.
Proof.
  intros Hf Hk Hm. unfold entry, mscale.
  rewrite (@nth_map_in _ _ (map (Qmult a)) f k [] [])
    by (destruct Hf as [-> _]; exact Hk).
  rewrite (@nth_map_in _ _ (Qmult a) (nth k f []) m 0 0)
    by (rewrite (wf_row_length Hf Hk); exact Hm).
  reflexivity.
Qed.

Lemma wf_mscale (r c : nat) (a : Q) (f : mat) :
  wf_mat r c f -> wf_mat r c (mscale a f).
Proof. intros Hf. unfold mscale. apply wf_map_map. exact Hf. Qed.

Lemma fold_left_madd_entry (d1 d2 k m : nat) (rest : list mat) :
  (k < d1)%nat -> (m < d2)%nat -> Forall (fun f => wf_mat d1 d2 f) rest ->
  forall f, wf_mat d1 d2 f ->
    wf_mat d1 d2 (fold_left madd_raw rest f)
    /\ entry (fold_left madd_raw rest f) k m
       == entry f k m + vsum (map (fun g => entry g k m) rest).
Proof.
  intros Hk Hm Hrest. induction Hrest as [| g rest Hg _ IH]; intros f Hf.
  - simpl. split; [exact Hf |]. change (vsum []) with 0. ring.
  - cbn [fold_left map]. rewrite vsum_cons.
    destruct (IH _ (wf_madd Hf Hg)) as [Hw Hn]. split; [exact Hw |].
    rewrite Hn, (entry_madd Hf Hg Hk Hm). ring.
Qed.

Lemma scaled_matrix_fibers_sum (d1 d2 k m : nat) (fs : list mat) :
  (k < d1)%nat -> (m < d2)%nat -> Forall (fun f => wf_mat d1 d2 f) fs ->
  forall cs : vec,
    Forall (fun f => wf_mat d1 d2 f) (map2 mscale cs fs)
    /\ vsum (map (fun g => entry g k m) (map2 mscale cs fs))
       == dot cs (map (fun f => entry f k m) fs).
Proof.
  intros Hk Hm Hfs. induction Hfs as [| f fs Hf _ IH]; intros cs.
  - destruct cs; split; try constructor; reflexivity.
  - destruct cs as [| c cs]; [split; [constructor | reflexivity] |].
    destruct (IH cs) as [Hw Hs]. cbn [map2 map]. split.
    + constructor; [now apply wf_mscale | exact Hw].
    + rewrite vsum_cons.
      change (dot (c :: cs) (entry f k m :: map (fun f0 => entry f0 k m) fs))
        with (c * entry f k m + dot cs (map (fun f0 => entry f0 k m) fs)).
      rewrite Hs, (entry_mscale c Hf Hk Hm). reflexivity.
Qed.

Lemma lincomb_entry (d1 d2 k m : nat) (cs : vec) (fs : list mat) :
  (k < d1)%nat -> (m < d2)%nat -> Forall (fun f => wf_mat d1 d2 f) fs ->
  entry (lincomb madd_raw mscale [] cs fs) k m
  == dot cs (map (fun f => entry f k m) fs).
Proof.
  intros Hk Hm Hfs.
  destruct (scaled_matrix_fibers_sum Hk Hm Hfs cs) as [Hsc Hsum].
  rewrite <- Hsum. unfold lincomb.
  destruct (map2 mscale cs fs) as [| f0 rest].
  - unfold entry. destruct k; destruct m; reflexivity.
  - inversion Hsc as [| ? ? Hf0 Hrest]; subst.
    destruct (fold_left_madd_entry Hk Hm Hrest Hf0) as [_ Hn].
    rewrite Hn. cbn [map]. rewrite vsum_cons. reflexivity.
Qed.

Lemma col_fibers4 (d1 d2 j : nat) (t : list (list (list (list Q)))) :
  fibers4 d1 d2 t -> Forall (fun f => wf_mat d1 d2 f) (col j t).
Proof.
  unfold fibers4, col. induction 1 as [| r t Hr _ IH]; [constructor |].
  cbn [flat_map]. apply Forall_app. split; [| exact IH].
  destruct (nth_error r j) as [f |] eqn:E; [| constructor].
  constructor; [| constructor].
  apply nth_error_In in E. rewrite Forall_forall in Hr. now apply Hr.
Qed.

Lemma perm_rows_fib_slice4 (d1 d2 k m : nat) (perm : mat)
  (t : list (list (list (list Q)))) :
  (k < d1)%nat -> (m < d2)%nat -> fibers4 d1 d2 t ->
  mat_eq (slice4 k m (perm_rows_fib madd_raw mscale [] perm t))
         (matmul_raw perm (slice4 k m t)).
Proof.
  intros Hk Hm Hfib. unfold slice4, perm_rows_fib, matmul_raw, mat_eq.
  rewrite map_map. apply Forall2_map_in. intros prow _.
  rewrite map_map, transpose_map_map, map_map.
  apply Forall2_map_in. intros xcol Hx.
  apply (@lincomb_entry d1 d2); [exact Hk | exact Hm |].
  unfold transpose in Hx. apply in_map_iff in Hx. destruct Hx as (j & <- & _).
  now apply col_fibers4.
Qed.

(** X28. On a rank-4 tensor, the shape of a convolution kernel, [perm_rows]
    permutes every slice of the two trailing axes as it does a matrix:
    slice [(k, m)] of [perm_rows(x, perm)] is [perm @ x[:, :, k, m]]. *)
Theorem perm_rows_rank4_slices (d1 d2 k m : nat) (perm : mat)
  (t : list (list (list (list Q)))) :
  length t = nrows perm -> nrows perm = ncols perm ->
  fibers4 d1 d2 t -> (k < d1)%nat -> (m < d2)%nat ->
  exists t',
    perm_rows (T4 t) perm = Ok (T4 t')
    /\ mat_eq (slice4 k m t') (matmul_raw perm (slice4 k m t)).
Proof.
  intros Hl Hsq Hfib Hk Hm. eexists. split.
  - unfold perm_rows. cbn [shape hd]. rewrite Hl, Nat.eqb_refl.
    cbn [py_assert bind]. rewrite Hsq, Nat.eqb_refl. reflexivity.
  - exact (perm_rows_fib_slice4 perm Hk Hm Hfib).
Qed.

Lemma perm_rows_rank4_slices_witness :
  exists t',
    perm_rows
      (T4 [[[[1; 2]; [3; 4]]; [[5; 6]; [7; 8]]];
           [[[9; 10]; [11; 12]]; [[13; 14]; [15; 16]]]])
      [[0; 1]; [1; 0]] = Ok (T4 t')
    /\ mat_eq (slice4 1 0 t')
         (matmul_raw [[0; 1]; [1; 0]]
            (slice4 1 0
               [[[[1; 2]; [3; 4]]; [[5; 6]; [7; 8]]];
                [[[9; 10]; [11; 12]]; [[13; 14]; [15; 16]]]])).
Proof.
  apply (@perm_rows_rank4_slices 2 2 1 0).
  - reflexivity.
  - reflexivity.
  - repeat constructor.
  - lia.
  - lia.
Defined.


(* ================================================================= *)
(** ** The similarity and the row term on rank-3 tensors *)

(** *** Shapes *)

Lemma grid_ncols (A : Type) (r c : nat) (m : list (list A)) :
  length m = r -> Forall (fun row => length row = c) m -> (0 < r)%nat ->
  ncols m = c.
Proof.
  intros Hl Hr H0. unfold ncols. destruct m as [| row m]; [simpl in Hl; lia |].
  inversion Hr; subst. reflexivity.
Qed.

Lemma grid_transpose (A : Type) (r c : nat) (m : list (list A)) :
  length m = r -> Forall (fun row => length row = c) m -> (0 < r)%nat ->
  length (transpose m) = c
  /\ Forall (fun row => length row = r) (transpose m).
Proof.
  intros Hl Hr H0. pose proof (grid_ncols Hl Hr H0) as Hnc. split.
  - now rewrite length_transpose.
  - unfold transpose. apply Forall_forall. intros x Hx.
    apply in_map_iff in Hx. destruct Hx as (j & <- & Hj).
    apply in_seq in Hj. rewrite length_col; [exact Hl |].
    eapply Forall_impl; [| exact Hr]. simpl. intros a Ha. lia.
Qed.

Lemma fibers3_transpose (d : nat) (t : list (list (list Q))) :
  fibers3 d t -> fibers3 d (transpose t).
Proof.
  intros H. unfold fibers3, transpose. apply Forall_forall. intros x Hx.
  apply in_map_iff in Hx. destruct Hx as (j & <- & _). now apply col_fibers3.
Qed.

Lemma wf_tensor3_transpose (d0 d1 d : nat) (t : list (list (list Q))) :
  wf_tensor3 d0 d1 d t -> (0 < d0)%nat -> wf_tensor3 d1 d0 d (transpose t).
Proof.
  intros (Hl & Hr & Hf) H0. destruct (grid_transpose Hl Hr H0) as [Hl' Hr'].
  split; [exact Hl' |]. split; [exact Hr' | now apply fibers3_transpose].
Qed.

Lemma wf_tensor3_shape (d0 d1 d : nat) (t : list (list (list Q))) :
  wf_tensor3 d0 d1 d t -> (0 < d0)%nat -> (0 < d1)%nat ->
  shape (T3 t) = [d0; d1; d].
Proof.
  intros (Hl & Hr & Hf) H0 H1. cbn [shape].
  rewrite Hl, (grid_ncols Hl Hr H0).
  destruct t as [| row t]; [simpl in Hl; lia |]. cbn [hd].
  inversion Hr as [| ? ? Hrow _]; subst. inversion Hf as [| ? ? Hfrow _]; subst.
  unfold ncols. destruct row as [| f row]; [simpl in H1; lia |]. cbn [hd].
  inversion Hfrow; subst. reflexivity.
Qed.

Lemma wf_slice3 (d0 d1 d k : nat) (t : list (list (list Q))) :
  wf_tensor3 d0 d1 d t -> wf_mat d0 d1 (slice3 k t).
Proof.
  intros (Hl & Hr & _). unfold slice3. apply wf_map_map. split; assumption.
Qed.

Lemma lincomb_length (d : nat) (cs : vec) (fs : list vec) :
  cs <> [] -> fs <> [] -> Forall (fun f => length f = d) fs ->
  length (lincomb vadd vscale [] cs fs) = d.
Proof.
  intros Hcs Hfs Hlen. unfold lincomb.
  destruct cs as [| c cs]; [contradiction |].
  destruct fs as [| f fs]; [contradiction |]. cbn [map2].
  inversion Hlen as [| ? ? Hf Hrest]; subst.
  assert (Hsc : Forall (fun g => length g = length f) (map2 vscale cs fs)).
  { clear - Hrest. revert cs. induction Hrest as [| g fs Hg _ IH]; intros cs.
    - destruct cs; constructor.
    - destruct cs as [| c cs]; [constructor |]. cbn [map2].
      constructor; [| apply IH]. unfold vscale. now rewrite length_map. }
  assert (H0 : length (vscale c f) = length f)
    by (unfold vscale; now rewrite length_map).
  clear - Hsc H0. revert H0. generalize (vscale c f).
  induction Hsc as [| g rest Hg _ IH]; intros acc Hacc; [exact Hacc |].
  cbn [fold_left]. apply IH. rewrite length_vadd; congruence.
Qed.

Lemma wf_perm_rows_fib (n c d : nat) (perm : mat) (t : list (list (list Q))) :
  wf_tensor3 n c d t -> wf_mat n n perm -> (0 < n)%nat ->
  wf_tensor3 n c d (perm_rows_fib vadd vscale [] perm t).
Proof.
  intros (Hl & Hr & Hf) [Hpl Hpr] Hn. unfold perm_rows_fib.
  destruct (grid_transpose Hl Hr Hn) as [Htl Htr].
  split; [now rewrite length_map |]. split.
  - apply Forall_forall. intros row Hrow. apply in_map_iff in Hrow.
    destruct Hrow as (prow & <- & _). now rewrite length_map.
  - unfold fibers3. apply Forall_forall. intros row Hrow.
    apply in_map_iff in Hrow. destruct Hrow as (prow & <- & Hprow).
    apply Forall_forall. intros f Hfib. apply in_map_iff in Hfib.
    destruct Hfib as (xcol & <- & Hxcol).
    rewrite Forall_forall in Hpr, Htr.
    specialize (Hpr _ Hprow). specialize (Htr _ Hxcol).
    apply lincomb_length.
    + intros ->. simpl in Hpr. lia.
    + intros ->. simpl in Htr. lia.
    + pose proof (fibers3_transpose Hf) as Hft. unfold fibers3 in Hft.
      rewrite Forall_forall in Hft. now apply Hft.
Qed.

(** *** The contraction [ijk,jnk->in] as a sum over the last axis *)

Lemma fiber_dot_slices (d : nat) (arow bcol : list vec) :
  Forall (fun f => length f = d) arow -> Forall (fun f => length f = d) bcol ->
  vsum (map2 dot arow bcol)
  == bigsum d (fun k => dot (map (fun f => nth k f 0) arow)
                            (map (fun f => nth k f 0) bcol)).
Proof.
  intros Ha. revert bcol. induction Ha as [| f arow Hf _ IH]; intros bcol Hb.
  - cbn [map2 map]. change (vsum []) with 0. symmetry.
    apply bigsum_zero. intros k _. reflexivity.
  - destruct Hb as [| g bcol Hg Hb].
    + cbn [map2 map]. change (vsum []) with 0. symmetry.
      apply bigsum_zero. intros k _. reflexivity.
    + cbn [map2 map]. rewrite vsum_cons, (IH _ Hb).
      rewrite dot_bigsum by congruence. rewrite Hf, <- bigsum_plus.
      apply bigsum_ext. intros k _. reflexivity.
Qed.

Lemma nth_transpose_gen (A : Type) (m : list (list A)) (j : nat) :
  (j < ncols m)%nat -> nth j (transpose m) [] = col j m.
Proof.
  intros H. unfold transpose.
  rewrite (@nth_map_in _ _ (fun j => col j m) _ j O) by now rewrite length_seq.
  now rewrite seq_nth.
Qed.

Lemma entry_contract_fib (r c n d i j : nat) (a b : list (list (list Q))) :
  wf_tensor3 r c d a -> wf_tensor3 c n d b ->
  (0 < c)%nat -> (i < r)%nat -> (j < n)%nat ->
  entry (contract_fib dot a b) i j
  == bigsum d (fun k => entry (matmul_raw (slice3 k a) (slice3 k b)) i j).
Proof.
  intros (Hal & Har & Haf) (Hbl & Hbr & Hbf) Hc Hi Hj.
  pose proof (grid_ncols Hbl Hbr Hc) as Hnc.
  unfold entry at 1. unfold contract_fib.
  rewrite (@nth_map_in _ _ _ a i [] []) by lia.
  rewrite (@nth_map_in _ _ _ (transpose b) j [] 0)
    by (rewrite length_transpose; lia).
  assert (Hfa : Forall (fun f => length f = d) (nth i a [])).
  { unfold fibers3 in Haf. rewrite Forall_forall in Haf. apply Haf.
    apply nth_In. lia. }
  assert (Hfb : Forall (fun f => length f = d) (nth j (transpose b) [])).
  { rewrite nth_transpose_gen by lia. now apply col_fibers3. }
  rewrite (fiber_dot_slices Hfa Hfb).
  apply bigsum_ext. intros k _.
  unfold entry, matmul_raw, slice3.
  rewrite (@nth_map_in _ _ _ (map (map (fun f => nth k f 0)) a) i [] [])
    by (rewrite length_map; lia).
  rewrite (@nth_map_in _ _ _ a i [] []) by lia.
  rewrite transpose_map_map.
  rewrite (@nth_map_in _ _ _ (map (map (fun f => nth k f 0)) (transpose b)) j [] 0)
    by (rewrite length_map, length_transpose; lia).
  rewrite (@nth_map_in _ _ _ (transpose b) j [] [])
    by (rewrite length_transpose; lia).
  reflexivity.
Qed.

Lemma wf_contract_fib (r c n d : nat) (a b : list (list (list Q))) :
  wf_tensor3 r c d a -> wf_tensor3 c n d b -> (0 < c)%nat ->
  wf_mat r n (contract_fib dot a b).
Proof.
  intros (Hal & _ & _) (Hbl & Hbr & _) Hc. unfold contract_fib. split.
  - now rewrite length_map.
  - apply Forall_forall. intros row Hrow. apply in_map_iff in Hrow.
    destruct Hrow as (arow & <- & _).
    rewrite length_map, length_transpose. exact (grid_ncols Hbl Hbr Hc).
Qed.

Lemma trace_sum_of_slices (n d : nat) (G : mat) (M : nat -> mat) :
  wf_mat n n G -> (forall k, (k < d)%nat -> wf_mat n n (M k)) ->
  (forall i j, (i < n)%nat -> (j < n)%nat ->
     entry G i j == bigsum d (fun k => entry (M k) i j)) ->
  trace G == bigsum d (fun k => trace (M k)).
Proof.
  intros HG HM He. rewrite (trace_bigsum HG).
  transitivity (bigsum n (fun i => bigsum d (fun k => entry (M k) i i))).
  - apply bigsum_ext. intros i Hi. now apply He.
  - rewrite bigsum_exchange. apply bigsum_ext. intros k Hk.
    symmetry. exact (trace_bigsum (HM k Hk)).
Qed.

Lemma frobenius_sum_of_slices (n d : nat) (G P : mat) (M : nat -> mat) :
  wf_mat n n G -> wf_mat n n P -> (forall k, (k < d)%nat -> wf_mat n n (M k)) ->
  (forall i j, (i < n)%nat -> (j < n)%nat ->
     entry G i j == bigsum d (fun k => entry (M k) i j)) ->
  frobenius G P == bigsum d (fun k => frobenius (M k) P).
Proof.
  intros HG HP HM He. rewrite (frobenius_bigsum HG HP).
  transitivity
    (bigsum d (fun k =>
       bigsum n (fun i => bigsum n (fun j => entry (M k) i j * entry P i j)))).
  - transitivity
      (bigsum n (fun i =>
         bigsum d (fun k => bigsum n (fun j => entry (M k) i j * entry P i j)))).
    + apply bigsum_ext. intros i Hi.
      transitivity
        (bigsum n (fun j => bigsum d (fun k => entry (M k) i j * entry P i j))).
      * apply bigsum_ext. intros j Hj.
        rewrite (He i j Hi Hj), <- bigsum_scale_r. reflexivity.
      * apply bigsum_exchange.
    + apply bigsum_exchange.
  - apply bigsum_ext. intros k Hk. symmetry.
    exact (frobenius_bigsum (HM k Hk) HP).
Qed.

Lemma perm_rows_T3 (n c d : nat) (t : list (list (list Q))) (perm : mat) :
  wf_tensor3 n c d t -> wf_mat n n perm ->
  perm_rows (T3 t) perm = Ok (T3 (perm_rows_fib vadd vscale [] perm t)).
Proof.
  intros (Hl & _ & _) Hp. unfold perm_rows. cbn [shape hd].
  unfold nrows. destruct Hp as [Hpl Hpr]. rewrite Hl, Hpl, Nat.eqb_refl.
  cbn [py_assert bind].
  rewrite (wf_mat_square_ncols (conj Hpl Hpr)), Nat.eqb_refl. reflexivity.
Qed.

Section Rank3.

Variables d0 d1 d : nat.
Variables Wa Wb : list (list (list Q)).
Variables P q : mat.
Hypothesis Wa_shape : wf_tensor3 d0 d1 d Wa.
Hypothesis Wb_shape : wf_tensor3 d0 d1 d Wb.
Hypothesis P_shape : wf_mat d0 d0 P.
Hypothesis q_shape : wf_mat d1 d1 q.
Hypothesis d0_pos : (0 < d0)%nat.
Hypothesis d1_pos : (0 < d1)%nat.

(** [Wb_perm] of the similarity: [perm_cols(perm_rows(Wb, P), q.T)]. *)
Let Wb_rows := perm_rows_fib vadd vscale [] P Wb.
Let Wb_cols_t := perm_rows_fib vadd vscale [] (transpose (transpose q)) (transpose Wb_rows).
Let Wb_perm := transpose Wb_cols_t.

(** The permuted operand of the row term: [perm_rows(Wb.transpose(1, 0), q)]. *)
Let Wbt_perm := perm_rows_fib vadd vscale [] q (transpose Wb).

Lemma wf_Wb_rows : wf_tensor3 d0 d1 d Wb_rows.
Proof. exact (wf_perm_rows_fib Wb_shape P_shape d0_pos). Qed.

Lemma wf_qtt : wf_mat d1 d1 (transpose (transpose q)).
Proof.
  apply wf_transpose_pos; [| exact d1_pos].
  apply wf_transpose_pos; [exact q_shape | exact d1_pos].
Qed.

Lemma wf_Wb_cols_t : wf_tensor3 d1 d0 d Wb_cols_t.
Proof.
  exact (wf_perm_rows_fib (wf_tensor3_transpose wf_Wb_rows d0_pos) wf_qtt d1_pos).
Qed.

Lemma wf_Wb_perm : wf_tensor3 d0 d1 d Wb_perm.
Proof. exact (wf_tensor3_transpose wf_Wb_cols_t d1_pos). Qed.

Lemma wf_Wbt_perm : wf_tensor3 d1 d0 d Wbt_perm.
Proof.
  exact (wf_perm_rows_fib (wf_tensor3_transpose Wb_shape d0_pos) q_shape d1_pos).
Qed.

Lemma perm_cols_rank3 :
  perm_cols (T3 Wb_rows) (transpose q) = Ok (T3 Wb_perm).
Proof.
  pose proof wf_Wb_rows as H1. pose proof wf_qtt as Hqtt.
  assert (Hqt : wf_mat d1 d1 (transpose q))
    by (apply wf_transpose_pos; [exact q_shape | exact d1_pos]).
  unfold perm_cols.
  assert (Hs : shape_at (T3 Wb_rows) 1 = Ok d1).
  { unfold shape_at. cbn [shape nth_error].
    destruct H1 as (Hl & Hr & _). now rewrite (grid_ncols Hl Hr d0_pos). }
  rewrite Hs. cbn [bind]. unfold nrows at 1 2.
  replace (length (transpose q)) with d1 by (symmetry; apply Hqt).
  rewrite (wf_mat_square_ncols Hqt), Nat.eqb_refl.
  cbn [py_assert bind transpose10].
  rewrite (perm_rows_T3 (wf_tensor3_transpose H1 d0_pos) Hqtt).
  reflexivity.
Qed.

Lemma einsum3_ok (r c n : nat) (a b : list (list (list Q))) :
  wf_tensor3 r c d a -> wf_tensor3 c n d b ->
  (0 < r)%nat -> (0 < c)%nat -> (0 < n)%nat ->
  einsum3 (T3 a) (T3 b) = Ok (contract_fib dot a b).
Proof.
  intros Ha Hb Hr Hc Hn. unfold einsum3.
  pose proof (wf_tensor3_shape Ha Hr Hc) as Hsa.
  pose proof (wf_tensor3_shape Hb Hc Hn) as Hsb.
  cbn [shape] in Hsa, Hsb. injection Hsa as _ Hca Hda. injection Hsb as Hlb _ Hdb.
  rewrite Hca, Hlb, Hda, Hdb, !Nat.eqb_refl. reflexivity.
Qed.

Lemma compute_layer_similarity_rank3_eval (debug : bool) :
  compute_layer_similarity (T3 Wa) (T3 Wb) P (Some q) debug
  = Ok (trace (contract_fib dot (transpose Wa) Wb_perm)).
Proof.
  unfold compute_layer_similarity.
  rewrite (perm_rows_T3 Wb_shape P_shape). cbn [bind dim Nat.eqb andb].
  fold Wb_rows. rewrite perm_cols_rank3. cbn [bind transpose10].
  rewrite (einsum3_ok (wf_tensor3_transpose Wa_shape d0_pos) wf_Wb_perm
             d1_pos d0_pos d1_pos).
  reflexivity.
Qed.

Lemma compute_gradient_P_curr_rank3_eval :
  compute_gradient_P_curr (T3 Wa) (T3 Wb) (Some q)
  = Ok (contract_fib dot Wa Wbt_perm).
Proof.
  unfold compute_gradient_P_curr. cbn [bind].
  rewrite (wf_tensor3_shape Wa_shape d0_pos d1_pos).
  rewrite (wf_tensor3_shape Wb_shape d0_pos d1_pos).
  rewrite shape_eqb_refl. cbn [py_assert bind].
  assert (Hs : shape_at (T3 Wb) 1 = Ok d1).
  { unfold shape_at. now rewrite (wf_tensor3_shape Wb_shape d0_pos d1_pos). }
  rewrite Hs. cbn [bind]. unfold nrows.
  replace (length q) with d1 by (symmetry; apply q_shape).
  rewrite Nat.eqb_refl. cbn [py_assert bind transpose10].
  rewrite (perm_rows_T3 (wf_tensor3_transpose Wb_shape d0_pos) q_shape).
  cbn [bind dim Nat.eqb]. fold Wbt_perm.
  exact (einsum3_ok Wa_shape wf_Wbt_perm d0_pos d1_pos d0_pos).
Qed.

Lemma slice3_transpose (k : nat) (t : list (list (list Q))) :
  slice3 k (transpose t) = transpose (slice3 k t).
Proof. unfold slice3. now rewrite transpose_map_map. Qed.

Lemma slice3_Wb_perm (k : nat) :
  (k < d)%nat ->
  mat_eq (slice3 k Wb_perm) (permuted_rank2 (slice3 k Wb) P q).
Proof.
  intros Hk. destruct Wb_shape as (_ & _ & Hfb).
  pose proof wf_Wb_rows as H1. pose proof wf_Wb_cols_t as H2. pose proof wf_qtt as Hqtt.
  pose proof (perm_rows_fib_slice3 P Hk Hfb) as E1. fold Wb_rows in E1.
  assert (Hf1t : fibers3 d (transpose Wb_rows))
    by (apply fibers3_transpose; apply H1).
  pose proof (perm_rows_fib_slice3 (transpose (transpose q)) Hk Hf1t) as E2.
  fold Wb_cols_t in E2.
  unfold Wb_perm, permuted_rank2. rewrite slice3_transpose.
  apply (transpose_eq (wf_slice3 k H2)); [| exact d1_pos].
  apply (mat_eq_trans E2).
  rewrite slice3_transpose.
  apply (matmul_raw_eq_r Hqtt (wf_transpose_pos (wf_slice3 k H1) d0_pos));
    [| exact d1_pos].
  exact (transpose_eq (wf_slice3 k H1) E1 d0_pos).
Qed.

Lemma slice3_Wbt_perm (k : nat) :
  (k < d)%nat ->
  mat_eq (slice3 k Wbt_perm) (matmul_raw q (transpose (slice3 k Wb))).
Proof.
  intros Hk. destruct Wb_shape as (_ & _ & Hfb).
  pose proof (perm_rows_fib_slice3 q Hk (fibers3_transpose Hfb)) as E.
  fold Wbt_perm in E. rewrite slice3_transpose in E.
  exact E.
Qed.

Lemma similarity_rank3_slices :
  trace (contract_fib dot (transpose Wa) Wb_perm)
  == bigsum d (fun k =>
       frobenius (slice3 k Wa)
         (matmul_raw (matmul_raw P (slice3 k Wb)) (transpose q))).
Proof.
  pose proof (wf_tensor3_transpose Wa_shape d0_pos) as Hat. pose proof wf_Wb_perm as HX.
  rewrite (@trace_sum_of_slices d1 d _
             (fun k => matmul_raw (slice3 k (transpose Wa)) (slice3 k Wb_perm))).
  - apply bigsum_ext. intros k Hk.
    rewrite slice3_transpose.
    pose proof (wf_slice3 k Wa_shape) as Hak.
    pose proof (wf_slice3 k Wb_shape) as Hbk.
    pose proof (wf_slice3 k HX) as HXk.
    rewrite (trace_transpose_product Hak HXk d0_pos d1_pos).
    rewrite (frobenius_eq_r Hak HXk (slice3_Wb_perm Hk)).
    exact (frobenius_eq_r Hak (wf_permuted_rank2 Hbk P_shape q_shape d0_pos d1_pos)
             (permuted_rank2_product Hbk P_shape q_shape d0_pos d1_pos)).
  - exact (wf_contract_fib Hat HX d0_pos).
  - intros k Hk.
    exact (wf_matmul (wf_slice3 k Hat) (wf_slice3 k HX) d0_pos).
  - intros i j Hi Hj. exact (entry_contract_fib Hat HX d0_pos Hi Hj).
Qed.

Lemma frobenius_eq_l (r c : nat) (a a' b : mat) :
  wf_mat r c a -> mat_eq a a' -> wf_mat r c b ->
  frobenius a b == frobenius a' b.
Proof.
  intros Ha Haa Hb. pose proof (mat_eq_wf Ha Haa) as Ha'.
  rewrite (frobenius_bigsum Ha Hb), (frobenius_bigsum Ha' Hb).
  apply bigsum_ext. intros i Hi. apply bigsum_ext. intros j Hj.
  now rewrite (mat_eq_entry Ha Haa Hi Hj).
Qed.

Lemma row_term_rank3_pairs :
  trace (contract_fib dot (transpose Wa) Wb_perm)
  == frobenius (contract_fib dot Wa Wbt_perm) P.
Proof.
  pose proof wf_Wbt_perm as HY.
  rewrite similarity_rank3_slices.
  rewrite (@frobenius_sum_of_slices d0 d _ P
             (fun k => matmul_raw (slice3 k Wa) (slice3 k Wbt_perm))).
  - apply bigsum_ext. intros k Hk.
    pose proof (wf_slice3 k Wa_shape) as Hak.
    pose proof (wf_slice3 k Wb_shape) as Hbk.
    pose proof (wf_slice3 k HY) as HYk.
    assert (HG : mat_eq (matmul_raw (slice3 k Wa) (slice3 k Wbt_perm))
                   (grad_row_term (slice3 k Wa) (slice3 k Wb) q))
      by exact (matmul_raw_eq_r Hak HYk (slice3_Wbt_perm Hk) d1_pos).
    rewrite (frobenius_eq_l (wf_matmul Hak HYk d1_pos) HG P_shape).
    rewrite <- (similarity_pairs_with_row_term Hak Hbk P_shape q_shape
                  d0_pos d1_pos).
    pose proof (wf_permuted_rank2 Hbk P_shape q_shape d0_pos d1_pos) as HXk.
    rewrite (trace_transpose_product Hak HXk d0_pos d1_pos).
    symmetry.
    exact (frobenius_eq_r Hak HXk
             (permuted_rank2_product Hbk P_shape q_shape d0_pos d1_pos)).
  - exact (wf_contract_fib Wa_shape HY d1_pos).
  - exact P_shape.
  - intros k Hk.
    exact (wf_matmul (wf_slice3 k Wa_shape) (wf_slice3 k HY) d1_pos).
  - intros i j Hi Hj. exact (entry_contract_fib Wa_shape HY d1_pos Hi Hj).
Qed.

End Rank3.

(** X29. On a rank-3 layer (a conv1d-shaped weight of shape d0 x d1 x d)
    whose columns are permuted by [q], [compute_layer_similarity] returns
    the sum over the last axis of the rank-2 similarities of the slices:
    sum_k < Wa[:,:,k], P Wb[:,:,k] q^T >.  The last axis is carried along
    untouched by [perm_rows], by [perm_cols] and by the [ijk,jnk->in]
    contraction. *)
Theorem compute_layer_similarity_rank3_slices (d0 d1 d : nat)
  (Wa Wb : list (list (list Q))) (P q : mat) (debug : bool) :
  wf_tensor3 d0 d1 d Wa ->
  wf_tensor3 d0 d1 d Wb ->
  wf_mat d0 d0 P ->
  wf_mat d1 d1 q ->
  (0 < d0)%nat ->
  (0 < d1)%nat ->
  exists s,
    compute_layer_similarity (T3 Wa) (T3 Wb) P (Some q) debug = Ok s /\
    s == bigsum d (fun k =>
           frobenius (slice3 k Wa)
             (matmul_raw (matmul_raw P (slice3 k Wb)) (transpose q))).
Proof.
  intros Ha Hb HP Hq H0 H1. eexists. split.
  - exact (compute_layer_similarity_rank3_eval Ha Hb HP Hq H0 H1 debug).
  - exact (similarity_rank3_slices Ha Hb HP Hq H0 H1).
Qed.

Lemma compute_layer_similarity_rank3_slices_witness :
  exists s,
    compute_layer_similarity
      (T3 [[[1; 2]; [3; 4]]; [[5; 6]; [7; 8]]])
      (T3 [[[2; 0]; [1; 1]]; [[0; 3]; [4; 1]]])
      [[0; 1]; [1; 0]] (Some [[1 # 2; 1 # 2]; [0; 1]]) true = Ok s /\
    s == bigsum 2 (fun k =>
           frobenius (slice3 k [[[1; 2]; [3; 4]]; [[5; 6]; [7; 8]]])
             (matmul_raw
                (matmul_raw [[0; 1]; [1; 0]]
                   (slice3 k [[[2; 0]; [1; 1]]; [[0; 3]; [4; 1]]]))
                (transpose [[1 # 2; 1 # 2]; [0; 1]]))).
Proof.
  apply (@compute_layer_similarity_rank3_slices 2 2 2);
    try (unfold wf_tensor3, fibers3, wf_mat; repeat split; repeat constructor);
    lia.
Defined.

(** X30. On rank-3 operands [compute_gradient_P_curr] returns a square
    d0 x d0 matrix G, and G is the derivative of the layer similarity in
    the row permutation: for every d0 x d0 matrix P the similarity that
    [compute_layer_similarity] returns for P equals the Frobenius product
    < G, P >. *)
Theorem compute_gradient_P_curr_rank3_pairs (d0 d1 d : nat)
  (Wa Wb : list (list (list Q))) (q : mat) :
  wf_tensor3 d0 d1 d Wa ->
  wf_tensor3 d0 d1 d Wb ->
  wf_mat d1 d1 q ->
  (0 < d0)%nat ->
  (0 < d1)%nat ->
  exists G,
    compute_gradient_P_curr (T3 Wa) (T3 Wb) (Some q) = Ok G /\
    wf_mat d0 d0 G /\
    forall (P : mat) (debug : bool),
      wf_mat d0 d0 P ->
      exists s,
        compute_layer_similarity (T3 Wa) (T3 Wb) P (Some q) debug = Ok s /\
        s == frobenius G P.
Proof.
  intros Ha Hb Hq H0 H1. eexists. split; [| split].
  - exact (compute_gradient_P_curr_rank3_eval Ha Hb Hq H0 H1).
  - exact (wf_contract_fib Ha (wf_Wbt_perm Hb Hq H0 H1) H1).
  - intros P debug HP. eexists. split.
    + exact (compute_layer_similarity_rank3_eval Ha Hb HP Hq H0 H1 debug).
    + exact (row_term_rank3_pairs Ha Hb HP Hq H0 H1).
Qed.

Lemma compute_gradient_P_curr_rank3_pairs_witness :
  exists G,
    compute_gradient_P_curr
      (T3 [[[1; 2]; [3; 4]]; [[5; 6]; [7; 8]]])
      (T3 [[[2; 0]; [1; 1]]; [[0; 3]; [4; 1]]])
      (Some [[1 # 2; 1 # 2]; [0; 1]]) = Ok G /\
    wf_mat 2 2 G /\
    forall (P : mat) (debug : bool),
      wf_mat 2 2 P ->
      exists s,
        compute_layer_similarity
          (T3 [[[1; 2]; [3; 4]]; [[5; 6]; [7; 8]]])
          (T3 [[[2; 0]; [1; 1]]; [[0; 3]; [4; 1]]])
          P (Some [[1 # 2; 1 # 2]; [0; 1]]) debug = Ok s /\
        s == frobenius G P.
Proof.
  apply (@compute_gradient_P_curr_rank3_pairs 2 2 2);
    try (unfold wf_tensor3, fibers3, wf_mat; repeat split; repeat constructor);
    lia.
Defined.
